(** * Helio Workstation: sequencer layout animations and merge connectors

    A shallow embedding of
    - [Source/UI/Sequencer/SequencerLayout.cpp]: the [ToggleAnimation]
      primitive and the [RollsSwitchingProxy] container that owns three of
      them and drives them from a [MultiTimer];
    - [Source/UI/Sequencer/Helpers/MergingEventsConnector.cpp]: the overlay
      drawn while notes or clips are dragged onto each other.

    The C++ type [float] is IEEE 754 binary32.  It is modelled by the
    standard library's executable specification [SpecFloat] at precision 24
    and maximal exponent 128, every arithmetic operation being rounded to
    nearest even on its own (no fused multiply-add, no excess precision).
    The C++ type [int] is 32 bits wide.  Signed overflow is undefined
    behaviour in C++; the compiled code wraps around, and where the
    connectors build a rectangle from two pixels of any size the model
    writes that wrap-around out ([Juce.wrap]).  The layout arithmetic of the
    proxy is left in [Z]: what is proved of it bounds the heights, or does
    not depend on the size of the numbers. *)

From Stdlib Require Import ZArith Bool Lia List Wf_Z Floats.SpecFloat.
Import ListNotations.
Open Scope Z_scope.

(** ** Single precision arithmetic *)

Module F32.

Definition prec : Z := 24.
Definition emax : Z := 128.

Definition float : Type := spec_float.

Definition add : float -> float -> float := SFadd prec emax.
Definition sub : float -> float -> float := SFsub prec emax.
Definition mul : float -> float -> float := SFmul prec emax.
Definition div : float -> float -> float := SFdiv prec emax.
Definition neg : float -> float := SFopp.

(** [x < y]; false as soon as one side is a NaN. *)
Definition ltb : float -> float -> bool := SFltb.
Definition leb : float -> float -> bool := SFleb.
Definition eqb : float -> float -> bool := SFeqb.

(** [float(n)] for an [int] n. *)
Definition of_int (n : Z) : float := binary_normalize prec emax n 0 false.

(** The decimal literal [n / d] with an [f] suffix: the binary32 number
    nearest to the quotient (both [n] and [d] are below [2^24] wherever this
    is used, so that the only rounding is that of the division). *)
Definition literal (n d : Z) : float := div (of_int n) (of_int d).

Definition zero : float := S754_zero false.
Definition one : float := Eval vm_compute in of_int 1.
Definition minus_one : float := Eval vm_compute in of_int (-1).

Definition INT_MIN : Z := - 2 ^ 31.
Definition INT_MAX : Z := 2 ^ 31 - 1.

(** The integer part of a finite number, rounding toward zero. *)
Definition truncate (x : float) : Z :=
  match x with
  | S754_finite s m e =>
      cond_Zopp s (match e with
                   | Zneg k => Z.shiftr (Zpos m) (Zpos k)
                   | _ => Z.shiftl (Zpos m) e
                   end)
  | _ => 0
  end.

(** [int(x)] and [static_cast<int>(x)].  The conversion is undefined in C++
    when the integer part does not fit (and for infinities and NaN); the
    model returns what the x86 conversion instruction returns then, [INT_MIN]. *)
Definition to_int (x : float) : Z :=
  match x with
  | S754_nan | S754_infinity _ => INT_MIN
  | _ => let t := truncate x in
         if (INT_MIN <=? t) && (t <=? INT_MAX) then t else INT_MIN
  end.

End F32.

(** ** The parts of JUCE the two files rely on *)

Module Juce.

(** [jlimit (lowerLimit, upperLimit, valueToConstrain)] at type [float]. *)
Definition jlimit (lowerLimit upperLimit valueToConstrain : F32.float) : F32.float :=
  if F32.ltb valueToConstrain lowerLimit then lowerLimit
  else if F32.ltb upperLimit valueToConstrain then upperLimit
  else valueToConstrain.

Record Point (A : Type) : Type := mkPoint { px : A; py : A }.
Arguments mkPoint {A} _ _.
Arguments px {A} _.
Arguments py {A} _.

(** [Point<float>::toInt]: a [static_cast<int>] of each coordinate. *)
Definition toInt (p : Point F32.float) : Point Z :=
  mkPoint (F32.to_int (px p)) (F32.to_int (py p)).

(** [Rectangle<int>]: position of the top left corner, width and height. *)
Record Rectangle : Type := mkRectangle { rx : Z; ry : Z; rw : Z; rh : Z }.

(** The [int] an arithmetic operation leaves when its exact result is [n]:
    the number of [INT_MIN .. INT_MAX] that differs from [n] by a multiple
    of [2^32]. *)
Definition wrap (n : Z) : Z := (n + 2 ^ 31) mod 2 ^ 32 - 2 ^ 31.

Definition getRight (r : Rectangle) : Z := rx r + rw r.
Definition getBottom (r : Rectangle) : Z := ry r + rh r.

(** [Rectangle (Point corner1, Point corner2)]: the rectangle spanned by two
    opposite corners, given in any order. *)
Definition fromCorners (corner1 corner2 : Point Z) : Rectangle :=
  let w := wrap (px corner1 - px corner2) in
  let h := wrap (py corner1 - py corner2) in
  mkRectangle (Z.min (px corner1) (px corner2)) (Z.min (py corner1) (py corner2))
              (if w <? 0 then wrap (- w) else w) (if h <? 0 then wrap (- h) else h).

(** [Rectangle::expanded (delta)]. *)
Definition expanded (delta : Z) (r : Rectangle) : Rectangle :=
  mkRectangle (wrap (rx r - delta)) (wrap (ry r - delta))
              (Z.max 0 (wrap (rw r + wrap (delta * 2))))
              (Z.max 0 (wrap (rh r + wrap (delta * 2)))).

Definition withY (newY : Z) (r : Rectangle) : Rectangle :=
  mkRectangle (rx r) newY (rw r) (rh r).

Definition withBottom (newBottom : Z) (r : Rectangle) : Rectangle :=
  mkRectangle (rx r) (ry r) (rw r) (Z.max 0 (newBottom - ry r)).

Definition translated (dx dy : Z) (r : Rectangle) : Rectangle :=
  mkRectangle (rx r + dx) (ry r + dy) (rw r) (rh r).

(** [Rectangle::removeFromBottom (amount)], the strip that is returned. *)
Definition removeFromBottom (amountToRemove : Z) (r : Rectangle) : Rectangle :=
  let amount := Z.min amountToRemove (rh r) in
  mkRectangle (rx r) (ry r + rh r - amount) (rw r) amount.

(** [Rectangle<int>::toFloat] followed by [getRelativePoint (relativeX, relativeY)]. *)
Definition getRelativePoint (r : Rectangle) (relative : Point F32.float) : Point F32.float :=
  mkPoint (F32.add (F32.of_int (rx r)) (F32.mul (F32.of_int (rw r)) (px relative)))
          (F32.add (F32.of_int (ry r)) (F32.mul (F32.of_int (rh r)) (py relative))).

(** What a [Component] keeps of itself: the two flags and the bounds inside
    its parent.  [Component::setBounds] never stores a negative size. *)
Record Widget : Type := mkWidget { enabled : bool; visible : bool; bounds : Rectangle }.

Definition setEnabledW (b : bool) (w : Widget) : Widget := mkWidget b (visible w) (bounds w).
Definition setVisibleW (b : bool) (w : Widget) : Widget := mkWidget (enabled w) b (bounds w).
Definition setBoundsW (r : Rectangle) (w : Widget) : Widget :=
  mkWidget (enabled w) (visible w)
           (mkRectangle (rx r) (ry r) (Z.max 0 (rw r)) (Z.max 0 (rh r))).
Definition setTopLeftPositionW (x y : Z) (w : Widget) : Widget :=
  mkWidget (enabled w) (visible w) (mkRectangle x y (rw (bounds w)) (rh (bounds w))).

(** A component fresh from its constructor: enabled, not yet visible, empty. *)
Definition newWidget : Widget := mkWidget true false (mkRectangle 0 0 0 0).

End Juce.

(** ** [ToggleAnimation] (SequencerLayout.cpp, nested in [RollsSwitchingProxy]) *)

Module ToggleAnimation.

Import F32.

(** The literals of the class. *)
Definition c0_001 : float := Eval vm_compute in literal 1 1000.
Definition c0_999 : float := Eval vm_compute in literal 999 1000.
Definition c0_85 : float := Eval vm_compute in literal 85 100.
Definition c0_15 : float := Eval vm_compute in literal 15 100.

Record t : Type := mk {
  position : float;      (* 0.f to 1.f *)
  direction : float;
  speed : float;
  deceleration : float
}.

(** The default member initialisers. *)
Definition init : t := mk zero minus_one zero one.

Definition start (startSpeed : float) (a : t) : t :=
  mk (position a)
     (mul (direction a) minus_one)
     startSpeed
     (sub one startSpeed).

(** The animation after the call, and the value returned. *)
Definition tickAndCheckIfDone (a : t) : t * bool :=
  let position' := add (position a) (mul (direction a) (speed a)) in
  let speed' := mul (speed a) (deceleration a) in
  (mk position' (direction a) speed' (deceleration a),
   ltb position' c0_001 || ltb c0_999 position' || ltb speed' c0_001).

Definition tick (a : t) : t := fst (tickAndCheckIfDone a).
Definition done (a : t) : bool := snd (tickAndCheckIfDone a).

Definition finish (a : t) : t :=
  (* push to either 0 or 1: *)
  mk (Juce.jlimit zero one (add (position a) (direction a)))
     (direction a) (speed a) (deceleration a).

Definition canRestart (a : t) : bool :=
  (ltb zero (direction a) && ltb c0_85 (position a))
  || (ltb (direction a) zero && ltb (position a) c0_15).

(** Declared to return [float] in the source; every caller uses it as a
    [bool], and so does the model. *)
Definition isInDefaultState (a : t) : bool := ltb (direction a) zero.

Definition getPosition (a : t) : float := position a.

Definition resetToStart (a : t) : t := mk zero minus_one (speed a) (deceleration a).
Definition resetToEnd (a : t) : t := mk one one (speed a) (deceleration a).

(** [n] calls of [tickAndCheckIfDone] in a row. *)
Fixpoint ticks (n : nat) (a : t) : t :=
  match n with
  | O => a
  | S k => ticks k (tick a)
  end.

(** The animations that have not been started since they were made:
    the default one, possibly reset. *)
Inductive neverStarted : t -> Prop :=
| ns_init : neverStarted init
| ns_resetToStart : forall a, neverStarted a -> neverStarted (resetToStart a)
| ns_resetToEnd : forall a, neverStarted a -> neverStarted (resetToEnd a).

End ToggleAnimation.

(** ** Merge connectors (MergingEventsConnector.cpp) *)

Module Connector.

Import Juce.

(** A colour, as its ARGB word. *)
Definition Colour : Type := Z.

(** What a connector can point to: a clip component, which carries the
    colour of the clip's track ([getClip().getTrackColour()]), or any other
    component.  A [SafePointer<Component>] is an optional component: the
    pointer is null, or what it pointed to has been deleted. *)
Inductive Component : Type :=
| ClipComponent (trackColour : Colour)
| OtherComponent.

(** [dynamic_cast<ClipComponent *> (pointer.getComponent())] *)
Definition asClipComponent (pointer : option Component) : option Colour :=
  match pointer with
  | Some (ClipComponent c) => Some c
  | _ => None
  end.

(** [MergingEventsConnector]: the fields of the class, the bounds the
    component has in its parent, and the number of [repaint] requests made
    so far.  In spite of their names the two positions are relative: fractions
    of the size of the parent. *)
Record MergingEventsConnector : Type := mkBase {
  sourceComponent : option Component;
  targetComponent : option Component;
  startPositionAbs : Point F32.float;
  endPositionAbs : Point F32.float;
  connectorBounds : Rectangle;
  repaints : nat
}.

Definition construct (source : option Component) (startPosition : Point F32.float)
  : MergingEventsConnector :=
  mkBase source None startPosition startPosition (mkRectangle 0 0 0 0) 0.

Definition repaint (c : MergingEventsConnector) : MergingEventsConnector :=
  mkBase (sourceComponent c) (targetComponent c) (startPositionAbs c) (endPositionAbs c)
         (connectorBounds c) (S (repaints c)).

(** [getParentComponent()->getLocalBounds()], for a parent of the given size. *)
Definition parentLocalBounds (parentWidth parentHeight : Z) : Rectangle :=
  mkRectangle 0 0 parentWidth parentHeight.

Definition getStartPosition (parentWidth parentHeight : Z) (c : MergingEventsConnector)
  : Point F32.float :=
  getRelativePoint (parentLocalBounds parentWidth parentHeight) (startPositionAbs c).

Definition getEndPosition (parentWidth parentHeight : Z) (c : MergingEventsConnector)
  : Point F32.float :=
  getRelativePoint (parentLocalBounds parentWidth parentHeight) (endPositionAbs c).

Definition setBounds (r : Rectangle) (c : MergingEventsConnector) : MergingEventsConnector :=
  mkBase (sourceComponent c) (targetComponent c) (startPositionAbs c) (endPositionAbs c)
         (mkRectangle (rx r) (ry r) (Z.max 0 (rw r)) (Z.max 0 (rh r))) (repaints c).

Definition updateBounds (parentWidth parentHeight : Z) (c : MergingEventsConnector)
  : MergingEventsConnector :=
  let bounds := fromCorners (toInt (getStartPosition parentWidth parentHeight c))
                            (toInt (getEndPosition parentWidth parentHeight c)) in
  setBounds (expanded 10 bounds) c.

Definition setEndPosition (parentWidth parentHeight : Z) (position : Point F32.float)
  (c : MergingEventsConnector) : MergingEventsConnector :=
  let c1 := mkBase (sourceComponent c) (targetComponent c) (startPositionAbs c) position
                   (connectorBounds c) (repaints c) in
  repaint (updateBounds parentWidth parentHeight c1).

Definition setTargetComponent (component : option Component) (c : MergingEventsConnector)
  : MergingEventsConnector :=
  repaint (mkBase (sourceComponent c) component (startPositionAbs c) (endPositionAbs c)
                  (connectorBounds c) (repaints c)).

(** Called by the framework when the parent takes the given size. *)
Definition parentSizeChanged (parentWidth parentHeight : Z) (c : MergingEventsConnector)
  : MergingEventsConnector :=
  repaint (updateBounds parentWidth parentHeight c).

(** [MergingClipsConnector], the arrow variant: the base and two colours. *)
Record MergingClipsConnector : Type := mkClips {
  base : MergingEventsConnector;
  startColour : Colour;
  endColour : Colour
}.

(** The colour a default constructed [Colour] member holds: transparent black. *)
Definition defaultColour : Colour := 0.

Definition constructClips (source : option Component) (startPosition : Point F32.float)
  : MergingClipsConnector :=
  match asClipComponent source with
  | Some trackColour => mkClips (construct source startPosition) trackColour trackColour
  | None => mkClips (construct source startPosition) defaultColour defaultColour
  end.

Definition setTargetComponentClips (component : option Component) (c : MergingClipsConnector)
  : MergingClipsConnector :=
  let endColour' :=
    match asClipComponent component with
    | Some trackColour => trackColour
    | None => startColour c
    end in
  mkClips (setTargetComponent component (base c)) (startColour c) endColour'.

End Connector.

(** ** [RollsSwitchingProxy] (SequencerLayout.cpp) *)

Module RollsSwitchingProxy.

Import Juce.

(** [enum Timers]; each timer drives the animation of the same name. *)
Inductive Timers : Type := rolls | maps | scrollerMode.

(** The components the proxy holds a [SafePointer] to. *)
Inductive Child : Type :=
| PianoRoll | PianoViewport | PatternRoll | PatternViewport
| BottomMapsScroller | BottomEditorsScroller | ScrollerShadow.

(** [ProjectMapsScroller::ScrollerMode] *)
Inductive ScrollerMode : Type := Map | Scroller.

(** The heights of [Globals::UI] (Common.h), which the proxy reads and which
    are not part of the two files; they are parameters of the model. *)
Record Globals : Type := mkGlobals {
  projectMapHeight : Z;
  rollScrollerHeight : Z;
  levelsMapHeight : Z
}.

(** The proxy: its own size, its children, what the two bottom scrollers were
    last told ([setScrollerMode], [setAnimationsEnabled], [switchToRoll]),
    the private fields, and the [MultiTimer] it inherits from, as the interval
    each running timer was started with. *)
Record t : Type := mk {
  width : Z;
  height : Z;
  child : Child -> Widget;
  mapsScrollerMode : ScrollerMode;
  mapsScrollerAnimationsEnabled : bool;
  mapsScrollerRoll : Child;
  editorsScrollerRoll : Child;
  animationsTimerInterval : Z;
  animation : Timers -> ToggleAnimation.t;
  timer : Timers -> option Z
}.

Definition rollsAnimation (p : t) : ToggleAnimation.t := animation p rolls.
Definition mapsAnimation (p : t) : ToggleAnimation.t := animation p maps.
Definition scrollerModeAnimation (p : t) : ToggleAnimation.t := animation p scrollerMode.

Definition Timers_eqb (a b : Timers) : bool :=
  match a, b with
  | rolls, rolls | maps, maps | scrollerMode, scrollerMode => true
  | _, _ => false
  end.

Definition Child_eqb (a b : Child) : bool :=
  match a, b with
  | PianoRoll, PianoRoll | PianoViewport, PianoViewport
  | PatternRoll, PatternRoll | PatternViewport, PatternViewport
  | BottomMapsScroller, BottomMapsScroller
  | BottomEditorsScroller, BottomEditorsScroller
  | ScrollerShadow, ScrollerShadow => true
  | _, _ => false
  end.

(** A small state monad: the member functions read and update [this]. *)
Definition M (A : Type) : Type := t -> A * t.

Definition ret {A : Type} (a : A) : M A := fun p => (a, p).
Definition bind {A B : Type} (m : M A) (k : A -> M B) : M B :=
  fun p => let (a, p') := m p in k a p'.
Definition gets {A : Type} (f : t -> A) : M A := fun p => (f p, p).
Definition modify (f : t -> t) : M unit := fun p => (tt, f p).
Definition exec {A : Type} (m : M A) (p : t) : t := snd (m p).
Definition when (b : bool) (m : M unit) : M unit := if b then m else ret tt.

Declare Scope proxy_scope.
Delimit Scope proxy_scope with proxy.
Notation "x <- m ;; k" := (bind m (fun x => k))
  (at level 61, m at next level, right associativity) : proxy_scope.
Notation "m ;; k" := (bind m (fun _ => k))
  (at level 61, right associativity) : proxy_scope.
Open Scope proxy_scope.

(** Updates of one child, one animation, one timer. *)
Definition updateChild (c : Child) (f : Widget -> Widget) : M unit :=
  modify (fun p =>
    mk (width p) (height p)
       (fun c' => (if Child_eqb c c' then f else fun w => w) (child p c'))
       (mapsScrollerMode p) (mapsScrollerAnimationsEnabled p)
       (mapsScrollerRoll p) (editorsScrollerRoll p)
       (animationsTimerInterval p) (animation p) (timer p)).

Definition updateAnimation (id : Timers) (f : ToggleAnimation.t -> ToggleAnimation.t) : M unit :=
  modify (fun p =>
    mk (width p) (height p) (child p)
       (mapsScrollerMode p) (mapsScrollerAnimationsEnabled p)
       (mapsScrollerRoll p) (editorsScrollerRoll p)
       (animationsTimerInterval p)
       (fun id' => (if Timers_eqb id id' then f else fun a => a) (animation p id'))
       (timer p)).

Definition setTimer (id : Timers) (v : option Z) : M unit :=
  modify (fun p =>
    mk (width p) (height p) (child p)
       (mapsScrollerMode p) (mapsScrollerAnimationsEnabled p)
       (mapsScrollerRoll p) (editorsScrollerRoll p)
       (animationsTimerInterval p) (animation p)
       (fun id' => if Timers_eqb id id' then v else timer p id')).

Definition setEnabled (c : Child) (b : bool) : M unit := updateChild c (setEnabledW b).
Definition setVisible (c : Child) (b : bool) : M unit := updateChild c (setVisibleW b).
Definition setBounds (c : Child) (r : Rectangle) : M unit := updateChild c (setBoundsW r).
Definition setTopLeftPosition (c : Child) (x y : Z) : M unit :=
  updateChild c (setTopLeftPositionW x y).

(** [MultiTimer::startTimer], [stopTimer] and [isTimerRunning]. *)
Definition startTimer (id : Timers) (intervalInMilliseconds : Z) : M unit :=
  setTimer id (Some intervalInMilliseconds).
Definition stopTimer (id : Timers) : M unit := setTimer id None.
Definition isTimerRunning (id : Timers) (p : t) : bool :=
  match timer p id with Some _ => true | None => false end.

(** [ProjectMapsScroller::setScrollerMode] and [setAnimationsEnabled], and
    [switchToRoll] of the two bottom scrollers. *)
Definition setScrollerMode (m : ScrollerMode) : M unit :=
  modify (fun p =>
    mk (width p) (height p) (child p) m (mapsScrollerAnimationsEnabled p)
       (mapsScrollerRoll p) (editorsScrollerRoll p)
       (animationsTimerInterval p) (animation p) (timer p)).

Definition setMapsScrollerAnimationsEnabled (b : bool) : M unit :=
  modify (fun p =>
    mk (width p) (height p) (child p) (mapsScrollerMode p) b
       (mapsScrollerRoll p) (editorsScrollerRoll p)
       (animationsTimerInterval p) (animation p) (timer p)).

Definition switchToRoll (scroller roll : Child) : M unit :=
  modify (fun p =>
    mk (width p) (height p) (child p)
       (mapsScrollerMode p) (mapsScrollerAnimationsEnabled p)
       (if Child_eqb scroller BottomMapsScroller then roll else mapsScrollerRoll p)
       (if Child_eqb scroller BottomEditorsScroller then roll else editorsScrollerRoll p)
       (animationsTimerInterval p) (animation p) (timer p)).

Definition setAnimationsTimerInterval (i : Z) : M unit :=
  modify (fun p =>
    mk (width p) (height p) (child p)
       (mapsScrollerMode p) (mapsScrollerAnimationsEnabled p)
       (mapsScrollerRoll p) (editorsScrollerRoll p)
       i (animation p) (timer p)).

Definition setSize (w h : Z) : M unit :=
  modify (fun p =>
    mk (Z.max 0 w) (Z.max 0 h) (child p)
       (mapsScrollerMode p) (mapsScrollerAnimationsEnabled p)
       (mapsScrollerRoll p) (editorsScrollerRoll p)
       (animationsTimerInterval p) (animation p) (timer p)).

Definition getLocalBounds (p : t) : Rectangle := mkRectangle 0 0 (width p) (height p).

(** The constants of the class. *)
Definition scrollerShadowSize : Z := 16.
Definition rollsAnimationStartSpeed : F32.float := Eval vm_compute in F32.literal 4 10.
Definition mapsAnimationStartSpeed : F32.float := Eval vm_compute in F32.literal 35 100.
Definition scrollerModeAnimationStartSpeed : F32.float := Eval vm_compute in F32.literal 5 10.

(** The constructor.  The seven components come from [SequencerLayout]'s
    constructor; [showFullMiniMap] is the configuration flag
    [isProjectMapInLargeMode]. *)
Definition construct
  (targetRoll1 targetRoll2 targetViewport1 targetViewport2
   bottomMapsScroller bottomEditorsScroller scrollerShadow : Widget)
  (showFullMiniMap : bool) : t :=
  let children (c : Child) : Widget :=
    match c with
    | PianoRoll => targetRoll1
    | PianoViewport => targetViewport1
    | PatternRoll => targetRoll2
    | PatternViewport => targetViewport2
    | BottomMapsScroller => bottomMapsScroller
    | BottomEditorsScroller => bottomEditorsScroller
    | ScrollerShadow => scrollerShadow
    end in
  exec (setVisible PianoViewport true ;;
        (* the pattern viewport and the editors scroller are added as they are *)
        setVisible BottomMapsScroller true ;;
        setVisible ScrollerShadow true ;;
        setEnabled PatternRoll false ;;
        setScrollerMode (if showFullMiniMap then Map else Scroller) ;;
        when (negb showFullMiniMap)
             (updateAnimation scrollerMode ToggleAnimation.resetToEnd))
       (mk 0 0 children Map true PianoRoll PianoRoll (1000 / 60)
           (fun _ => ToggleAnimation.init) (fun _ => None)).

Definition canAnimate (timer : Timers) (p : t) : bool :=
  match timer with
  | rolls => ToggleAnimation.canRestart (rollsAnimation p)
  | maps => ToggleAnimation.canRestart (mapsAnimation p)
  | scrollerMode => ToggleAnimation.canRestart (scrollerModeAnimation p)
  end.

Definition isPianoRollMode (p : t) : bool :=
  ToggleAnimation.isInDefaultState (rollsAnimation p).

Definition isPatternRollMode (p : t) : bool := negb (isPianoRollMode p).

Definition isProjectMapVisible (p : t) : bool :=
  ToggleAnimation.isInDefaultState (mapsAnimation p).

Definition isEditorPanelVisible (p : t) : bool := negb (isProjectMapVisible p).

Definition isFullProjectMapMode (p : t) : bool :=
  match mapsScrollerMode p with Map => true | Scroller => false end.

Definition setAnimationsEnabled (animationsEnabled : bool) : M unit :=
  setAnimationsTimerInterval (if animationsEnabled then 1000 / 60 else 0) ;;
  setMapsScrollerAnimationsEnabled animationsEnabled.

Definition areAnimationsEnabled (p : t) : bool := 0 <? animationsTimerInterval p.

Section WithGlobals.

Variable ui : Globals.

(** The first lines of the four [updateAnimated...] functions. *)
Definition currentScrollerHeight (p : t) : Z :=
  projectMapHeight ui -
  F32.to_int (F32.mul (F32.of_int (projectMapHeight ui - rollScrollerHeight ui))
                      (ToggleAnimation.getPosition (scrollerModeAnimation p))).

(** [rollViewportHeight] for a proxy of height [h]. *)
Definition rollViewportHeight (h : Z) (p : t) : F32.float :=
  F32.of_int (h - currentScrollerHeight p + 1).

Definition viewport1Pos (h : Z) (p : t) : Z :=
  F32.to_int (F32.mul (F32.neg (ToggleAnimation.getPosition (rollsAnimation p)))
                      (rollViewportHeight h p)).

Definition viewport2Pos (h : Z) (p : t) : Z :=
  F32.to_int (F32.add (F32.mul (F32.neg (ToggleAnimation.getPosition (rollsAnimation p)))
                               (rollViewportHeight h p))
                      (rollViewportHeight h p)).

Definition updateAnimatedRollsBounds : M unit :=
  scrollerHeight <- gets currentScrollerHeight ;;
  r <- gets getLocalBounds ;;
  let rollSize := withBottom (getBottom r - scrollerHeight) r in
  pos1 <- gets (viewport1Pos (rh r)) ;;
  pos2 <- gets (viewport2Pos (rh r)) ;;
  setBounds PianoViewport (withY pos1 rollSize) ;;
  setBounds PatternViewport (withY pos2 rollSize).

Definition updateAnimatedRollsPositions : M unit :=
  h <- gets height ;;
  pos1 <- gets (viewport1Pos h) ;;
  pos2 <- gets (viewport2Pos h) ;;
  setTopLeftPosition PianoViewport 0 pos1 ;;
  setTopLeftPosition PatternViewport 0 pos2.

Definition pianoMapPos (p : t) : Z :=
  F32.to_int (F32.mul (ToggleAnimation.getPosition (mapsAnimation p))
                      (F32.of_int (currentScrollerHeight p))).

Definition levelsMapPos (p : t) : Z :=
  F32.to_int (F32.mul (ToggleAnimation.getPosition (mapsAnimation p))
                      (F32.of_int (levelsMapHeight ui - currentScrollerHeight p))).

Definition updateAnimatedMapsBounds : M unit :=
  mapHeight <- gets currentScrollerHeight ;;
  r <- gets getLocalBounds ;;
  let pianoRect := removeFromBottom mapHeight r in
  let levelsRect := removeFromBottom (levelsMapHeight ui) r in
  let levelsFullOffset := levelsMapHeight ui - mapHeight in
  pianoPos <- gets pianoMapPos ;;
  levelsPos <- gets levelsMapPos ;;
  setBounds BottomMapsScroller (translated 0 pianoPos pianoRect) ;;
  setBounds BottomEditorsScroller (translated 0 (levelsFullOffset - levelsPos) levelsRect) ;;
  editorsY <- gets (fun p => ry (bounds (child p BottomEditorsScroller))) ;;
  w <- gets width ;;
  setBounds ScrollerShadow
    (mkRectangle 0 (editorsY - scrollerShadowSize) w scrollerShadowSize).

Definition updateAnimatedMapsPositions : M unit :=
  mapHeight <- gets currentScrollerHeight ;;
  h <- gets height ;;
  let pianoMapY := h - mapHeight in
  pianoPos <- gets pianoMapPos ;;
  levelsPos <- gets levelsMapPos ;;
  setTopLeftPosition BottomMapsScroller 0 (pianoMapY + pianoPos) ;;
  setTopLeftPosition BottomEditorsScroller 0 (pianoMapY - levelsPos) ;;
  setTopLeftPosition ScrollerShadow 0 (pianoMapY - levelsPos - scrollerShadowSize).

(** [resized].  What it does to the two rolls after the bounds are updated
    (a minimal beat width, and their own [resized]) stays inside [RollBase]
    and leaves the state modelled here as it is. *)
Definition resized : M unit :=
  updateAnimatedRollsBounds ;;
  updateAnimatedMapsBounds.

(** [animation.tickAndCheckIfDone ()] on the animation of a timer. *)
Definition tickAndCheckIfDone (id : Timers) : M bool :=
  isDone <- gets (fun p => ToggleAnimation.done (animation p id)) ;;
  updateAnimation id ToggleAnimation.tick ;;
  ret isDone.

Definition timerCallback (timerId : Timers) : M unit :=
  match timerId with
  | rolls =>
      isDone <- tickAndCheckIfDone rolls ;;
      when isDone
        (stopTimer rolls ;;
         patternRollMode <- gets isPatternRollMode ;;
         (if patternRollMode
          then setVisible PianoRoll false ;; setVisible PianoViewport false
          else setVisible PatternRoll false ;; setVisible PatternViewport false) ;;
         updateAnimation rolls ToggleAnimation.finish ;;
         resized) ;;
      updateAnimatedRollsPositions
  | maps =>
      isDone <- tickAndCheckIfDone maps ;;
      when isDone
        (stopTimer maps ;;
         editorPanelVisible <- gets isEditorPanelVisible ;;
         (if editorPanelVisible
          then setVisible BottomMapsScroller false
          else setVisible BottomEditorsScroller false) ;;
         updateAnimation maps ToggleAnimation.finish) ;;
      updateAnimatedMapsPositions
  | scrollerMode =>
      isDone <- tickAndCheckIfDone scrollerMode ;;
      when isDone
        (stopTimer scrollerMode ;;
         updateAnimation scrollerMode ToggleAnimation.finish) ;;
      updateAnimatedMapsBounds ;;
      updateAnimatedRollsBounds
  end.

Definition startRollSwitchAnimation : M unit :=
  updateAnimation rolls (ToggleAnimation.start rollsAnimationStartSpeed) ;;
  patternRollMode <- gets isPatternRollMode ;;
  switchToRoll BottomMapsScroller (if patternRollMode then PatternRoll else PianoRoll) ;;
  switchToRoll BottomEditorsScroller (if patternRollMode then PatternRoll else PianoRoll) ;;
  (* Disabling the rolls prevents them from receiving keyboard events: *)
  setEnabled PatternRoll patternRollMode ;;
  setEnabled PianoRoll (negb patternRollMode) ;;
  setVisible PatternRoll true ;;
  setVisible PianoRoll true ;;
  setVisible PatternViewport true ;;
  setVisible PianoViewport true ;;
  animated <- gets areAnimationsEnabled ;;
  if animated
  then resized ;;
       interval <- gets animationsTimerInterval ;;
       startTimer rolls interval
  else updateAnimation rolls ToggleAnimation.finish ;;
       timerCallback rolls.

Definition startMapSwitchAnimation : M unit :=
  updateAnimation maps (ToggleAnimation.start mapsAnimationStartSpeed) ;;
  (* Disabling the panels prevents them from receiving keyboard events: *)
  editorPanelMode <- gets isEditorPanelVisible ;;
  setEnabled BottomEditorsScroller editorPanelMode ;;
  setEnabled BottomMapsScroller (negb editorPanelMode) ;;
  setVisible BottomEditorsScroller true ;;
  setVisible BottomMapsScroller true ;;
  resized ;;
  interval <- gets animationsTimerInterval ;;
  startTimer maps interval.

Definition startScrollerModeSwitchAnimation : M unit :=
  updateAnimation scrollerMode (ToggleAnimation.start scrollerModeAnimationStartSpeed) ;;
  fullMode <- gets isFullProjectMapMode ;;
  (if fullMode then setScrollerMode Scroller else setScrollerMode Map) ;;
  interval <- gets animationsTimerInterval ;;
  startTimer scrollerMode interval.

(** What can happen to a proxy once it is constructed: its owner
    ([SequencerLayout]) calls one of the public member functions or lays it
    out, or the message loop delivers the callback of a timer that runs. *)
Inductive Event : Type :=
| SetAnimationsEnabled (animationsEnabled : bool)
| StartRollSwitchAnimation
| StartMapSwitchAnimation
| StartScrollerModeSwitchAnimation
| SetBounds (w h : Z)
| TimerCallback (timerId : Timers).

Definition possible (e : Event) (p : t) : bool :=
  match e with
  | TimerCallback timerId => isTimerRunning timerId p
  | _ => true
  end.

Definition handle (e : Event) : M unit :=
  match e with
  | SetAnimationsEnabled b => setAnimationsEnabled b
  | StartRollSwitchAnimation => startRollSwitchAnimation
  | StartMapSwitchAnimation => startMapSwitchAnimation
  | StartScrollerModeSwitchAnimation => startScrollerModeSwitchAnimation
  | SetBounds w h => setSize w h ;; resized
  | TimerCallback timerId => timerCallback timerId
  end.

(** The states of a proxy: the one the constructor leaves, whatever the
    seven components it is given, and those an event that is possible
    leads to. *)
Inductive reachable : t -> Prop :=
| reachable_construct :
    forall roll1 roll2 viewport1 viewport2 mapsScroller editorsScroller shadow showFullMiniMap,
      reachable (construct roll1 roll2 viewport1 viewport2
                           mapsScroller editorsScroller shadow showFullMiniMap)
| reachable_handle :
    forall p e, reachable p -> possible e p = true -> reachable (exec (handle e) p).

(** The events delivered one after the other; nothing, when one of them is
    the callback of a timer that does not run. *)
Fixpoint run (events : list Event) (p : t) : option t :=
  match events with
  | [] => Some p
  | e :: rest => if possible e p then run rest (exec (handle e) p) else None
  end.

End WithGlobals.

Definition isRollSwitch (e : Event) : bool :=
  match e with
  | StartRollSwitchAnimation => true
  | _ => false
  end.

(** No timer drives the switch between the rolls. *)
Definition settled (p : t) : bool := negb (isTimerRunning rolls p).


Definition bothRollsVisible (p : t) : bool :=
  visible (child p PianoRoll) && visible (child p PatternRoll)
  && visible (child p PianoViewport) && visible (child p PatternViewport).

End RollsSwitchingProxy.

(** More of JUCE, for the [paint] functions. *)

Module JuceGraphics.

Import Juce.

(** [jmin (a, b)] at type [float]. *)
Definition jmin (a b : F32.float) : F32.float := if F32.ltb b a then b else a.

(** [Point<int>::toFloat]. *)
Definition toFloat (p : Point Z) : Point F32.float :=
  mkPoint (F32.of_int (px p)) (F32.of_int (py p)).

(** [Point::operator-]. *)
Definition pointSub (p q : Point F32.float) : Point F32.float :=
  mkPoint (F32.sub (px p) (px q)) (F32.sub (py p) (py q)).

Definition getDistanceSquaredFromOrigin (p : Point F32.float) : F32.float :=
  F32.add (F32.mul (px p) (px p)) (F32.mul (py p) (py p)).

Definition getDistanceSquaredFrom (p other : Point F32.float) : F32.float :=
  getDistanceSquaredFromOrigin (pointSub p other).

Definition getTopLeft (r : Rectangle) : Point Z := mkPoint (rx r) (ry r).

(** [Colours::aliceblue] *)
Definition aliceblue : Connector.Colour := 0xfff0f8ff.

(** The calls a [paint] function makes on its [Graphics], in order. *)
Inductive DrawCommand : Type :=
| SetColour (colour : Connector.Colour)
| SetGradientFill (colour1 : Connector.Colour) (point1 : Point F32.float)
                  (colour2 : Connector.Colour) (point2 : Point F32.float) (isRadial : bool)
| DrawLine (startX startY endX endY lineThickness : F32.float)
| DrawArrow (lineStart lineEnd : Point F32.float)
            (lineThickness arrowheadWidth arrowheadLength : F32.float)
| FillRect (x y width height : F32.float).

End JuceGraphics.

Module ConnectorPaint.

Import Juce JuceGraphics Connector.

Section WithParent.

(** The size of the parent component. *)
Variables parentWidth parentHeight : Z.

(** Where the line starts and ends, in the coordinates of the connector. *)
Definition localStart (c : MergingEventsConnector) : Point F32.float :=
  pointSub (getStartPosition parentWidth parentHeight c)
           (toFloat (getTopLeft (connectorBounds c))).

Definition localEnd (c : MergingEventsConnector) : Point F32.float :=
  pointSub (getEndPosition parentWidth parentHeight c)
           (toFloat (getTopLeft (connectorBounds c))).

(** [MergingNotesConnector::paint] *)
Definition paintNotes (c : MergingEventsConnector) : list DrawCommand :=
  let start := localStart c in
  let end_ := localEnd c in
  [ SetColour aliceblue;
    DrawLine (px start) (py start) (px end_) (py end_) (F32.of_int 1) ].

(** [MergingClipsConnector::paint] *)
Definition paintClips (c : MergingClipsConnector) : list DrawCommand :=
  let start := localStart (base c) in
  let end_ := localEnd (base c) in
  let distanceSqr := getDistanceSquaredFrom end_ start in
  let crossSize := jmin (F32.div distanceSqr (F32.literal 100 1)) (F32.literal 9 1) in
  [ SetGradientFill (startColour c) start (endColour c) end_ false;
    DrawArrow start end_ (F32.literal 1 1)
              (F32.mul crossSize (F32.literal 8 10)) (F32.mul crossSize (F32.literal 22 10));
    FillRect (F32.sub (px start) crossSize) (py start)
             (F32.mul crossSize (F32.literal 2 1)) (F32.literal 1 1);
    FillRect (px start) (F32.sub (py start) crossSize)
             (F32.literal 1 1) (F32.mul crossSize (F32.literal 2 1)) ].

End WithParent.

End ConnectorPaint.

Module SequencerLayout.

Import Juce RollsSwitchingProxy.

(** What a sidebar was last told: [setLinearMode] or [setPatternMode]. *)
Inductive SidebarMode : Type := LinearMode | PatternMode.

(** The part of the layout that its member functions steer themselves: the
    roll container, and the mode of the two sidebars.  The selection of the
    rolls and the editable scope of the project are kept by [RollBase] and
    [ProjectNode]. *)
Record t : Type := mk {
  rollContainer : RollsSwitchingProxy.t;
  rollToolsSidebar : option SidebarMode;
  rollNavSidebar : option SidebarMode
}.

(** The commands [handleCommandMessage] knows, and what it asks of the
    project in return. *)
Inductive Command : Type :=
| ImportMidi | ExportMidi | RenderToFLAC | RenderToWAV | SwitchBetweenRolls | OtherCommand.

Inductive RenderFormat : Type := FLAC | WAV.

Inductive Request : Type :=
| Import
| ExportAs
| ProceedToRenderDialog (format : RenderFormat)
| SelectFirstPianoTrack
| SelectLastShownTrack
| SelectPatternEditor
| NoRequest.

(** The constructor: the container is made of the seven components, then
    told whether the animations are enabled ([areUiAnimationsEnabled]). *)
Definition construct
  (pianoRoll patternRoll pianoViewport patternViewport
   bottomMapsScroller bottomEditorsScroller scrollerShadow : Widget)
  (showFullMiniMap hasAnimations : bool) : t :=
  mk (exec (setAnimationsEnabled hasAnimations)
           (RollsSwitchingProxy.construct pianoRoll patternRoll pianoViewport patternViewport
              bottomMapsScroller bottomEditorsScroller scrollerShadow showFullMiniMap))
     None None.

Definition getRoll (l : t) : Child :=
  if isPatternRollMode (rollContainer l) then PatternRoll else PianoRoll.

Definition handleCommandMessage (commandId : Command) (hasLastShownTrack : bool) (l : t)
  : Request :=
  match commandId with
  | ImportMidi => Import
  | ExportMidi => ExportAs
  | RenderToFLAC => ProceedToRenderDialog FLAC
  | RenderToWAV => ProceedToRenderDialog WAV
  | SwitchBetweenRolls =>
      if negb (canAnimate rolls (rollContainer l)) then NoRequest
      else if isPatternRollMode (rollContainer l)
           then (if hasLastShownTrack then SelectLastShownTrack else SelectFirstPianoTrack)
           else SelectPatternEditor
  | OtherCommand => NoRequest
  end.

Section WithGlobals.

Variable ui : Globals.

Definition showPatternEditor (l : t) : t :=
  mk (exec (patternRollMode <- gets isPatternRollMode ;;
            when (negb patternRollMode) (startRollSwitchAnimation ui))
           (rollContainer l))
     (Some PatternMode) (Some PatternMode).

Definition showLinearEditor (l : t) : t :=
  mk (exec (patternRollMode <- gets isPatternRollMode ;;
            when patternRollMode (startRollSwitchAnimation ui))
           (rollContainer l))
     (Some LinearMode) (Some LinearMode).

Definition onEditorPanelVisibilityFlagChanged (shoudShow : bool) (l : t) : t :=
  let alreadyShowing := isEditorPanelVisible (rollContainer l) in
  if (alreadyShowing && shoudShow) || (negb alreadyShowing && negb shoudShow) then l
  else mk (exec (startMapSwitchAnimation ui) (rollContainer l))
          (rollToolsSidebar l) (rollNavSidebar l).

Definition onProjectMapLargeModeFlagChanged (showFullMap : bool) (l : t) : t :=
  let alreadyShowing := isFullProjectMapMode (rollContainer l) in
  if (alreadyShowing && showFullMap) || (negb alreadyShowing && negb showFullMap) then l
  else mk (exec startScrollerModeSwitchAnimation (rollContainer l))
          (rollToolsSidebar l) (rollNavSidebar l).

Definition onUiAnimationsFlagChanged (enabled : bool) (l : t) : t :=
  mk (exec (setAnimationsEnabled enabled) (rollContainer l))
     (rollToolsSidebar l) (rollNavSidebar l).

(** What happens to a layout: its owner shows one of the editors, a flag of
    the configuration changes, the container is given a size, or one of the
    container's running timers fires. *)
Inductive Event : Type :=
| ShowPatternEditor
| ShowLinearEditor
| EditorPanelVisibilityFlagChanged (shoudShow : bool)
| ProjectMapLargeModeFlagChanged (showFullMap : bool)
| UiAnimationsFlagChanged (enabled : bool)
| ContainerResized (w h : Z)
| ContainerTimerCallback (timerId : Timers).

Definition possible (e : Event) (l : t) : bool :=
  match e with
  | ContainerTimerCallback timerId => isTimerRunning timerId (rollContainer l)
  | _ => true
  end.

Definition onContainer (m : M unit) (l : t) : t :=
  mk (exec m (rollContainer l)) (rollToolsSidebar l) (rollNavSidebar l).

Definition handle (e : Event) (l : t) : t :=
  match e with
  | ShowPatternEditor => showPatternEditor l
  | ShowLinearEditor => showLinearEditor l
  | EditorPanelVisibilityFlagChanged shoudShow => onEditorPanelVisibilityFlagChanged shoudShow l
  | ProjectMapLargeModeFlagChanged showFullMap => onProjectMapLargeModeFlagChanged showFullMap l
  | UiAnimationsFlagChanged enabled => onUiAnimationsFlagChanged enabled l
  | ContainerResized w h => onContainer (setSize w h ;; resized ui) l
  | ContainerTimerCallback timerId => onContainer (timerCallback ui timerId) l
  end.

Inductive reachable : t -> Prop :=
| reachable_construct :
    forall roll1 roll2 viewport1 viewport2 mapsScroller editorsScroller shadow
           showFullMiniMap hasAnimations,
      reachable (construct roll1 roll2 viewport1 viewport2
                           mapsScroller editorsScroller shadow showFullMiniMap hasAnimations)
| reachable_handle :
    forall l e, reachable l -> possible e l = true -> reachable (handle e l).

(** The events delivered one after the other; nothing, when one of them is
    the callback of a timer that does not run. *)
Fixpoint run (events : list Event) (l : t) : option t :=
  match events with
  | [] => Some l
  | e :: rest => if possible e l then run rest (handle e l) else None
  end.

End WithGlobals.

(** The mode a sidebar is in agrees with the roll on screen. *)
Definition sidebarAgrees (l : t) (sidebar : option SidebarMode) : Prop :=
  match sidebar with
  | None => True
  | Some PatternMode => isPatternRollMode (rollContainer l) = true
  | Some LinearMode => isPianoRollMode (rollContainer l) = true
  end.

End SequencerLayout.

(** ** Rounding, counted in units of the smallest number *)

(** What the proofs below say the operations of [SpecFloat] compute: the
    exact result, rounded to the nearest number of the format, the even one
    when two are as near. *)

Module Rounding.

Definition b2z (b : bool) : Z := if b then 1 else 0.

(** [R] is what [k] calls of [shr_1] leave of the mantissa [m0]. *)
Definition shr_inv (m0 k : Z) (R : shr_record) : Prop :=
  0 <= shr_m R /\
  exists t, 2 * m0 = (2 * shr_m R + b2z (shr_r R)) * 2 ^ k + t
            /\ 0 <= t < 2 ^ k /\ (shr_s R = false <-> t = 0).

(** [m / 2^k], rounded to the nearest integer, to the even one on a tie. *)
Definition rne (m k : Z) : Z :=
  let q := m / 2 ^ k in
  match 2 * (m mod 2 ^ k) ?= 2 ^ k with
  | Lt => q
  | Gt => q + 1
  | Eq => if Z.even q then q else q + 1
  end.

Section Format.

Variables prec emax : Z.

(** The last step of [binary_round_aux]. *)
Definition finish_round (s : bool) (q t : Z) : spec_float :=
  match q with
  | Z0 => S754_zero s
  | Zpos p => if t <=? emax - prec then S754_finite s p t else S754_infinity s
  | Zneg _ => S754_nan
  end.

(** The value of a finite number, counted in units of [2^emin]. *)
Definition B2Z (x : spec_float) : Z :=
  match x with
  | S754_finite s m e => cond_Zopp s (Zpos m * 2 ^ (e - SpecFloat.emin prec emax))
  | _ => 0
  end.

(** Zero or finite, and well formed. *)
Definition fin (x : spec_float) : bool :=
  match x with
  | S754_zero _ => true
  | S754_finite _ m e => bounded prec emax m e
  | _ => false
  end.

(** [n * 2^(emin - c)] rounded to the format, in units of [2^emin]. *)
Definition RZ (c n : Z) : Z :=
  let k := Z.max (Zdigits2 n - prec) c in rne n k * 2 ^ (k - c).

Definition rndZ (c N : Z) : Z := Z.sgn N * RZ c (Z.abs N).

End Format.

End Rounding.

(** The same for binary32: the unit is [2^-149], and [U] is the value of [1.f]. *)
Definition val : F32.float -> Z := Rounding.B2Z F32.prec F32.emax.
Definition finite : F32.float -> bool := Rounding.fin F32.prec F32.emax.
Definition rnd : Z -> Z -> Z := Rounding.rndZ F32.prec.
Definition U : Z := 2 ^ 149.

(** ** What the properties are stated with *)

(** A well formed number of [0, 1]. *)
Definition inUnitRange (x : F32.float) : bool :=
  valid_binary F32.prec F32.emax x && F32.leb F32.zero x && F32.leb x F32.one.

(** A well formed number of the open interval (0, 1). *)
Definition validSpeed (s : F32.float) : bool :=
  valid_binary F32.prec F32.emax s && F32.ltb F32.zero s && F32.ltb s F32.one.

(** The two values the class ever gives to [direction]. *)
Definition unitDirection (d : F32.float) : Prop := d = F32.one \/ d = F32.minus_one.

(** An animation between two calls of its owner: the position is in [0, 1],
    the speed is at most [S0], and the deceleration is at most 1. *)
Record running (S0 : Z) (a : ToggleAnimation.t) : Prop := mkRunning {
  run_pos_fin : finite (ToggleAnimation.position a) = true;
  run_pos : 0 <= val (ToggleAnimation.position a) <= U;
  run_dir : unitDirection (ToggleAnimation.direction a);
  run_speed_fin : finite (ToggleAnimation.speed a) = true;
  run_speed : 0 <= val (ToggleAnimation.speed a) <= S0;
  run_dec_fin : finite (ToggleAnimation.deceleration a) = true;
  run_dec : 0 <= val (ToggleAnimation.deceleration a) <= U
}.

(** The deceleration of the slowest start that survives a first tick. *)
Definition maxDeceleration : F32.float :=
  Eval vm_compute in F32.sub F32.one ToggleAnimation.c0_001.

(** The pixel a relative anchor falls on in a parent of the given size. *)
Definition anchorPixel (parentWidth parentHeight : Z) (relative : Juce.Point F32.float)
  : Juce.Point Z :=
  Juce.mkPoint (F32.to_int (F32.mul (F32.of_int parentWidth) (Juce.px relative)))
               (F32.to_int (F32.mul (F32.of_int parentHeight) (Juce.py relative))).

(** Two pixel coordinates that [updateBounds] can make one side of a
    rectangle of without overflow: with 10 more on each side their span
    fits in an [int], and so does its length. *)
Definition spanFits (u v : Z) : bool :=
  (F32.INT_MIN + 10 <=? Z.min u v) && (Z.max u v <=? F32.INT_MAX - 10)
  && (Z.abs (u - v) + 20 <=? F32.INT_MAX).

Definition boxFits (a b : Juce.Point Z) : bool :=
  spanFits (Juce.px a) (Juce.px b) && spanFits (Juce.py a) (Juce.py b).

(** Heights for the examples. *)
Definition exampleGlobals : RollsSwitchingProxy.Globals := RollsSwitchingProxy.mkGlobals 72 26 128.

(** A proxy fresh from its constructor, laid out at 800 x 600. *)
Definition exampleProxy : RollsSwitchingProxy.t :=
  RollsSwitchingProxy.exec
    (RollsSwitchingProxy.handle exampleGlobals (RollsSwitchingProxy.SetBounds 800 600))
    (RollsSwitchingProxy.construct Juce.newWidget Juce.newWidget Juce.newWidget Juce.newWidget
                                   Juce.newWidget Juce.newWidget Juce.newWidget false).

(** The invariants of the proxy: while the timer of the rolls runs, both
    rolls and both viewports are visible; *)
Definition rollsInvariant (p : RollsSwitchingProxy.t) : Prop :=
  RollsSwitchingProxy.isTimerRunning RollsSwitchingProxy.rolls p = true ->
  RollsSwitchingProxy.bothRollsVisible p = true.

(** the piano roll is enabled exactly in the piano mode.  The constructor
    leaves the piano roll as it arrives, so that this holds from the
    constructor on when the piano roll arrives enabled, and from the first
    switch between the rolls on in any case; *)
Definition pianoRollFollowsMode (p : RollsSwitchingProxy.t) : Prop :=
  Juce.enabled (RollsSwitchingProxy.child p RollsSwitchingProxy.PianoRoll)
  = RollsSwitchingProxy.isPianoRollMode p.

(** the three animations stay in their range. *)
Definition animationsInvariant (p : RollsSwitchingProxy.t) : Prop :=
  forall id, running U (RollsSwitchingProxy.animation p id).

(** ** What the further properties are stated with *)

Section FurtherDefinitions.

Import ToggleAnimation Juce RollsSwitchingProxy.

(** At one of its two ends: at 0 in the default state, at 1 otherwise. *)
Definition atRest (a : ToggleAnimation.t) : bool :=
  if ToggleAnimation.isInDefaultState a
  then F32.eqb (ToggleAnimation.position a) F32.zero
  else F32.eqb (ToggleAnimation.position a) F32.one.

(** The speed each animation is started with. *)
Definition startSpeed (id : Timers) : F32.float :=
  match id with
  | rolls => rollsAnimationStartSpeed
  | maps => mapsAnimationStartSpeed
  | scrollerMode => scrollerModeAnimationStartSpeed
  end.

(** [n] callbacks of the same timer in a row. *)
Fixpoint callbacks (ui : Globals) (id : Timers) (n : nat) (p : RollsSwitchingProxy.t)
  : RollsSwitchingProxy.t :=
  match n with
  | O => p
  | S k => callbacks ui id k (exec (timerCallback ui id) p)
  end.

(** The roll of the current mode. *)
Definition currentRoll (p : RollsSwitchingProxy.t) : Child :=
  if isPatternRollMode p then PatternRoll else PianoRoll.

(** The invariants of the reachable states: an animation whose timer does
    not run is at rest; *)
Definition restInvariant (p : RollsSwitchingProxy.t) : Prop :=
  forall id, isTimerRunning id p = false -> atRest (animation p id) = true.

(** an animation whose timer runs decelerates as [start] made it; *)
Definition startedInvariant (p : RollsSwitchingProxy.t) : Prop :=
  forall id, isTimerRunning id p = true ->
             deceleration (animation p id) = F32.sub F32.one (startSpeed id).

(** the mode of the maps scroller and the roll the two scrollers are
    switched to are those of the animations, the pattern roll is enabled
    exactly in the pattern mode, and the piano roll in the piano mode only; *)
Definition modeInvariant (p : RollsSwitchingProxy.t) : Prop :=
  isFullProjectMapMode p = isInDefaultState (scrollerModeAnimation p)
  /\ mapsScrollerRoll p = currentRoll p
  /\ editorsScrollerRoll p = currentRoll p
  /\ (enabled (child p PianoRoll) = true -> isPianoRollMode p = true)
  /\ enabled (child p PatternRoll) = isPatternRollMode p.

(** both bottom panels are visible while the maps timer runs, and the maps
    scroller is visible when the project map is the panel shown. *)
Definition panelsInvariant (p : RollsSwitchingProxy.t) : Prop :=
  (isTimerRunning maps p = true ->
   visible (child p BottomMapsScroller) = true /\ visible (child p BottomEditorsScroller) = true)
  /\ (isTimerRunning maps p = false ->
      visible (child p BottomMapsScroller) = isProjectMapVisible p).

(** Heights ordered as the panels need them, and small enough for their
    conversion to [float] to be exact. *)
Definition validHeights (ui : Globals) : bool :=
  (0 <=? rollScrollerHeight ui) && (rollScrollerHeight ui <=? projectMapHeight ui)
  && (projectMapHeight ui <=? levelsMapHeight ui) && (levelsMapHeight ui <=? 2 ^ 24).

(** The shadow lies on top of the editors scroller. *)
Definition shadowAboveEditors (p : RollsSwitchingProxy.t) : Prop :=
  rh (bounds (child p ScrollerShadow)) = scrollerShadowSize
  /\ getBottom (bounds (child p ScrollerShadow)) = ry (bounds (child p BottomEditorsScroller)).

(** A member function relates the state it is called in to the state it
    leaves by [R], whatever the state. *)
Definition preserves {A : Type} (R : RollsSwitchingProxy.t -> RollsSwitchingProxy.t -> Prop)
  (m : M A) : Prop :=
  forall p, R p (exec m p).

(** Nothing changed but the geometry and what is shown: the flags that tell
    which roll and panel take the input, the state of the two scrollers, the
    interval and the size are the same, the animations head the same way, and
    nothing hidden became visible. *)
Record sameMode (p q : RollsSwitchingProxy.t) : Prop := mkSameMode {
  same_enabled : forall c, enabled (child q c) = enabled (child p c);
  same_hidden : forall c, visible (child q c) = true -> visible (child p c) = true;
  same_direction : forall id, direction (animation q id) = direction (animation p id);
  same_scrollerMode : mapsScrollerMode q = mapsScrollerMode p;
  same_scrollerFlag : mapsScrollerAnimationsEnabled q = mapsScrollerAnimationsEnabled p;
  same_mapsRoll : mapsScrollerRoll q = mapsScrollerRoll p;
  same_editorsRoll : editorsScrollerRoll q = editorsScrollerRoll p;
  same_interval : animationsTimerInterval q = animationsTimerInterval p;
  same_width : width q = width p;
  same_height : height q = height p
}.

(** Nothing changed but the bounds of the children. *)
Record sameButBounds (p q : RollsSwitchingProxy.t) : Prop := mkSameButBounds {
  sbb_mode : sameMode p q;
  sbb_visible : forall c, visible (child q c) = visible (child p c);
  sbb_animation : forall id, animation q id = animation p id;
  sbb_timer : forall id, timer q id = timer p id
}.

(** A member function leaves what [F] reads of the state as it is. *)
Definition keeps {X : Type} (F : RollsSwitchingProxy.t -> X)
  (p q : RollsSwitchingProxy.t) : Prop :=
  F q = F p.

(** A member function that finds the shadow on top of the editors scroller
    leaves it there. *)
Definition keepsShadow (p q : RollsSwitchingProxy.t) : Prop :=
  shadowAboveEditors p -> shadowAboveEditors q.

(** The way the rolls animation heads. *)
Definition rollsDirection (p : RollsSwitchingProxy.t) : F32.float :=
  direction (animation p rolls).

(** What the invariants read of the state. *)
Definition timerReading (id : Timers) (p : RollsSwitchingProxy.t)
  : option Z * ToggleAnimation.t :=
  (timer p id, animation p id).

Definition rollsReading (p : RollsSwitchingProxy.t) : Child * Child * bool * bool * F32.float :=
  (mapsScrollerRoll p, editorsScrollerRoll p,
   enabled (child p PianoRoll), enabled (child p PatternRoll), direction (animation p rolls)).

Definition scrollerReading (p : RollsSwitchingProxy.t) : ScrollerMode * F32.float :=
  (mapsScrollerMode p, direction (animation p scrollerMode)).

Definition panelsReading (p : RollsSwitchingProxy.t) : option Z * bool * bool * F32.float :=
  (timer p maps, visible (child p BottomMapsScroller), visible (child p BottomEditorsScroller),
   direction (animation p maps)).

(** The timer an event starts or drives, if any. *)
Definition owns (e : Event) (id : Timers) : bool :=
  match e with
  | StartRollSwitchAnimation => Timers_eqb rolls id
  | StartMapSwitchAnimation => Timers_eqb maps id
  | StartScrollerModeSwitchAnimation => Timers_eqb scrollerMode id
  | TimerCallback timerId => Timers_eqb timerId id
  | _ => false
  end.

End FurtherDefinitions.

(** A layout fresh from its constructor, animations enabled, the project map
    in its small mode. *)
Definition exampleLayout : SequencerLayout.t :=
  SequencerLayout.construct Juce.newWidget Juce.newWidget Juce.newWidget Juce.newWidget
                            Juce.newWidget Juce.newWidget Juce.newWidget false true.

(** A coordinate a pixel can have: well formed and at most [2^22] away from 0. *)
Definition pixelCoordinate (v : F32.float) : bool :=
  valid_binary F32.prec F32.emax v
  && F32.leb (F32.of_int (- 2 ^ 22)) v && F32.leb v (F32.of_int (2 ^ 22)).

Definition pixelPoint (p : Juce.Point F32.float) : bool :=
  pixelCoordinate (Juce.px p) && pixelCoordinate (Juce.py p).

(** Inside of a component of the given size, 9 or more away from its edges. *)
Definition wellInside (size : Juce.Rectangle) (p : Juce.Point F32.float) : bool :=
  F32.leb (F32.of_int 9) (Juce.px p) && F32.leb (Juce.px p) (F32.of_int (Juce.rw size - 9))
  && F32.leb (F32.of_int 9) (Juce.py p) && F32.leb (Juce.py p) (F32.of_int (Juce.rh size - 9)).

(** A connector dragged from (0.25, 0.5) to (0.75, 0.25) of its parent. *)
Definition exampleConnector : Connector.MergingEventsConnector :=
  Connector.setEndPosition 800 600
    (Juce.mkPoint (F32.literal 3 4) (F32.literal 1 4))
    (Connector.construct None (Juce.mkPoint (F32.literal 1 4) (F32.literal 1 2))).

(** * Proofs *)

(** ** Binary digits and rounding of integers *)

Abbreviation rne := Rounding.rne.
Lemma digits2_pos_size (m : positive) : digits2_pos m = Pos.size m.
Proof. induction m; simpl; congruence. Qed.

Lemma Zdigits2_log2 (n : Z) : 0 < n -> Zdigits2 n = Z.log2 n + 1.
Proof.
  destruct n as [|p|p]; try lia. intros _.
  destruct p as [p|p|]; simpl; rewrite ?digits2_pos_size; lia.
Qed.

Lemma Zdigits2_bounds (n : Z) : 0 < n -> 2 ^ (Zdigits2 n - 1) <= n < 2 ^ Zdigits2 n.
Proof.
  intros H. rewrite Zdigits2_log2 by assumption.
  replace (Z.log2 n + 1 - 1) with (Z.log2 n) by lia.
  replace (Z.log2 n + 1) with (Z.succ (Z.log2 n)) by lia.
  apply Z.log2_spec. assumption.
Qed.

Lemma Zdigits2_unique (n a : Z) : 2 ^ (a - 1) <= n < 2 ^ a -> 0 < n -> Zdigits2 n = a.
Proof.
  intros H Hn. rewrite Zdigits2_log2 by assumption.
  assert (Z.log2 n = a - 1); [|lia].
  apply Z.log2_unique.
  - destruct (Z.le_gt_cases 0 (a - 1)) as [?|Hneg]; [assumption|].
    exfalso. assert (a <= 0) by lia.
    destruct (Z.eq_dec a 0) as [->|]; [simpl in H; lia|].
    rewrite (Z.pow_neg_r 2 a) in H by lia. lia.
  - replace (Z.succ (a - 1)) with a by lia. assumption.
Qed.

Lemma Zdigits2_pos (n : Z) : 0 < n -> 0 < Zdigits2 n.
Proof. intros H. rewrite Zdigits2_log2 by assumption. pose proof (Z.log2_nonneg n). lia. Qed.

Lemma Zdigits2_mul_pow2 (n j : Z) : 0 < n -> 0 <= j -> Zdigits2 (n * 2 ^ j) = Zdigits2 n + j.
Proof.
  intros Hn Hj. rewrite !Zdigits2_log2.
  - rewrite Z.log2_mul_pow2 by lia. lia.
  - assumption.
  - apply Z.mul_pos_pos; [assumption | apply Z.pow_pos_nonneg; lia].
Qed.

Lemma Zdigits2_le (a b : Z) : 0 < a -> a <= b -> Zdigits2 a <= Zdigits2 b.
Proof.
  intros Ha Hab. rewrite !Zdigits2_log2 by lia.
  pose proof (Z.log2_le_mono a b Hab). lia.
Qed.

Lemma Zdigits2_lt_pow2 (n a : Z) : 0 < n -> 0 <= a -> n < 2 ^ a -> Zdigits2 n <= a.
Proof.
  intros Hn Ha H. rewrite Zdigits2_log2 by assumption.
  assert (Z.log2 n < a); [|lia]. apply Z.log2_lt_pow2; assumption.
Qed.

Lemma Zdigits2_ge_pow2 (n a : Z) : 0 <= a -> 2 ^ a <= n -> a + 1 <= Zdigits2 n.
Proof.
  intros Ha H. assert (0 < n) by (pose proof (Z.pow_pos_nonneg 2 a); lia).
  rewrite Zdigits2_log2 by assumption.
  assert (a <= Z.log2 n); [|lia]. apply Z.log2_le_pow2; assumption.
Qed.

Lemma rne_bounds (m k : Z) : 0 <= k -> m / 2 ^ k <= rne m k <= m / 2 ^ k + 1.
Proof. intros _. unfold Rounding.rne. destruct (_ ?= _); [destruct (Z.even _)|..]; lia. Qed.

Lemma rne_exact (q k : Z) : 0 <= k -> rne (q * 2 ^ k) k = q.
Proof.
  intros Hk. unfold Rounding.rne. assert (0 < 2 ^ k) by (apply Z.pow_pos_nonneg; lia).
  rewrite Z.mod_mul, Z.div_mul by lia.
  destruct (Z.compare_spec (2 * 0) (2 ^ k)); lia.
Qed.

Lemma rne_0 (m : Z) : rne m 0 = m.
Proof. rewrite <- (Z.mul_1_r m) at 1. change 1 with (2 ^ 0). apply rne_exact. lia. Qed.

Lemma rne_mono (m m' k : Z) : 0 <= k -> m <= m' -> rne m k <= rne m' k.
Proof.
  intros Hk Hm. assert (Hp : 0 < 2 ^ k) by (apply Z.pow_pos_nonneg; lia).
  pose proof (Z.div_le_mono m m' (2 ^ k) Hp Hm) as Hq.
  destruct (Z.eq_dec (m / 2 ^ k) (m' / 2 ^ k)) as [E|NE].
  - unfold Rounding.rne. rewrite <- E.
    pose proof (Z.div_mod m (2 ^ k) ltac:(lia)) as D.
    pose proof (Z.div_mod m' (2 ^ k) ltac:(lia)) as D'.
    rewrite <- E in D'.
    assert (m mod 2 ^ k <= m' mod 2 ^ k) by lia.
    destruct (Z.compare_spec (2 * (m mod 2 ^ k)) (2 ^ k));
      destruct (Z.compare_spec (2 * (m' mod 2 ^ k)) (2 ^ k));
      destruct (Z.even (m / 2 ^ k)); lia.
  - pose proof (rne_bounds m k Hk). pose proof (rne_bounds m' k Hk). lia.
Qed.

Lemma rne_shift (m k j : Z) : 0 <= k -> 0 <= j -> rne (m * 2 ^ j) (k + j) = rne m k.
Proof.
  intros Hk Hj. unfold Rounding.rne.
  assert (0 < 2 ^ k) by (apply Z.pow_pos_nonneg; lia).
  assert (0 < 2 ^ j) by (apply Z.pow_pos_nonneg; lia).
  rewrite Z.pow_add_r by lia.
  rewrite Z.div_mul_cancel_r by lia.
  rewrite Z.mul_mod_distr_r by lia.
  replace (2 * (m mod 2 ^ k * 2 ^ j)) with (2 * (m mod 2 ^ k) * 2 ^ j) by ring.
  rewrite <- (Zmult_compare_compat_r (2 * (m mod 2 ^ k)) (2 ^ k) (2 ^ j)) by lia. reflexivity.
Qed.

Lemma rne_nonneg (m k : Z) : 0 <= k -> 0 <= m -> 0 <= rne m k.
Proof.
  intros Hk Hm. pose proof (rne_bounds m k Hk).
  assert (0 <= m / 2 ^ k) by (apply Z.div_pos; [lia | apply Z.pow_pos_nonneg; lia]). lia.
Qed.

Lemma rne_le_pow2 (m k a : Z) : 0 <= k -> k <= a -> m <= 2 ^ a -> rne m k <= 2 ^ (a - k).
Proof.
  intros Hk Ha Hm. rewrite <- (rne_exact (2 ^ (a - k)) k Hk).
  apply rne_mono; [assumption|]. rewrite <- Z.pow_add_r by lia.
  replace (a - k + k) with a by lia. assumption.
Qed.

Lemma rne_ge_pow2 (m k a : Z) : 0 <= k -> k <= a -> 2 ^ a <= m -> 2 ^ (a - k) <= rne m k.
Proof.
  intros Hk Ha Hm. rewrite <- (rne_exact (2 ^ (a - k)) k Hk).
  apply rne_mono; [assumption|]. rewrite <- Z.pow_add_r by lia.
  replace (a - k + k) with a by lia. assumption.
Qed.

(** ** The shifts of [SpecFloat], in closed form *)

Abbreviation b2z := Rounding.b2z.
Abbreviation shr_inv := Rounding.shr_inv.
Lemma shr_inv_init (m0 : Z) : 0 <= m0 -> shr_inv m0 0 (Build_shr_record m0 false false).
Proof.
  intros H. split; [assumption|]. exists 0. simpl. repeat split; lia.
Qed.

Lemma shr_1_inv (m0 k : Z) (R : shr_record) :
  0 <= k -> shr_inv m0 k R -> shr_inv m0 (k + 1) (shr_1 R).
Proof.
  intros Hk [Hq [t [E [Ht Hs]]]].
  assert (P : 2 ^ (k + 1) = 2 * 2 ^ k) by (rewrite Z.pow_add_r by lia; lia).
  destruct R as [q r s]. cbn [shr_m shr_r shr_s] in *.
  assert (G : forall q' b, q = 2 * q' + b2z b -> 0 <= q' ->
              shr_inv m0 (k + 1) (Build_shr_record q' b (r || s))).
  { intros q' b Eq Hq'. split; [assumption|].
    exists (b2z r * 2 ^ k + t). cbn [shr_m shr_r shr_s]. rewrite P. repeat split.
    - rewrite E, Eq. ring.
    - destruct r; cbn [Rounding.b2z]; lia.
    - destruct r; cbn [Rounding.b2z]; lia.
    - intros H. apply orb_false_iff in H. destruct H as [-> H]. apply Hs in H. cbn [Rounding.b2z]. lia.
    - intros H. destruct r; cbn [Rounding.b2z orb] in *; [lia|]. apply Hs. lia. }
  destruct q as [|p|p]; [| |lia].
  - apply (G 0 false); cbn [Rounding.b2z]; lia.
  - destruct p as [p|p|].
    + apply (G (Zpos p) true); cbn [Rounding.b2z]; lia.
    + apply (G (Zpos p) false); cbn [Rounding.b2z]; lia.
    + apply (G 0 true); cbn [Rounding.b2z]; lia.
Qed.

Lemma iter_pos_shr_inv (m0 : Z) (n : positive) :
  forall k R, 0 <= k -> shr_inv m0 k R -> shr_inv m0 (k + Zpos n) (iter_pos shr_1 n R).
Proof.
  induction n as [n IH|n IH|]; intros k R Hk H; simpl.
  - replace (k + Zpos n~1) with (k + 1 + Zpos n + Zpos n) by lia.
    apply IH; [lia|]. apply IH; [lia|]. apply shr_1_inv; assumption.
  - replace (k + Zpos n~0) with (k + Zpos n + Zpos n) by lia.
    apply IH; [lia|]. apply IH; assumption.
  - apply shr_1_inv; assumption.
Qed.

Lemma shr_inv_round (m0 k : Z) (R : shr_record) :
  0 <= k -> shr_inv m0 k R ->
  round_nearest_even (shr_m R) (loc_of_shr_record R) = rne m0 k.
Proof.
  intros Hk [Hq [t [E [Ht Hs]]]]. destruct R as [q r s].
  cbn [shr_m shr_r shr_s loc_of_shr_record] in *.
  assert (Hp : 0 < 2 ^ k) by (apply Z.pow_pos_nonneg; lia).
  assert (D : m0 / 2 ^ k = q).
  { symmetry. apply (Z.div_unique_pos m0 (2 ^ k) q (m0 - q * 2 ^ k)); destruct r; cbn [Rounding.b2z] in *; lia. }
  assert (Md : 2 * (m0 mod 2 ^ k) = b2z r * 2 ^ k + t).
  { rewrite Z.mod_eq by lia. rewrite D. lia. }
  unfold rne. rewrite D, Md.
  destruct r, s; cbn [Rounding.b2z round_nearest_even].
  - assert (t <> 0) by (intros ->; destruct Hs as [_ Hs]; specialize (Hs eq_refl); discriminate).
    destruct (Z.compare_spec (1 * 2 ^ k + t) (2 ^ k)); lia.
  - assert (t = 0) by (apply Hs; reflexivity). subst t.
    destruct (Z.compare_spec (1 * 2 ^ k + 0) (2 ^ k)); lia || reflexivity.
  - destruct (Z.compare_spec (0 * 2 ^ k + t) (2 ^ k)); lia.
  - destruct (Z.compare_spec (0 * 2 ^ k + t) (2 ^ k)); lia.
Qed.

(** shr, in closed form *)
Lemma shr_exact (m e n : Z) :
  0 <= m ->
  let '(R, e') := shr (Build_shr_record m false false) e n in
  e' = e + Z.max 0 n /\
  round_nearest_even (shr_m R) (loc_of_shr_record R) = rne m (Z.max 0 n).
Proof.
  intros Hm. unfold shr. destruct n as [|p|p].
  - simpl. split; [lia|]. rewrite rne_0. reflexivity.
  - split; [lia|]. rewrite Z.max_r by lia.
    apply shr_inv_round; [lia|].
    apply (iter_pos_shr_inv m p 0 _ ltac:(lia) (shr_inv_init m Hm)).
  - simpl. split; [lia|]. rewrite rne_0. reflexivity.
Qed.

Lemma shr_exact_m (m e n : Z) :
  0 <= m ->
  shr_m (fst (shr (Build_shr_record m false false) e n)) = m / 2 ^ (Z.max 0 n).
Proof.
  intros Hm. unfold shr. destruct n as [|p|p]; simpl; rewrite ?Z.div_1_r; try reflexivity.
  pose proof (iter_pos_shr_inv m p 0 _ ltac:(lia) (shr_inv_init m Hm)) as [Hq [t [E [Ht Hs]]]].
  rewrite Z.add_0_l in E, Ht. set (R := iter_pos shr_1 p _) in *.
  assert (Hp : 0 < 2 ^ Zpos p) by (apply Z.pow_pos_nonneg; lia).
  apply (Z.div_unique_pos m (2 ^ Zpos p) (shr_m R) (m - shr_m R * 2 ^ Zpos p));
    destruct (shr_r R); cbn [Rounding.b2z] in *; lia.
Qed.

(** ** [binary_round] in closed form *)
Section RoundClosed.

Variables prec emax : Z.
Hypothesis prec_pos : 0 < prec.
Hypothesis prec_lt_emax : prec < emax.

Abbreviation emin := (SpecFloat.emin prec emax).
Abbreviation fexp := (SpecFloat.fexp prec emax).
Abbreviation finish_round := (Rounding.finish_round prec emax).

Lemma emin_eq : emin = 3 - emax - prec.
Proof. reflexivity. Qed.

Lemma fexp_eq (x : Z) : fexp x = Z.max (x - prec) emin.
Proof. reflexivity. Qed.

Lemma rne_small (m k : Z) : 0 <= m -> 0 <= k -> 2 * m < 2 ^ k -> rne m k = 0.
Proof.
  intros Hm Hk H. unfold rne.
  assert (m < 2 ^ k) by lia.
  rewrite Z.div_small, Z.mod_small by lia.
  destruct (Z.compare_spec (2 * m) (2 ^ k)); lia.
Qed.

(** The rounded mantissa: bounds. *)
Lemma rounded_mantissa_bounds (m e : Z) :
  0 < m ->
  let t := fexp (Zdigits2 m + e) in
  let q := rne m (t - e) in
  e <= t ->
  0 <= q <= 2 ^ prec /\ (emin < t -> 2 ^ (prec - 1) <= q).
Proof.
  intros Hm t q Het.
  pose proof (Zdigits2_bounds m Hm) as [Hlo Hhi].
  pose proof (Zdigits2_pos m Hm) as Hd.
  assert (Ht : t = Z.max (Zdigits2 m + e - prec) emin) by reflexivity.
  set (d := Zdigits2 m) in *. set (k := t - e).
  assert (Hk : 0 <= k) by (unfold k; lia).
  split; [split|].
  - apply rne_nonneg; lia.
  - destruct (Z.le_gt_cases k d) as [Hkd|Hkd].
    + transitivity (2 ^ (d - k)).
      * apply rne_le_pow2; lia.
      * apply Z.pow_le_mono_r; unfold k; lia.
    + assert (Hs : 2 * m < 2 ^ k).
      { assert (2 ^ d <= 2 ^ (k - 1)) by (apply Z.pow_le_mono_r; lia).
        replace k with (k - 1 + 1) at 1 by lia. rewrite Z.pow_add_r by lia. lia. }
      unfold q. fold k. rewrite (rne_small m k) by lia. apply Z.pow_nonneg; lia.
  - intros Hmin. assert (k = d - prec) by (unfold k; lia).
    replace (prec - 1) with (d - 1 - k) by lia.
    apply rne_ge_pow2; lia.
Qed.

Lemma Zdigits2_pow2 (a : Z) : 0 <= a -> Zdigits2 (2 ^ a) = a + 1.
Proof.
  intros Ha. apply Zdigits2_unique.
  - replace (a + 1 - 1) with a by lia. split; [lia|]. apply Z.pow_lt_mono_r; lia.
  - apply Z.pow_pos_nonneg; lia.
Qed.

Lemma Zdigits2_le_prec_or (q : Z) :
  0 <= q <= 2 ^ prec -> Zdigits2 q <= prec \/ q = 2 ^ prec.
Proof.
  intros [H0 H1]. destruct (Z.eq_dec q (2 ^ prec)) as [|NE]; [right; assumption|left].
  destruct (Z.eq_dec q 0) as [->|]; [simpl; lia|].
  apply Zdigits2_lt_pow2; lia.
Qed.

(** [binary_round_aux] on an exact input that needs no alignment to the left. *)
Lemma binary_round_aux_closed (s : bool) (m e : Z) :
  0 < m ->
  let t := fexp (Zdigits2 m + e) in
  let q := rne m (t - e) in
  let c := if Zdigits2 q <=? prec then 0 else 1 in
  e <= t ->
  binary_round_aux prec emax s m e loc_Exact = finish_round s (q / 2 ^ c) (t + c).
Proof.
  intros Hm t q c Het.
  pose proof (rounded_mantissa_bounds m e Hm Het) as [[Hq0 Hq1] Hq2].
  fold t in Hq2. fold t q in Hq0, Hq1.
  assert (Ht : emin <= t) by (unfold t; rewrite fexp_eq; lia).
  unfold binary_round_aux, shr_fexp. fold t.
  cbn [shr_record_of_loc].
  pose proof (shr_exact m e (t - e) ltac:(lia)) as H1.
  destruct (shr (Build_shr_record m false false) e (t - e)) as [R1 e1].
  destruct H1 as [He1 Hr1]. rewrite Z.max_r in He1, Hr1 by lia.
  rewrite Hr1. fold q. replace e1 with t by lia.
  pose proof (shr_exact_m q t (fexp (Zdigits2 q + t) - t) Hq0) as H2.
  pose proof (shr_exact q t (fexp (Zdigits2 q + t) - t) Hq0) as H3.
  destruct (shr (Build_shr_record q false false) t (fexp (Zdigits2 q + t) - t)) as [R2 e2].
  destruct H3 as [He2 _]. cbn [fst] in H2.
  assert (Hc : Z.max 0 (fexp (Zdigits2 q + t) - t) = c).
  { unfold c. rewrite fexp_eq.
    destruct (Zdigits2_le_prec_or q (conj Hq0 Hq1)) as [Hd|Hd].
    - rewrite (proj2 (Z.leb_le _ _) Hd). lia.
    - rewrite Hd, Zdigits2_pow2 by lia.
      destruct (Z.leb_spec (prec + 1) prec); lia. }
  rewrite Hc in H2, He2. rewrite H2, He2. reflexivity.
Qed.

Lemma shift_pos_pow2 (m d : positive) : Zpos (Pos.iter xO m d) = Zpos m * 2 ^ Zpos d.
Proof.
  change (Pos.iter xO m d) with (shift_pos d m).
  rewrite shift_pos_correct. rewrite Zpower_pos_powerRZ || idtac.
  change (Zpower_pos 2 d) with (2 ^ Zpos d). ring.
Qed.

(** [binary_round] in closed form. *)
Lemma binary_round_closed (s : bool) (m : positive) (e : Z) :
  let t := fexp (Zdigits2 (Zpos m) + e) in
  let q := if t <? e then Zpos m * 2 ^ (e - t) else rne (Zpos m) (t - e) in
  let c := if Zdigits2 q <=? prec then 0 else 1 in
  binary_round prec emax s m e = finish_round s (q / 2 ^ c) (t + c).
Proof.
  intros t q c. unfold binary_round. change (Zpos (digits2_pos m)) with (Zdigits2 (Zpos m)).
  fold t. unfold shl_align.
  destruct (Z.ltb_spec t e) as [Hlt|Hge].
  - destruct (t - e) as [|p|p] eqn:E; try lia.
    assert (Hp : Zpos p = e - t) by lia.
    assert (Hm' : Zpos (Pos.iter xO m p) = Zpos m * 2 ^ (e - t)) by (rewrite shift_pos_pow2, Hp; reflexivity).
    assert (Hd : Zdigits2 (Zpos m * 2 ^ (e - t)) + t = Zdigits2 (Zpos m) + e).
    { rewrite Zdigits2_mul_pow2 by lia. lia. }
    rewrite binary_round_aux_closed; rewrite Hm', ?Hd; fold t; try lia.
    rewrite Z.sub_diag, rne_0. reflexivity.
  - assert (Hsh : match t - e with Z.neg d => (Pos.iter xO m d, t) | _ => (m, e) end = (m, e)).
    { destruct (t - e) eqn:E; try reflexivity. lia. }
    rewrite Hsh. rewrite binary_round_aux_closed; fold t; try lia. reflexivity.
Qed.

End RoundClosed.

(** ** Values, order and rounding *)
Section Values.

Variables prec emax : Z.
Hypothesis prec_pos : 0 < prec.
Hypothesis prec_lt_emax : prec < emax.

Abbreviation emin := (SpecFloat.emin prec emax).
Abbreviation fexp := (SpecFloat.fexp prec emax).
Abbreviation B2Z := (Rounding.B2Z prec emax).
Abbreviation fin := (Rounding.fin prec emax).
Abbreviation RZ := (Rounding.RZ prec).
Abbreviation rndZ := (Rounding.rndZ prec).

Lemma bounded_inv (m : positive) (e : Z) :
  bounded prec emax m e = true ->
  emin <= e <= emax - prec /\ Zdigits2 (Zpos m) <= prec /\ (emin < e -> Zdigits2 (Zpos m) = prec).
Proof.
  unfold bounded, canonical_mantissa. intros H. apply andb_true_iff in H. destruct H as [H1 H2].
  apply Z.eqb_eq in H1. apply Z.leb_le in H2.
  change (Zpos (digits2_pos m)) with (Zdigits2 (Zpos m)) in H1.
  rewrite (fexp_eq prec emax) in H1. lia.
Qed.

Lemma bounded_intro (m : positive) (e : Z) :
  emin <= e <= emax - prec -> Zdigits2 (Zpos m) <= prec -> (emin < e -> Zdigits2 (Zpos m) = prec) ->
  bounded prec emax m e = true.
Proof.
  intros He Hd Hn. unfold bounded, canonical_mantissa. apply andb_true_iff. split.
  - apply Z.eqb_eq. change (Zpos (digits2_pos m)) with (Zdigits2 (Zpos m)).
    rewrite (fexp_eq prec emax). destruct (Z.eq_dec e emin); [lia|]. rewrite Hn; lia.
  - apply Z.leb_le. lia.
Qed.

Lemma RZ_0 (c : Z) : 0 <= c -> RZ c 0 = 0.
Proof.
  intros Hc. unfold Rounding.RZ. simpl Zdigits2. rewrite Z.max_r by lia.
  assert (0 < 2 ^ c) by (apply Z.pow_pos_nonneg; lia).
  rewrite rne_small by lia. lia.
Qed.

Lemma RZ_nonneg (c n : Z) : 0 <= c -> 0 <= n -> 0 <= RZ c n.
Proof.
  intros Hc Hn. unfold Rounding.RZ. apply Z.mul_nonneg_nonneg.
  - apply rne_nonneg; lia.
  - apply Z.pow_nonneg; lia.
Qed.

Lemma RZ_mono (c n1 n2 : Z) : 0 <= c -> 0 <= n1 <= n2 -> RZ c n1 <= RZ c n2.
Proof.
  intros Hc [H1 H12].
  destruct (Z.eq_dec n1 0) as [->|Hn1]; [rewrite RZ_0 by lia; apply RZ_nonneg; lia|].
  assert (Hd : Zdigits2 n1 <= Zdigits2 n2) by (apply Zdigits2_le; lia).
  pose proof (Zdigits2_bounds n1 ltac:(lia)) as [Hlo1 Hhi1].
  pose proof (Zdigits2_bounds n2 ltac:(lia)) as [Hlo2 Hhi2].
  pose proof (Zdigits2_pos n1 ltac:(lia)) as Hp1.
  unfold Rounding.RZ.
  set (d1 := Zdigits2 n1) in *. set (d2 := Zdigits2 n2) in *.
  set (k1 := Z.max (d1 - prec) c). set (k2 := Z.max (d2 - prec) c).
  destruct (Z.eq_dec k1 k2) as [E|NE].
  - rewrite <- E. apply Z.mul_le_mono_nonneg_r; [apply Z.pow_nonneg; lia|].
    apply rne_mono; unfold k1; lia.
  - assert (Hk : k1 < k2) by (unfold k1, k2 in *; lia).
    assert (Hk2 : k2 = d2 - prec) by (unfold k1, k2 in *; lia).
    assert (Hdd : d1 < d2) by (unfold k1, k2 in *; lia).
    assert (Hk1 : 0 <= k1) by (unfold k1; lia).
    transitivity (2 ^ (d2 - 1 - c)).
    + replace (d2 - 1 - c) with ((d2 - 1 - k1) + (k1 - c)) by lia.
      rewrite Z.pow_add_r by (unfold k1; lia).
      apply Z.mul_le_mono_nonneg_r; [apply Z.pow_nonneg; lia|].
      apply rne_le_pow2; try lia.
      assert (2 ^ d1 <= 2 ^ (d2 - 1)) by (apply Z.pow_le_mono_r; lia). lia.
    + replace (d2 - 1 - c) with ((d2 - 1 - k2) + (k2 - c)) by lia.
      rewrite Z.pow_add_r by (unfold k2; lia).
      apply Z.mul_le_mono_nonneg_r; [apply Z.pow_nonneg; lia|].
      apply rne_ge_pow2; lia.
Qed.

Lemma rndZ_mono (c N1 N2 : Z) : 0 <= c -> N1 <= N2 -> rndZ c N1 <= rndZ c N2.
Proof.
  intros Hc H. unfold Rounding.rndZ.
  pose proof (RZ_nonneg c (Z.abs N1) Hc (Z.abs_nonneg _)).
  pose proof (RZ_nonneg c (Z.abs N2) Hc (Z.abs_nonneg _)).
  destruct (Z.sgn_spec N1) as [[? ->]|[[? ->]|[? ->]]];
    destruct (Z.sgn_spec N2) as [[? ->]|[[? ->]|[? ->]]]; try lia.
  - pose proof (RZ_mono c (Z.abs N1) (Z.abs N2) Hc). lia.
  - pose proof (RZ_mono c (Z.abs N2) (Z.abs N1) Hc). lia.
Qed.

Lemma rndZ_opp (c N : Z) : rndZ c (- N) = - rndZ c N.
Proof. unfold Rounding.rndZ. rewrite Z.sgn_opp, Z.abs_opp. ring. Qed.

(** Rounding leaves the numbers of the format as they are. *)
Lemma RZ_id (c : Z) (m : positive) (e : Z) :
  0 <= c -> bounded prec emax m e = true ->
  RZ c (Zpos m * 2 ^ (e - emin) * 2 ^ c) = Zpos m * 2 ^ (e - emin).
Proof.
  intros Hc Hb. apply bounded_inv in Hb. destruct Hb as [He [Hd Hn]].
  unfold Rounding.RZ. rewrite <- Z.mul_assoc, <- Z.pow_add_r by lia.
  rewrite Zdigits2_mul_pow2 by lia.
  assert (Hk : Z.max (Zdigits2 (Zpos m) + (e - emin + c) - prec) c = e - emin + c)
    by (destruct (Z.eq_dec e emin); [lia | rewrite Hn; lia]).
  rewrite Hk, rne_exact by lia.
  replace (e - emin + c - c) with (e - emin) by lia. reflexivity.
Qed.

Lemma rndZ_id (c : Z) (x : spec_float) :
  0 <= c -> fin x = true -> rndZ c (B2Z x * 2 ^ c) = B2Z x.
Proof.
  intros Hc Hx. destruct x as [s| | |s m e]; try discriminate; try reflexivity.
  cbn [Rounding.fin Rounding.B2Z] in *.
  assert (0 < Zpos m * 2 ^ (e - emin) * 2 ^ c).
  { apply bounded_inv in Hx. repeat apply Z.mul_pos_pos; try lia; apply Z.pow_pos_nonneg; lia. }
  unfold Rounding.rndZ. destruct s; cbn [cond_Zopp].
  - rewrite Z.mul_opp_l, Z.sgn_opp, Z.abs_opp, Z.sgn_pos, Z.abs_eq, RZ_id by (lia || assumption). lia.
  - rewrite Z.sgn_pos, Z.abs_eq, RZ_id by (lia || assumption). lia.
Qed.

(** The order of the numbers is the order of their values. *)
Lemma B2Z_compare (x y : spec_float) :
  fin x = true -> fin y = true -> SFcompare x y = Some (B2Z x ?= B2Z y).
Proof.
  intros Hx Hy.
  destruct x as [sx| | |sx mx ex]; try discriminate; destruct y as [sy| | |sy my ey]; try discriminate;
    cbn [Rounding.fin Rounding.B2Z SFcompare] in *.
  - reflexivity.
  - apply bounded_inv in Hy.
    assert (0 < Zpos my * 2 ^ (ey - emin)) by (apply Z.mul_pos_pos; [lia | apply Z.pow_pos_nonneg; lia]).
    destruct sy; cbn [cond_Zopp]; f_equal; symmetry; [apply Z.compare_gt_iff | apply Z.compare_lt_iff]; lia.
  - apply bounded_inv in Hx.
    assert (0 < Zpos mx * 2 ^ (ex - emin)) by (apply Z.mul_pos_pos; [lia | apply Z.pow_pos_nonneg; lia]).
    destruct sx; cbn [cond_Zopp]; f_equal; symmetry; [apply Z.compare_lt_iff | apply Z.compare_gt_iff]; lia.
  - apply bounded_inv in Hx. apply bounded_inv in Hy.
    destruct Hx as [Hex [Hdx Hnx]]. destruct Hy as [Hey [Hdy Hny]].
    pose proof (Zdigits2_bounds (Zpos mx) ltac:(lia)) as [Hlx Hhx].
    pose proof (Zdigits2_bounds (Zpos my) ltac:(lia)) as [Hly Hhy].
    set (vx := Zpos mx * 2 ^ (ex - emin)). set (vy := Zpos my * 2 ^ (ey - emin)).
    assert (Hvx : 0 < vx) by (apply Z.mul_pos_pos; [lia | apply Z.pow_pos_nonneg; lia]).
    assert (Hvy : 0 < vy) by (apply Z.mul_pos_pos; [lia | apply Z.pow_pos_nonneg; lia]).
    assert (Hlt : forall m1 e1 m2 e2 : Z,
               0 < m1 -> Zdigits2 m1 <= prec -> emin <= e1 -> e1 < e2 -> Zdigits2 m2 = prec -> 0 < m2 ->
               m1 * 2 ^ (e1 - emin) < m2 * 2 ^ (e2 - emin)).
    { intros m1 e1 m2 e2 H1 Hd1 He1 He12 Hd2 H2.
      pose proof (Zdigits2_bounds m1 H1) as [_ Hh1].
      pose proof (Zdigits2_bounds m2 H2) as [Hl2 _]. rewrite Hd2 in Hl2.
      assert (m1 < 2 ^ prec).
      { assert (2 ^ Zdigits2 m1 <= 2 ^ prec) by (apply Z.pow_le_mono_r; lia). lia. }
      assert (P1 : 0 < 2 ^ (e1 - emin)) by (apply Z.pow_pos_nonneg; lia).
      assert (P2 : 2 ^ (e2 - emin) = 2 ^ (e2 - e1 - 1) * 2 * 2 ^ (e1 - emin)).
      { rewrite <- (Z.pow_1_r 2) at 3. rewrite <- !Z.pow_add_r by lia. f_equal. lia. }
      assert (P3 : 0 < 2 ^ (e2 - e1 - 1)) by (apply Z.pow_pos_nonneg; lia).
      assert (P4 : 2 ^ prec = 2 * 2 ^ (prec - 1)).
      { rewrite <- (Z.pow_1_r 2) at 2. rewrite <- Z.pow_add_r by lia. f_equal. lia. }
      rewrite P2. nia. }
    assert (Hcmp : (Z.pos mx ?= Z.pos my) = (vx ?= vy) \/ ex <> ey).
    { destruct (Z.eq_dec ex ey) as [->|]; [left|right; assumption].
      unfold vx, vy. apply Zmult_compare_compat_r. apply Z.lt_gt. apply Z.pow_pos_nonneg; lia. }
    change (Pos.compare_cont Eq mx my) with (Zpos mx ?= Zpos my).
    destruct sx, sy; cbn [cond_Zopp]; f_equal.
    + rewrite Z.compare_opp.
      destruct (Z.compare_spec ex ey) as [E|L|G].
      * destruct Hcmp as [-> |]; [|contradiction]. rewrite (Z.compare_antisym vx vy). reflexivity.
      * symmetry. apply Z.compare_gt_iff. unfold vx, vy. apply Hlt; lia.
      * symmetry. apply Z.compare_lt_iff. unfold vx, vy. apply Hlt; lia.
    + symmetry. apply Z.compare_lt_iff. lia.
    + symmetry. apply Z.compare_gt_iff. lia.
    + destruct (Z.compare_spec ex ey) as [E|L|G].
      * destruct Hcmp as [-> |]; [|contradiction]. reflexivity.
      * symmetry. apply Z.compare_lt_iff. unfold vx, vy. apply Hlt; lia.
      * symmetry. apply Z.compare_gt_iff. unfold vx, vy. apply Hlt; lia.
Qed.

End Values.

Section RoundedValue.

Variables prec emax : Z.
Hypothesis prec_pos : 0 < prec.
Hypothesis prec_lt_emax : prec < emax.

Abbreviation emin := (SpecFloat.emin prec emax).
Abbreviation fexp := (SpecFloat.fexp prec emax).
Abbreviation B2Z := (Rounding.B2Z prec emax).
Abbreviation fin := (Rounding.fin prec emax).
Abbreviation RZ := (Rounding.RZ prec).
Abbreviation rndZ := (Rounding.rndZ prec).

Lemma pow2_lt_inv (a b : Z) : 0 <= b -> 2 ^ a < 2 ^ b -> a < b.
Proof.
  intros Hb H. destruct (Z.lt_ge_cases a b) as [|Hge]; [assumption|].
  pose proof (Z.pow_le_mono_r 2 b a ltac:(lia) Hge). lia.
Qed.

Lemma binary_round_RZ (s : bool) (m : positive) (c : Z) :
  0 <= c -> RZ c (Zpos m) < 2 ^ (emax - emin) ->
  fin (binary_round prec emax s m (emin - c)) = true /\
  B2Z (binary_round prec emax s m (emin - c)) = cond_Zopp s (RZ c (Zpos m)).
Proof.
  intros Hc HW.
  rewrite (binary_round_closed prec emax prec_pos).
  pose proof (rounded_mantissa_bounds prec emax prec_pos (Zpos m) (emin - c) ltac:(lia)) as HB.
  cbv zeta in HB.
  pose proof (Zdigits2_pos (Zpos m) ltac:(lia)) as Hd.
  set (d := Zdigits2 (Zpos m)) in *.
  set (t := fexp (d + (emin - c))) in *.
  assert (Ht : t = Z.max (d + (emin - c) - prec) emin) by reflexivity.
  assert (Hmm : emin < emax - prec) by (rewrite (emin_eq prec emax); lia).
  destruct (Z.ltb_spec t (emin - c)) as [|_]; [lia|].
  specialize (HB ltac:(lia)). destruct HB as [[Hq0 Hq1] Hq2].
  unfold Rounding.RZ in *. fold d in HW |- *.
  replace (Z.max (d - prec) c) with (t - (emin - c)) in * by lia.
  replace (t - (emin - c) - c) with (t - emin) in * by lia.
  set (q := rne (Zpos m) (t - (emin - c))) in *.
  assert (Hpt : 0 < 2 ^ (t - emin)) by (apply Z.pow_pos_nonneg; lia).
  destruct (Zdigits2_le_prec_or prec prec_pos q (conj Hq0 Hq1)) as [Hdq|Hdq].
  - rewrite (proj2 (Z.leb_le _ _) Hdq). rewrite Z.pow_0_r, Z.div_1_r, Z.add_0_r.
    destruct q as [|p|p] eqn:Eq;
      [split; [reflexivity | rewrite Z.mul_0_l; destruct s; reflexivity] | |lia].
    assert (Hte : t <= emax - prec).
    { destruct (Z.le_gt_cases t (emax - prec)) as [|Hgt]; [assumption|exfalso].
      specialize (Hq2 ltac:(lia)).
      assert (2 ^ (emax - emin) <= 2 ^ (prec - 1) * 2 ^ (t - emin)).
      { rewrite <- Z.pow_add_r by lia. apply Z.pow_le_mono_r; lia. }
      nia. }
    unfold Rounding.finish_round. rewrite (proj2 (Z.leb_le _ _) Hte).
    split; [|reflexivity].
    apply bounded_intro; try lia.
    intros Hlt. specialize (Hq2 Hlt).
    pose proof (Zdigits2_ge_pow2 (Zpos p) (prec - 1) ltac:(lia) Hq2). lia.
  - assert (Hdq' : Zdigits2 q = prec + 1) by (rewrite Hdq; apply Zdigits2_pow2; lia).
    rewrite Hdq'. destruct (Z.leb_spec (prec + 1) prec) as [|_]; [lia|].
    rewrite Hdq, Z.pow_1_r.
    assert (Hhalf : 2 ^ prec / 2 = 2 ^ (prec - 1)).
    { replace prec with (prec - 1 + 1) at 1 by lia. rewrite Z.pow_add_r, Z.pow_1_r by lia.
      apply Z.div_mul. lia. }
    rewrite Hhalf.
    assert (Hpp : 0 < 2 ^ (prec - 1)) by (apply Z.pow_pos_nonneg; lia).
    assert (Hte : t + 1 <= emax - prec).
    { rewrite Hdq, <- Z.pow_add_r in HW by lia. apply pow2_lt_inv in HW; lia. }
    destruct (2 ^ (prec - 1)) as [|p|p] eqn:Ep; try lia.
    unfold Rounding.finish_round. rewrite (proj2 (Z.leb_le _ _) Hte).
    split.
    + apply bounded_intro; try lia; rewrite <- Ep, Zdigits2_pow2 by lia; lia.
    + cbn [Rounding.B2Z]. f_equal. rewrite <- Ep, <- !Z.pow_add_r by lia. f_equal. lia.
Qed.

(** [binary_normalize], the rounding of [N * 2^(emin - c)], by its value. *)
Lemma binary_normalize_rndZ (N c : Z) (sz : bool) :
  0 <= c -> Z.abs (rndZ c N) < 2 ^ (emax - emin) ->
  fin (binary_normalize prec emax N (emin - c) sz) = true /\
  B2Z (binary_normalize prec emax N (emin - c) sz) = rndZ c N.
Proof.
  intros Hc HW. unfold Rounding.rndZ in *. destruct N as [|m|m]; cbn [binary_normalize].
  - split; reflexivity.
  - change (Z.sgn (Zpos m)) with 1 in *. change (Z.abs (Zpos m)) with (Zpos m) in *.
    pose proof (RZ_nonneg prec c (Zpos m) Hc ltac:(lia)).
    destruct (binary_round_RZ false m c Hc ltac:(lia)) as [H1 H2].
    split; [assumption|]. rewrite H2. cbn [cond_Zopp]. lia.
  - change (Z.sgn (Zneg m)) with (-1) in *. change (Z.abs (Zneg m)) with (Zpos m) in *.
    pose proof (RZ_nonneg prec c (Zpos m) Hc ltac:(lia)).
    destruct (binary_round_RZ true m c Hc ltac:(lia)) as [H1 H2].
    split; [assumption|]. rewrite H2. cbn [cond_Zopp]. lia.
Qed.

End RoundedValue.

Section Operations.

Variables prec emax : Z.
Hypothesis prec_pos : 0 < prec.
Hypothesis prec_lt_emax : prec < emax.

Abbreviation emin := (SpecFloat.emin prec emax).
Abbreviation fexp := (SpecFloat.fexp prec emax).
Abbreviation B2Z := (Rounding.B2Z prec emax).
Abbreviation fin := (Rounding.fin prec emax).
Abbreviation RZ := (Rounding.RZ prec).
Abbreviation rndZ := (Rounding.rndZ prec).

Lemma binary_round_shift (s : bool) (m m' : positive) (e j : Z) :
  0 <= j -> Zpos m' = Zpos m * 2 ^ j ->
  binary_round prec emax s m' (e - j) = binary_round prec emax s m e.
Proof.
  intros Hj Hm'.
  rewrite !(binary_round_closed prec emax prec_pos). rewrite Hm'.
  rewrite Zdigits2_mul_pow2 by lia.
  replace (Zdigits2 (Zpos m) + j + (e - j)) with (Zdigits2 (Zpos m) + e) by lia.
  set (t := fexp (Zdigits2 (Zpos m) + e)).
  assert (Hq : (if t <? e - j then Zpos m * 2 ^ j * 2 ^ (e - j - t) else rne (Zpos m * 2 ^ j) (t - (e - j)))
               = (if t <? e then Zpos m * 2 ^ (e - t) else rne (Zpos m) (t - e))).
  { destruct (Z.ltb_spec t (e - j)); destruct (Z.ltb_spec t e); try lia.
    - rewrite <- Z.mul_assoc, <- Z.pow_add_r by lia. f_equal. f_equal. lia.
    - replace (Zpos m * 2 ^ j) with (Zpos m * 2 ^ (e - t) * 2 ^ (t - (e - j))).
      + apply rne_exact. lia.
      + rewrite <- Z.mul_assoc, <- Z.pow_add_r by lia. f_equal. f_equal. lia.
    - replace (t - (e - j)) with (t - e + j) by lia. apply rne_shift; lia. }
  rewrite Hq. reflexivity.
Qed.

Lemma binary_normalize_shift (N e j : Z) (sz : bool) :
  0 <= j ->
  binary_normalize prec emax (N * 2 ^ j) (e - j) sz = binary_normalize prec emax N e sz.
Proof.
  intros Hj. assert (Hp : 0 < 2 ^ j) by (apply Z.pow_pos_nonneg; lia).
  destruct N as [|m|m].
  - reflexivity.
  - destruct (Zpos m * 2 ^ j) as [|m'|m'] eqn:E; try lia.
    cbn [binary_normalize]. apply binary_round_shift; [assumption|]. lia.
  - destruct (Zneg m * 2 ^ j) as [|m'|m'] eqn:E; try lia.
    cbn [binary_normalize]. apply binary_round_shift; [assumption|]. lia.
Qed.

Lemma fin_emin (s : bool) (m : positive) (e : Z) : fin (S754_finite s m e) = true -> emin <= e.
Proof. intros H. apply bounded_inv in H. lia. Qed.

Lemma B2Z_opp (x : spec_float) : B2Z (SFopp x) = - B2Z x.
Proof. destruct x as [s| | |s m e]; try reflexivity. destruct s; cbn; lia. Qed.

Lemma fin_opp (x : spec_float) : fin (SFopp x) = fin x.
Proof. destruct x; reflexivity. Qed.

Lemma shl_align_value (m : positive) (e ez : Z) :
  ez <= e -> Zpos (fst (shl_align m e ez)) = Zpos m * 2 ^ (e - ez).
Proof.
  intros H. unfold shl_align. destruct (ez - e) as [|p|p] eqn:E; try lia.
  - replace (e - ez) with 0 by lia. cbn [fst]. lia.
  - cbn [fst]. rewrite shift_pos_pow2. f_equal. f_equal. lia.
Qed.

Lemma aligned_sum (sx sy : bool) (mx my : positive) (ex ey : Z) :
  emin <= ex -> emin <= ey ->
  (cond_Zopp sx (Zpos (fst (shl_align mx ex (Z.min ex ey))))
   + cond_Zopp sy (Zpos (fst (shl_align my ey (Z.min ex ey))))) * 2 ^ (Z.min ex ey - emin)
  = cond_Zopp sx (Zpos mx * 2 ^ (ex - emin)) + cond_Zopp sy (Zpos my * 2 ^ (ey - emin)).
Proof.
  intros Hx Hy. rewrite !shl_align_value by lia.
  assert (Ex : 2 ^ (ex - emin) = 2 ^ (ex - Z.min ex ey) * 2 ^ (Z.min ex ey - emin))
    by (rewrite <- Z.pow_add_r by lia; f_equal; lia).
  assert (Ey : 2 ^ (ey - emin) = 2 ^ (ey - Z.min ex ey) * 2 ^ (Z.min ex ey - emin))
    by (rewrite <- Z.pow_add_r by lia; f_equal; lia).
  rewrite Ex, Ey. destruct sx, sy; cbn [cond_Zopp]; ring.
Qed.

Theorem SFadd_B2Z (x y : spec_float) :
  fin x = true -> fin y = true ->
  Z.abs (rndZ 0 (B2Z x + B2Z y)) < 2 ^ (emax - emin) ->
  fin (SFadd prec emax x y) = true /\
  B2Z (SFadd prec emax x y) = rndZ 0 (B2Z x + B2Z y).
Proof.
  intros Hx Hy HW.
  destruct x as [sx| | |sx mx ex]; try discriminate; destruct y as [sy| | |sy my ey]; try discriminate.
  - destruct sx, sy; split; reflexivity.
  - cbn [SFadd]. split; [assumption|]. rewrite Z.add_0_l.
    rewrite <- (rndZ_id prec emax 0 (S754_finite sy my ey)) at 1 by (lia || assumption).
    rewrite Z.pow_0_r, Z.mul_1_r. reflexivity.
  - cbn [SFadd]. split; [assumption|]. change (B2Z (S754_zero sy)) with 0. rewrite Z.add_0_r.
    rewrite <- (rndZ_id prec emax 0 (S754_finite sx mx ex)) at 1 by (lia || assumption).
    rewrite Z.pow_0_r, Z.mul_1_r. reflexivity.
  - pose proof (fin_emin _ _ _ Hx). pose proof (fin_emin _ _ _ Hy).
    cbn [SFadd]. cbv zeta.
    rewrite <- (binary_normalize_shift _ _ (Z.min ex ey - emin)) by lia.
    rewrite aligned_sum by lia.
    replace (Z.min ex ey - (Z.min ex ey - emin)) with (emin - 0) by lia.
    apply (binary_normalize_rndZ prec emax prec_pos prec_lt_emax); [lia | exact HW].
Qed.

Lemma aligned_diff (sx sy : bool) (mx my : positive) (ex ey : Z) :
  emin <= ex -> emin <= ey ->
  (cond_Zopp sx (Zpos (fst (shl_align mx ex (Z.min ex ey))))
   - cond_Zopp sy (Zpos (fst (shl_align my ey (Z.min ex ey))))) * 2 ^ (Z.min ex ey - emin)
  = cond_Zopp sx (Zpos mx * 2 ^ (ex - emin)) - cond_Zopp sy (Zpos my * 2 ^ (ey - emin)).
Proof.
  intros Hx Hy. rewrite !shl_align_value by lia.
  assert (Ex : 2 ^ (ex - emin) = 2 ^ (ex - Z.min ex ey) * 2 ^ (Z.min ex ey - emin))
    by (rewrite <- Z.pow_add_r by lia; f_equal; lia).
  assert (Ey : 2 ^ (ey - emin) = 2 ^ (ey - Z.min ex ey) * 2 ^ (Z.min ex ey - emin))
    by (rewrite <- Z.pow_add_r by lia; f_equal; lia).
  rewrite Ex, Ey. destruct sx, sy; cbn [cond_Zopp]; ring.
Qed.

Theorem SFsub_B2Z (x y : spec_float) :
  fin x = true -> fin y = true ->
  Z.abs (rndZ 0 (B2Z x - B2Z y)) < 2 ^ (emax - emin) ->
  fin (SFsub prec emax x y) = true /\
  B2Z (SFsub prec emax x y) = rndZ 0 (B2Z x - B2Z y).
Proof.
  intros Hx Hy HW.
  destruct x as [sx| | |sx mx ex]; try discriminate; destruct y as [sy| | |sy my ey]; try discriminate.
  - destruct sx, sy; split; reflexivity.
  - cbn [SFsub]. split; [assumption|]. rewrite Z.sub_0_l.
    change (S754_finite (negb sy) my ey) with (SFopp (S754_finite sy my ey)).
    rewrite B2Z_opp, rndZ_opp. f_equal.
    rewrite <- (rndZ_id prec emax 0 (S754_finite sy my ey)) at 1 by (lia || assumption).
    rewrite Z.pow_0_r, Z.mul_1_r. reflexivity.
  - cbn [SFsub]. split; [assumption|]. change (B2Z (S754_zero sy)) with 0. rewrite Z.sub_0_r.
    rewrite <- (rndZ_id prec emax 0 (S754_finite sx mx ex)) at 1 by (lia || assumption).
    rewrite Z.pow_0_r, Z.mul_1_r. reflexivity.
  - pose proof (fin_emin _ _ _ Hx). pose proof (fin_emin _ _ _ Hy).
    cbn [SFsub]. cbv zeta.
    rewrite <- (binary_normalize_shift _ _ (Z.min ex ey - emin)) by lia.
    rewrite aligned_diff by lia.
    replace (Z.min ex ey - (Z.min ex ey - emin)) with (emin - 0) by lia.
    apply (binary_normalize_rndZ prec emax prec_pos prec_lt_emax); [lia | exact HW].
Qed.

Lemma emin_nonpos : emin <= 0.
Proof. rewrite (emin_eq prec emax). lia. Qed.

Lemma product_aligned (mx my : positive) (ex ey : Z) :
  bounded prec emax mx ex = true -> bounded prec emax my ey = true ->
  ex + ey <= fexp (Zdigits2 (Zpos (mx * my)) + (ex + ey)).
Proof.
  intros Hx Hy. apply bounded_inv in Hx. apply bounded_inv in Hy.
  destruct Hx as [Hex [Hdx Hnx]]. destruct Hy as [Hey [Hdy Hny]].
  pose proof emin_nonpos.
  pose proof (Zdigits2_bounds (Zpos mx) ltac:(lia)) as [Hlx _].
  pose proof (Zdigits2_bounds (Zpos my) ltac:(lia)) as [Hly _].
  pose proof (Zdigits2_pos (Zpos mx) ltac:(lia)).
  pose proof (Zdigits2_pos (Zpos my) ltac:(lia)).
  assert (HD : Zdigits2 (Zpos mx) + Zdigits2 (Zpos my) - 1 <= Zdigits2 (Zpos (mx * my))).
  { replace (Zdigits2 (Zpos mx) + Zdigits2 (Zpos my) - 1)
      with ((Zdigits2 (Zpos mx) - 1) + (Zdigits2 (Zpos my) - 1) + 1) by lia.
    apply Zdigits2_ge_pow2; [lia|]. rewrite Z.pow_add_r by lia.
    rewrite Pos2Z.inj_mul. apply Z.mul_le_mono_nonneg; try lia; apply Z.pow_nonneg; lia. }
  rewrite (fexp_eq prec emax).
  destruct (Z.eq_dec ex emin); destruct (Z.eq_dec ey emin); lia.
Qed.

Theorem SFmul_B2Z (x y : spec_float) :
  fin x = true -> fin y = true ->
  Z.abs (rndZ (- emin) (B2Z x * B2Z y)) < 2 ^ (emax - emin) ->
  fin (SFmul prec emax x y) = true /\
  B2Z (SFmul prec emax x y) = rndZ (- emin) (B2Z x * B2Z y).
Proof.
  intros Hx Hy HW. pose proof emin_nonpos as Hmin.
  destruct x as [sx| | |sx mx ex]; try discriminate; destruct y as [sy| | |sy my ey]; try discriminate;
    try (cbn [SFmul Rounding.B2Z]; rewrite ?Z.mul_0_l, ?Z.mul_0_r; split; reflexivity).
  pose proof (fin_emin _ _ _ Hx). pose proof (fin_emin _ _ _ Hy).
  cbn [SFmul].
  assert (E : binary_round_aux prec emax (xorb sx sy) (Zpos (mx * my)) (ex + ey) loc_Exact
              = binary_normalize prec emax (cond_Zopp (xorb sx sy) (Zpos (mx * my))) (ex + ey) false).
  { pose proof (product_aligned mx my ex ey Hx Hy) as Hal.
    assert (Hbr : forall s, binary_round prec emax s (mx * my) (ex + ey)
                  = binary_round_aux prec emax s (Zpos (mx * my)) (ex + ey) loc_Exact).
    { intros s. unfold binary_round, shl_align.
      change (Zpos (digits2_pos (mx * my))) with (Zdigits2 (Zpos (mx * my))).
      destruct (fexp (Zdigits2 (Zpos (mx * my)) + (ex + ey)) - (ex + ey)) eqn:E; try reflexivity. lia. }
    destruct (xorb sx sy); cbn [cond_Zopp Z.opp binary_normalize]; rewrite Hbr; reflexivity. }
  rewrite E.
  rewrite <- (binary_normalize_shift _ _ (ex + ey - 2 * emin)) by lia.
  assert (EN : cond_Zopp (xorb sx sy) (Zpos (mx * my)) * 2 ^ (ex + ey - 2 * emin)
               = B2Z (S754_finite sx mx ex) * B2Z (S754_finite sy my ey)).
  { cbn [Rounding.B2Z]. replace (ex + ey - 2 * emin) with ((ex - emin) + (ey - emin)) by lia.
    rewrite Z.pow_add_r, Pos2Z.inj_mul by lia.
    destruct sx, sy; cbn [xorb cond_Zopp]; ring. }
  rewrite EN.
  replace (ex + ey - (ex + ey - 2 * emin)) with (emin - (- emin)) by lia.
  apply (binary_normalize_rndZ prec emax prec_pos prec_lt_emax); [lia | exact HW].
Qed.

End Operations.

Section Comparisons.

Variables prec emax : Z.
Hypothesis prec_pos : 0 < prec.
Hypothesis prec_lt_emax : prec < emax.

Abbreviation emin := (SpecFloat.emin prec emax).
Abbreviation B2Z := (Rounding.B2Z prec emax).
Abbreviation fin := (Rounding.fin prec emax).
Abbreviation RZ := (Rounding.RZ prec).
Abbreviation rndZ := (Rounding.rndZ prec).

Lemma RZ_exact_multiple (c q j : Z) :
  0 <= c <= j -> 0 < q -> Zdigits2 q <= prec -> RZ c (q * 2 ^ j) = q * 2 ^ (j - c).
Proof.
  intros Hc Hq Hd. unfold Rounding.RZ. rewrite Zdigits2_mul_pow2 by lia.
  pose proof (Zdigits2_pos q Hq).
  set (k := Z.max (Zdigits2 q + j - prec) c).
  assert (Hk : c <= k <= j) by (unfold k; lia).
  replace (q * 2 ^ j) with (q * 2 ^ (j - k) * 2 ^ k)
    by (rewrite <- Z.mul_assoc, <- Z.pow_add_r by lia; f_equal; f_equal; lia).
  rewrite rne_exact by lia.
  rewrite <- Z.mul_assoc, <- Z.pow_add_r by lia. f_equal. f_equal. lia.
Qed.

Lemma rndZ_abs (c N : Z) : 0 <= c -> Z.abs (rndZ c N) = RZ c (Z.abs N).
Proof.
  intros Hc. unfold Rounding.rndZ. pose proof (RZ_nonneg prec c (Z.abs N) Hc (Z.abs_nonneg N)).
  destruct N as [|p|p].
  - change (Z.abs 0) with 0. rewrite (RZ_0 prec) by lia. reflexivity.
  - change (Z.sgn (Zpos p)) with 1. lia.
  - change (Z.sgn (Zneg p)) with (-1). lia.
Qed.

Lemma rndZ_abs_le (c a N : Z) :
  0 <= c <= a -> Z.abs N <= 2 ^ a -> Z.abs (rndZ c N) <= 2 ^ (a - c).
Proof.
  intros Hc HN. rewrite rndZ_abs by lia.
  rewrite <- (Z.mul_1_l (2 ^ (a - c))), <- (RZ_exact_multiple c 1 a) by (simpl; lia).
  rewrite Z.mul_1_l. apply (RZ_mono prec prec_pos); [lia|]. split; [apply Z.abs_nonneg | assumption].
Qed.

Lemma SFltb_B2Z (x y : spec_float) :
  fin x = true -> fin y = true -> SFltb x y = (B2Z x <? B2Z y).
Proof.
  intros Hx Hy. unfold SFltb, Z.ltb. rewrite (B2Z_compare prec emax prec_pos x y Hx Hy). reflexivity.
Qed.

Lemma SFleb_B2Z (x y : spec_float) :
  fin x = true -> fin y = true -> SFleb x y = (B2Z x <=? B2Z y).
Proof.
  intros Hx Hy. unfold SFleb, Z.leb. rewrite (B2Z_compare prec emax prec_pos x y Hx Hy).
  destruct (B2Z x ?= B2Z y); reflexivity.
Qed.

Lemma SFeqb_B2Z (x y : spec_float) :
  fin x = true -> fin y = true -> SFeqb x y = (B2Z x =? B2Z y).
Proof.
  intros Hx Hy. unfold SFeqb. rewrite Z.eqb_compare, (B2Z_compare prec emax prec_pos x y Hx Hy).
  reflexivity.
Qed.

End Comparisons.

(** ** Binary32 *)
Lemma prec32 : 0 < F32.prec. Proof. reflexivity. Qed.
Lemma emax32 : F32.prec < F32.emax. Proof. reflexivity. Qed.

Lemma rnd_mono (c N1 N2 : Z) : 0 <= c -> N1 <= N2 -> rnd c N1 <= rnd c N2.
Proof. apply (rndZ_mono F32.prec prec32). Qed.

Lemma rnd_val (x : F32.float) : finite x = true -> rnd 0 (val x) = val x.
Proof.
  intros H. rewrite <- (rndZ_id F32.prec F32.emax 0 x) at 2 by (lia || assumption).
  unfold rnd, val. rewrite Z.pow_0_r, Z.mul_1_r. reflexivity.
Qed.

Lemma rnd_val_U (x : F32.float) : finite x = true -> rnd 149 (val x * U) = val x.
Proof. intros H. apply (rndZ_id F32.prec F32.emax 149 x); [lia | assumption]. Qed.

Lemma rnd_opp (c N : Z) : rnd c (- N) = - rnd c N.
Proof. apply rndZ_opp. Qed.

Lemma add_val (x y : F32.float) :
  finite x = true -> finite y = true -> Z.abs (val x) <= 2 ^ 200 -> Z.abs (val y) <= 2 ^ 200 ->
  finite (F32.add x y) = true /\ val (F32.add x y) = rnd 0 (val x + val y).
Proof.
  intros Hx Hy Bx By. apply (SFadd_B2Z F32.prec F32.emax prec32 emax32); try assumption.
  pose proof (rndZ_abs_le F32.prec prec32 0 201 (val x + val y) ltac:(lia) ltac:(lia)) as H.
  fold val. apply (Z.le_lt_trans _ _ _ H). reflexivity.
Qed.

Lemma sub_val (x y : F32.float) :
  finite x = true -> finite y = true -> Z.abs (val x) <= 2 ^ 200 -> Z.abs (val y) <= 2 ^ 200 ->
  finite (F32.sub x y) = true /\ val (F32.sub x y) = rnd 0 (val x - val y).
Proof.
  intros Hx Hy Bx By. apply (SFsub_B2Z F32.prec F32.emax prec32 emax32); try assumption.
  pose proof (rndZ_abs_le F32.prec prec32 0 201 (val x - val y) ltac:(lia) ltac:(lia)) as H.
  fold val. apply (Z.le_lt_trans _ _ _ H). reflexivity.
Qed.

Lemma mul_val (x y : F32.float) :
  finite x = true -> finite y = true -> Z.abs (val x) <= 2 ^ 200 -> Z.abs (val y) <= 2 ^ 200 ->
  finite (F32.mul x y) = true /\ val (F32.mul x y) = rnd 149 (val x * val y).
Proof.
  intros Hx Hy Bx By.
  apply (SFmul_B2Z F32.prec F32.emax prec32 emax32); try assumption.
  assert (HN : Z.abs (val x * val y) <= 2 ^ 400).
  { rewrite Z.abs_mul. change (2 ^ 400) with (2 ^ 200 * 2 ^ 200).
    apply Z.mul_le_mono_nonneg; try assumption; apply Z.abs_nonneg. }
  pose proof (rndZ_abs_le F32.prec prec32 149 400 (val x * val y) ltac:(lia) HN) as H.
  fold val. apply (Z.le_lt_trans _ _ _ H). reflexivity.
Qed.

Lemma ltb_val (x y : F32.float) :
  finite x = true -> finite y = true -> F32.ltb x y = (val x <? val y).
Proof. apply (SFltb_B2Z F32.prec F32.emax prec32). Qed.

Lemma leb_val (x y : F32.float) :
  finite x = true -> finite y = true -> F32.leb x y = (val x <=? val y).
Proof. apply (SFleb_B2Z F32.prec F32.emax prec32). Qed.

Lemma eqb_val (x y : F32.float) :
  finite x = true -> finite y = true -> F32.eqb x y = (val x =? val y).
Proof. apply (SFeqb_B2Z F32.prec F32.emax prec32). Qed.

(** ** One tick of [ToggleAnimation] *)

Import ToggleAnimation.
Lemma val_zero : val F32.zero = 0. Proof. reflexivity. Qed.
Lemma val_one : val F32.one = U. Proof. reflexivity. Qed.
Lemma val_minus_one : val F32.minus_one = - U. Proof. reflexivity. Qed.
Lemma U_pos : 0 < U. Proof. reflexivity. Qed.
Lemma U_small : U <= 2 ^ 199. Proof. unfold U. apply Z.pow_le_mono_r; lia. Qed.
Lemma val_c0_001_bounds : 0 < val c0_001 /\ val c0_001 < val c0_999 /\ val c0_999 < U.
Proof. repeat split. Qed.

Lemma inUnitRange_spec (x : F32.float) :
  inUnitRange x = true <-> finite x = true /\ 0 <= val x <= U.
Proof.
  unfold inUnitRange. rewrite !andb_true_iff. split.
  - intros [[Hv H0] H1].
    assert (Hf : finite x = true).
    { destruct x as [s|s| |s m e]; try reflexivity; try discriminate; try exact Hv.
      destruct s; discriminate. }
    split; [assumption|].
    rewrite leb_val in H0, H1 by (assumption || reflexivity).
    rewrite val_zero in H0. rewrite val_one in H1.
    apply Z.leb_le in H0. apply Z.leb_le in H1. lia.
  - intros [Hf [H0 H1]].
    rewrite !leb_val by (assumption || reflexivity). rewrite val_zero, val_one.
    repeat split; try (apply Z.leb_le; assumption).
    destruct x; try discriminate; try reflexivity. exact Hf.
Qed.

Lemma validSpeed_spec (s : F32.float) :
  validSpeed s = true <-> finite s = true /\ 0 < val s < U.
Proof.
  unfold validSpeed. rewrite !andb_true_iff. split.
  - intros [[Hv H0] H1].
    assert (Hf : finite s = true).
    { destruct s as [s|s| |s m e]; try reflexivity; try discriminate; try exact Hv.
      destruct s; discriminate. }
    split; [assumption|].
    rewrite ltb_val in H0, H1 by (assumption || reflexivity).
    rewrite val_zero in H0. rewrite val_one in H1.
    apply Z.ltb_lt in H0. apply Z.ltb_lt in H1. lia.
  - intros [Hf [H0 H1]].
    rewrite !ltb_val by (assumption || reflexivity). rewrite val_zero, val_one.
    repeat split; try (apply Z.ltb_lt; assumption).
    destruct s; try discriminate; try reflexivity. exact Hf.
Qed.

(** Multiplying by the direction is exact. *)
Lemma mul_direction (d x : F32.float) :
  unitDirection d -> finite x = true -> Z.abs (val x) <= U ->
  finite (F32.mul d x) = true /\
  val (F32.mul d x) = (if F32.ltb d F32.zero then - val x else val x).
Proof.
  intros Hd Hx Bx. pose proof U_small.
  destruct Hd as [-> | ->].
  - destruct (mul_val F32.one x) as [Hf Hv]; try (reflexivity || assumption || lia).
    split; [assumption|]. rewrite Hv, val_one, Z.mul_comm. change (F32.ltb F32.one F32.zero) with false.
    apply rnd_val_U. assumption.
  - destruct (mul_val F32.minus_one x) as [Hf Hv]; try (reflexivity || assumption || lia).
    split; [assumption|]. rewrite Hv, val_minus_one. change (F32.ltb F32.minus_one F32.zero) with true.
    replace (- U * val x) with (- (val x * U)) by ring.
    rewrite rnd_opp, rnd_val_U by assumption. reflexivity.
Qed.

Section Tick.

Variables (S0 : Z) (a : ToggleAnimation.t).
Hypothesis HS0 : S0 <= U.
Hypothesis Hrun : running S0 a.

Lemma tick_speed :
  finite (speed (tick a)) = true /\
  val (speed (tick a)) = rnd 149 (val (speed a) * val (deceleration a)) /\
  0 <= val (speed (tick a)) <= val (speed a).
Proof.
  destruct Hrun as [_ _ _ Hsf Hs Hdf Hd]. pose proof U_small.
  destruct (mul_val (speed a) (deceleration a)) as [Hf Hv]; try assumption; try lia.
  change (speed (tick a)) with (F32.mul (speed a) (deceleration a)).
  split; [assumption|]. split; [assumption|]. rewrite Hv. split.
  - change 0 with (rnd 149 0). apply rnd_mono; [lia|]. apply Z.mul_nonneg_nonneg; lia.
  - rewrite <- (rnd_val_U (speed a)) at 2 by assumption.
    apply rnd_mono; [lia|]. apply Z.mul_le_mono_nonneg_l; lia.
Qed.

Lemma tick_position :
  finite (position (tick a)) = true /\
  val (position (tick a))
  = rnd 0 (val (position a) + (if F32.ltb (direction a) F32.zero then - val (speed a) else val (speed a))).
Proof.
  destruct Hrun as [Hpf Hp Hdir Hsf Hs _ _]. pose proof U_small.
  destruct (mul_direction (direction a) (speed a) Hdir Hsf ltac:(lia)) as [Hmf Hmv].
  change (position (tick a)) with (F32.add (position a) (F32.mul (direction a) (speed a))).
  destruct (add_val (position a) (F32.mul (direction a) (speed a))) as [Hf Hv]; try assumption; try lia.
  { rewrite Hmv. destruct (F32.ltb _ _); lia. }
  split; [assumption|]. rewrite Hv, Hmv. reflexivity.
Qed.

Lemma done_spec :
  done a = (val (position (tick a)) <? val c0_001)
           || (val c0_999 <? val (position (tick a)))
           || (val (speed (tick a)) <? val c0_001).
Proof.
  destruct tick_position as [Hpf _]. destruct tick_speed as [Hsf _].
  change (done a) with (F32.ltb (position (tick a)) c0_001
                        || F32.ltb c0_999 (position (tick a))
                        || F32.ltb (speed (tick a)) c0_001).
  rewrite !ltb_val by (assumption || reflexivity). reflexivity.
Qed.

Lemma tick_running : done a = false -> running S0 (tick a).
Proof.
  intros Hnd. rewrite done_spec in Hnd.
  apply orb_false_iff in Hnd. destruct Hnd as [Hnd H3].
  apply orb_false_iff in Hnd. destruct Hnd as [H1 H2].
  apply Z.ltb_ge in H1, H2, H3.
  destruct tick_position as [Hpf _]. destruct tick_speed as [Hsf [_ Hsb]].
  pose proof val_c0_001_bounds.
  destruct Hrun as [_ _ Hdir _ Hs Hdf Hd].
  constructor; try assumption; lia.
Qed.

(** Where a tick can take the position. *)
Lemma tick_position_bounds :
  - S0 <= val (position (tick a)) <= rnd 0 (U + S0)
  /\ (direction a = F32.one -> val (position a) <= val (position (tick a)))
  /\ (direction a = F32.minus_one -> val (position (tick a)) <= val (position a)).
Proof.
  destruct tick_position as [_ Hv]. rewrite Hv.
  destruct Hrun as [Hpf Hp Hdir Hsf Hs _ _].
  assert (H0 : rnd 0 0 = 0) by reflexivity.
  pose proof (rnd_val (speed a) Hsf) as HS.
  assert (HU : rnd 0 U = U) by (rewrite <- val_one; apply rnd_val; reflexivity).
  pose proof (rnd_val (position a) Hpf) as HP.
  destruct Hdir as [E|E]; rewrite E.
  - change (F32.ltb F32.one F32.zero) with false. cbv iota.
    repeat split; try (intros; discriminate).
    + transitivity (rnd 0 0); [rewrite H0; lia|]. apply rnd_mono; lia.
    + apply rnd_mono; lia.
    + intros _. rewrite <- HP at 1. apply rnd_mono; lia.
  - change (F32.ltb F32.minus_one F32.zero) with true. cbv iota.
    repeat split; try (intros; discriminate).
    + transitivity (rnd 0 (- val (speed a))); [rewrite rnd_opp, HS; lia|]. apply rnd_mono; lia.
    + transitivity (rnd 0 U); [apply rnd_mono; lia|]. apply rnd_mono; lia.
    + intros _. rewrite <- HP at 2. apply rnd_mono; lia.
Qed.

End Tick.

(** ** A run of [ToggleAnimation] *)

Lemma val_maxDeceleration : val maxDeceleration = rnd 0 (U - val c0_001).
Proof. vm_compute. reflexivity. Qed.
Lemma maxDeceleration_gap : 2 ^ 126 <= U - val maxDeceleration.
Proof. vm_compute. discriminate. Qed.

Lemma finite_positive_inv (x : F32.float) :
  finite x = true -> 0 < val x ->
  exists m e, x = S754_finite false m e /\ bounded F32.prec F32.emax m e = true
              /\ val x = Zpos m * 2 ^ (e + 149).
Proof.
  intros Hf Hv. destruct x as [s|s| |s m e]; try discriminate; try (cbn in Hv; lia).
  assert (Hp : 0 < Zpos m * 2 ^ (e - SpecFloat.emin F32.prec F32.emax)).
  { apply bounded_inv in Hf. apply Z.mul_pos_pos; [lia | apply Z.pow_pos_nonneg; lia]. }
  destruct s.
  - exfalso. unfold val in Hv. cbn [Rounding.B2Z cond_Zopp] in Hv. lia.
  - exists m, e. split; [reflexivity|]. split; [exact Hf|].
    reflexivity.
Qed.

(** While the speed is above the threshold, a tick makes it strictly smaller. *)
Lemma speed_decreases (x d : F32.float) :
  finite x = true -> val c0_001 <= val x ->
  0 <= val d <= val maxDeceleration ->
  rnd 149 (val x * val d) < val x.
Proof.
  intros Hx Hlo Hd. pose proof val_c0_001_bounds as [Hc _].
  destruct (finite_positive_inv x Hx ltac:(lia)) as [m [e [-> [Hb Hv]]]].
  rewrite Hv in *. clear Hv.
  apply bounded_inv in Hb. destruct Hb as [He [Hdm Hn]].
  change (SpecFloat.emin F32.prec F32.emax) with (-149) in *. change F32.prec with 24 in *.
  change F32.emax with 128 in *.
  assert (Hne : -149 < e).
  { destruct (Z.eq_dec e (-149)) as [->|]; [exfalso|lia].
    change (2 ^ (-149 + 149)) with 1 in Hlo. rewrite Z.mul_1_r in Hlo.
    pose proof (Zdigits2_bounds (Zpos m) ltac:(lia)) as [_ Hhi].
    assert (2 ^ Zdigits2 (Zpos m) <= 2 ^ 24) by (apply Z.pow_le_mono_r; lia).
    assert (2 ^ 24 < val c0_001) by reflexivity. lia. }
  specialize (Hn Hne).
  pose proof (Zdigits2_bounds (Zpos m) ltac:(lia)) as [Hm23 _]. rewrite Hn in Hm23.
  change (2 ^ (24 - 1)) with 8388608 in Hm23.
  set (E := 2 ^ (e + 149)) in *.
  assert (HE : 0 < E) by (apply Z.pow_pos_nonneg; lia).
  set (Y := (Zpos m - 1) * E).
  assert (HY : rnd 149 (Y * U) = Y).
  { unfold rnd, Rounding.rndZ. unfold Y, E, U.
    replace ((Z.pos m - 1) * 2 ^ (e + 149) * 2 ^ 149) with ((Zpos m - 1) * 2 ^ (e + 298))
      by (rewrite <- Z.mul_assoc, <- Z.pow_add_r by lia; f_equal; f_equal; lia).
    assert (0 < (Zpos m - 1) * 2 ^ (e + 298))
      by (apply Z.mul_pos_pos; [lia | apply Z.pow_pos_nonneg; lia]).
    rewrite Z.sgn_pos, Z.abs_eq, Z.mul_1_l by lia.
    rewrite (RZ_exact_multiple F32.prec 149 (Zpos m - 1) (e + 298)); try lia.
    - f_equal. f_equal. lia.
    - change F32.prec with 24. rewrite <- Hn. apply Zdigits2_le; lia. }
  apply Z.le_lt_trans with (rnd 149 (Y * U)); [|rewrite HY; unfold Y; lia].
  apply rnd_mono; [lia|].
  pose proof maxDeceleration_gap as Hgap.
  assert (H1 : Zpos m * E * val d <= Zpos m * E * val maxDeceleration)
    by (apply Z.mul_le_mono_nonneg_l; lia).
  assert (H2 : U <= Zpos m * (U - val maxDeceleration)).
  { transitivity (8388608 * 2 ^ 126); [unfold U; apply Z.eq_le_incl; reflexivity|].
    apply Z.mul_le_mono_nonneg; lia. }
  assert (H3 : E * U <= E * (Zpos m * (U - val maxDeceleration)))
    by (apply Z.mul_le_mono_nonneg_l; lia).
  unfold Y. lia.
Qed.

Lemma ticks_running (S0 : Z) (n : nat) :
  S0 <= U -> forall a, running S0 a ->
  (forall k, (k < n)%nat -> done (ticks k a) = false) -> running S0 (ticks n a).
Proof.
  intros HS0. induction n as [|n IH]; intros a Hr Hnd; [assumption|].
  simpl. apply IH.
  - apply (tick_running S0 a HS0 Hr). apply (Hnd 0%nat). lia.
  - intros k Hk. apply (Hnd (S k)). lia.
Qed.

(** Every run settles. *)
Lemma settles (S0 : Z) :
  S0 <= U ->
  forall x, 0 <= x -> forall a, running S0 a -> val (speed a) = x ->
  val (deceleration a) <= val maxDeceleration ->
  exists n, done (ticks n a) = true
            /\ (forall k, (k < n)%nat -> done (ticks k a) = false)
            /\ running S0 (ticks n a).
Proof.
  intros HS0 x Hx. pattern x. apply Z_lt_induction; [|assumption].
  clear x Hx. intros x IH a Hr Hs Hd.
  destruct (done a) eqn:Edone.
  - exists 0%nat. split; [assumption|]. split; [intros k Hk; lia | assumption].
  - pose proof (tick_running S0 a HS0 Hr Edone) as Hr'.
    pose proof (tick_speed S0 a HS0 Hr) as [Hsf [Hsv Hsb]].
    pose proof Edone as Edone0.
    rewrite (done_spec S0 a HS0 Hr) in Edone.
    apply orb_false_iff in Edone. destruct Edone as [_ H3]. apply Z.ltb_ge in H3.
    assert (Hlt : val (speed (tick a)) < val (speed a)).
    { rewrite Hsv. apply speed_decreases.
      - apply Hr.
      - lia.
      - destruct Hr as [_ _ _ _ _ _ Hdec]. lia. }
    pose proof val_c0_001_bounds as [Hc _].
    destruct (IH (val (speed (tick a))) ltac:(lia) (tick a) Hr' eq_refl Hd) as [n [Hn1 [Hn2 Hn3]]].
    exists (S n). split; [assumption|]. split; [|assumption].
    intros [|k] Hk; [exact Edone0 | apply Hn2; lia].
Qed.

Lemma rnd_2U : rnd 0 (U + U) = U + U. Proof. vm_compute. reflexivity. Qed.
Lemma rnd_U : rnd 0 U = U. Proof. vm_compute. reflexivity. Qed.
Lemma rnd_0 (c : Z) : rnd c 0 = 0. Proof. reflexivity. Qed.

Lemma flip_direction (d : F32.float) :
  unitDirection d ->
  unitDirection (F32.mul d F32.minus_one)
  /\ F32.ltb (F32.mul d F32.minus_one) F32.zero = negb (F32.ltb d F32.zero).
Proof. intros [-> | ->]; split; try reflexivity; [right | left]; reflexivity. Qed.

Lemma start_running (s : F32.float) (a : t) :
  inUnitRange (position a) = true -> unitDirection (direction a) -> validSpeed s = true ->
  running (val s) (start s a)
  /\ val s <= U
  /\ (val c0_001 <= val s -> val (deceleration (start s a)) <= val maxDeceleration).
Proof.
  intros Hp Hd Hs. apply inUnitRange_spec in Hp. destruct Hp as [Hpf Hp].
  apply validSpeed_spec in Hs. destruct Hs as [Hsf Hs].
  pose proof U_small. pose proof U_pos.
  destruct (sub_val F32.one s) as [Hdf Hdv];
    try (reflexivity || assumption || (rewrite ?val_one; lia)).
  rewrite val_one in Hdv.
  assert (Hdb : 0 <= val (F32.sub F32.one s) <= U).
  { rewrite Hdv. split.
    - apply Z.le_trans with (rnd 0 0); [rewrite rnd_0; lia | apply rnd_mono; lia].
    - apply Z.le_trans with (rnd 0 U); [apply rnd_mono; lia | rewrite rnd_U; lia]. }
  split; [|split; [lia|]].
  - constructor; cbn [position direction speed deceleration start]; try assumption; try lia.
    apply flip_direction. assumption.
  - intros Hlo. cbn [deceleration start]. rewrite Hdv, val_maxDeceleration. apply rnd_mono; lia.
Qed.

(** [finish] brings any position the animation can be at to one of the two ends. *)
Lemma finish_spec (b : t) :
  finite (position b) = true -> Z.abs (val (position b)) <= U + U ->
  unitDirection (direction b) ->
  finite (position (finish b)) = true
  /\ 0 <= val (position (finish b)) <= U
  /\ (direction b = F32.one -> 0 <= val (position b) -> val (position (finish b)) = U)
  /\ (direction b = F32.minus_one -> val (position b) <= U -> val (position (finish b)) = 0).
Proof.
  intros Hpf Hp Hd. pose proof U_small. pose proof U_pos.
  assert (Hdf : finite (direction b) = true) by (destruct Hd as [-> | ->]; reflexivity).
  assert (Hdv : val (direction b) = U \/ val (direction b) = - U)
    by (destruct Hd as [-> | ->]; [left | right]; reflexivity).
  destruct (add_val (position b) (direction b)) as [Hf Hv]; try assumption; try lia.
  change (position (finish b))
    with (Juce.jlimit F32.zero F32.one (F32.add (position b) (direction b))).
  set (v := F32.add (position b) (direction b)) in *.
  unfold Juce.jlimit.
  rewrite (ltb_val v F32.zero), (ltb_val F32.one v) by (assumption || reflexivity).
  rewrite val_zero, val_one.
  assert (Hone : forall P, val (position b) + val (direction b) = P -> U <= P -> U <= val v).
  { intros P <- HP. rewrite Hv.
    apply Z.le_trans with (rnd 0 U); [rewrite rnd_U; lia | apply rnd_mono; lia]. }
  assert (Hzero : forall P, val (position b) + val (direction b) = P -> P <= 0 -> val v <= 0).
  { intros P <- HP. rewrite Hv.
    apply Z.le_trans with (rnd 0 0); [apply rnd_mono; lia | rewrite rnd_0; lia]. }
  destruct (Z.ltb_spec (val v) 0) as [L0|L0]; [|destruct (Z.ltb_spec U (val v)) as [L1|L1]].
  - rewrite val_zero. repeat split; try lia.
    intros E Hpos. exfalso. assert (U <= val v); [|lia].
    apply (Hone _ eq_refl). rewrite E, val_one. lia.
  - rewrite val_one. repeat split; try lia.
    intros E Hle. exfalso. assert (val v <= 0); [|lia].
    apply (Hzero _ eq_refl). rewrite E, val_minus_one. lia.
  - repeat split; try assumption; try lia.
    + intros E Hpos. assert (U <= val v); [|lia].
      apply (Hone _ eq_refl). rewrite E, val_one. lia.
    + intros E Hle. assert (val v <= 0); [|lia].
      apply (Hzero _ eq_refl). rewrite E, val_minus_one. lia.
Qed.

Lemma tick_position_abs (S0 : Z) (a : t) :
  S0 <= U -> running S0 a -> Z.abs (val (position (tick a))) <= U + U.
Proof.
  intros HS0 Hr. pose proof (tick_position_bounds S0 a HS0 Hr) as [[Hlo Hhi] _].
  assert (rnd 0 (U + S0) <= rnd 0 (U + U)) by (apply rnd_mono; lia).
  rewrite rnd_2U in *. pose proof U_pos.
  destruct Hr as [_ _ _ _ Hs _ _]. lia.
Qed.

Lemma finish_tick_exact (S0 : Z) (b : t) :
  S0 <= U -> running S0 b ->
  let p := position (finish (tick b)) in
  F32.eqb p F32.zero = true \/ F32.eqb p F32.one = true.
Proof.
  intros HS0 Hr p.
  pose proof (tick_position S0 b HS0 Hr) as [Hpf _].
  pose proof (tick_position_abs S0 b HS0 Hr) as Habs.
  pose proof (tick_position_bounds S0 b HS0 Hr) as [_ [Hup Hdown]].
  assert (Hd : unitDirection (direction (tick b))) by apply Hr.
  destruct (finish_spec (tick b) Hpf Habs Hd) as [Hf [_ [H1 H0]]].
  fold p in Hf, H1, H0. change (direction (tick b)) with (direction b) in *.
  destruct Hr as [_ Hp _ _ _ _ _].
  destruct Hd as [E|E].
  - right. rewrite eqb_val by (assumption || reflexivity). rewrite val_one.
    apply Z.eqb_eq. apply H1; [assumption|]. specialize (Hup E). lia.
  - left. rewrite eqb_val by (assumption || reflexivity). rewrite val_zero.
    apply Z.eqb_eq. apply H0; [assumption|]. specialize (Hdown E). lia.
Qed.

(** *** Signs and comparisons that hold for every float *)

Lemma binary_round_aux_sign (s : bool) (m e : Z) (l : location) :
  match binary_round_aux F32.prec F32.emax s m e l with
  | S754_zero s' | S754_infinity s' | S754_finite s' _ _ => s' = s
  | S754_nan => True
  end.
Proof.
  unfold binary_round_aux.
  destruct (shr_fexp F32.prec F32.emax m e l) as [mrs' e'].
  destruct (shr_fexp F32.prec F32.emax _ e' loc_Exact) as [mrs'' e''].
  destruct (shr_m mrs''); [reflexivity | | exact I].
  destruct (e'' <=? F32.emax - F32.prec); reflexivity.
Qed.

Lemma positive_times_minus_one (d : F32.float) :
  F32.ltb F32.zero d = true -> F32.ltb F32.zero (F32.mul d F32.minus_one) = false.
Proof.
  destruct d as [s|s| |s m e]; try discriminate; destruct s; try discriminate; intros _.
  - reflexivity.
  - unfold F32.mul, F32.minus_one. cbn [SFmul xorb].
    pose proof (binary_round_aux_sign true (Zpos (m * 8388608)) (e + -23) loc_Exact) as H.
    destruct (binary_round_aux _ _ _ _ _ _) as [s'|s'| |s' m' e']; try subst s'; reflexivity.
Qed.

Lemma negative_times_minus_one (d : F32.float) :
  F32.ltb d F32.zero = true -> F32.ltb (F32.mul d F32.minus_one) F32.zero = false.
Proof.
  destruct d as [s|s| |s m e]; try discriminate; destruct s; try discriminate; intros _.
  - reflexivity.
  - unfold F32.mul, F32.minus_one. cbn [SFmul xorb].
    pose proof (binary_round_aux_sign false (Zpos (m * 8388608)) (e + -23) loc_Exact) as H.
    destruct (binary_round_aux _ _ _ _ _ _) as [s'|s'| |s' m' e']; try subst s'; reflexivity.
Qed.

Lemma above_0_85_not_below_0_15 (x : F32.float) :
  F32.ltb c0_85 x = true -> F32.ltb x c0_15 = false.
Proof.
  destruct x as [s|s| |s m e]; try discriminate; destruct s; try discriminate; try reflexivity.
  unfold F32.ltb, SFltb, c0_85, c0_15, SFcompare.
  destruct (Z.compare_spec (-24) e) as [E|L|G]; try discriminate.
  - subst e. intros _. reflexivity.
  - intros _. destruct (Z.compare_spec e (-26)) as [E'|L'|G']; try lia; reflexivity.
Qed.

(** ** Running the member functions of [RollsSwitchingProxy] *)

Import Juce RollsSwitchingProxy.

Lemma exec_bind {A B : Type} (m : M A) (k : A -> M B) (p : t) :
  exec (bind m k) p = exec (k (fst (m p))) (exec m p).
Proof. unfold exec, bind. destruct (m p). reflexivity. Qed.

Lemma fst_bind {A B : Type} (m : M A) (k : A -> M B) (p : t) :
  fst (bind m k p) = fst (k (fst (m p)) (exec m p)).
Proof. unfold exec, bind. destruct (m p). reflexivity. Qed.

(** Symbolic execution of the member functions: unfold them, then run the
    primitives one at a time, splitting on every condition met on the way. *)
Ltac proxy_prim :=
  unfold isTimerRunning, isPianoRollMode, isPatternRollMode, isProjectMapVisible,
    isEditorPanelVisible, isFullProjectMapMode, areAnimationsEnabled,
    rollsAnimation, mapsAnimation, scrollerModeAnimation, when in *;
  cbn [exec fst snd ret gets modify when
       setEnabled setVisible setBounds setTopLeftPosition updateChild updateAnimation
       setTimer startTimer stopTimer setScrollerMode setMapsScrollerAnimationsEnabled
       switchToRoll setAnimationsTimerInterval setSize
       isTimerRunning isPianoRollMode isPatternRollMode isProjectMapVisible
       isEditorPanelVisible isFullProjectMapMode areAnimationsEnabled
       rollsAnimation mapsAnimation scrollerModeAnimation
       width height child mapsScrollerMode mapsScrollerAnimationsEnabled mapsScrollerRoll
       editorsScrollerRoll animationsTimerInterval animation timer
       Child_eqb Timers_eqb
       setEnabledW setVisibleW setBoundsW setTopLeftPositionW enabled visible bounds
       negb andb orb xorb] in *.

Ltac proxy_exec :=
  unfold handle, setAnimationsEnabled, startRollSwitchAnimation, startMapSwitchAnimation,
    startScrollerModeSwitchAnimation, timerCallback, tickAndCheckIfDone, resized,
    updateAnimatedRollsBounds, updateAnimatedRollsPositions,
    updateAnimatedMapsBounds, updateAnimatedMapsPositions;
  proxy_prim;
  repeat first
    [ rewrite exec_bind; proxy_prim
    | rewrite fst_bind; proxy_prim
    | match goal with
      | |- context [exec (if ?b then _ else _) _] => destruct b eqn:?; proxy_prim
      end ].

Section Invariants.

Variable ui : Globals.

Lemma rollsInvariant_construct r1 r2 v1 v2 ms es sh showFull :
  rollsInvariant (construct r1 r2 v1 v2 ms es sh showFull).
Proof.
  unfold rollsInvariant, construct, bothRollsVisible.
  destruct showFull; proxy_exec; intros; discriminate.
Qed.

Lemma rollsInvariant_handle (p : t) (e : Event) :
  rollsInvariant p -> possible e p = true -> rollsInvariant (exec (handle ui e) p).
Proof.
  unfold rollsInvariant, bothRollsVisible. intros H2 Hpos.
  destruct e as [b| | | |w h|id]; [| | | | |destruct id]; proxy_exec.
  all: try assumption.
  all: try reflexivity.
  all: try (intros; discriminate).
Qed.

End Invariants.

Lemma running_weaken (S0 S1 : Z) (a : ToggleAnimation.t) :
  S0 <= S1 -> running S0 a -> running S1 a.
Proof. intros H [H1 H2 H3 H4 H5 H6 H7]. constructor; try assumption. lia. Qed.

Lemma running_init : running U init.
Proof. constructor; try reflexivity; try (split; discriminate). right. reflexivity. Qed.

Lemma running_resetToEnd (a : ToggleAnimation.t) : running U a -> running U (resetToEnd a).
Proof.
  intros [H1 H2 H3 H4 H5 H6 H7]. constructor; cbn [resetToEnd position direction speed deceleration];
    try assumption; try reflexivity.
  - split; discriminate.
  - left. reflexivity.
Qed.

Lemma running_start (s : F32.float) (a : ToggleAnimation.t) :
  validSpeed s = true -> running U a -> running U (start s a).
Proof.
  intros Hs Hr.
  assert (Hp : inUnitRange (position a) = true)
    by (apply inUnitRange_spec; split; apply Hr).
  destruct (start_running s a Hp ltac:(apply Hr) Hs) as [H [HU _]].
  apply (running_weaken (val s)); assumption.
Qed.

Lemma running_finish (a : ToggleAnimation.t) : running U a -> running U (finish a).
Proof.
  intros [H1 H2 H3 H4 H5 H6 H7]. pose proof U_pos.
  destruct (finish_spec a H1 ltac:(lia) H3) as [Hf [Hv _]].
  constructor; cbn [finish direction speed deceleration]; assumption.
Qed.

Lemma running_tick (a : ToggleAnimation.t) : running U a -> done a = false -> running U (tick a).
Proof. intros Hr Hd. apply (tick_running U a (Z.le_refl U) Hr Hd). Qed.

Lemma running_finish_tick (a : ToggleAnimation.t) : running U a -> running U (finish (tick a)).
Proof.
  intros Hr.
  pose proof (tick_position U a (Z.le_refl U) Hr) as [Hpf _].
  pose proof (tick_position_abs U a (Z.le_refl U) Hr) as Habs.
  pose proof (tick_speed U a (Z.le_refl U) Hr) as [Hsf [_ Hsb]].
  destruct (finish_spec (tick a) Hpf Habs ltac:(apply Hr)) as [Hf [Hv _]].
  destruct Hr as [H1 H2 H3 H4 H5 H6 H7].
  constructor; try assumption. change (speed (finish (tick a))) with (speed (tick a)). lia.
Qed.

Lemma validSpeed_rolls : validSpeed rollsAnimationStartSpeed = true. Proof. reflexivity. Qed.

(** Started at the speed of the rolls and pushed to its end right away, an
    animation is done at the next tick. *)
Lemma done_finish_start (a : ToggleAnimation.t) :
  running U a -> done (finish (start rollsAnimationStartSpeed a)) = true.
Proof.
  intros Hr.
  assert (Hp : inUnitRange (position a) = true)
    by (apply inUnitRange_spec; split; apply Hr).
  destruct (start_running rollsAnimationStartSpeed a Hp ltac:(apply Hr) validSpeed_rolls)
    as [Hs [HU _]].
  set (a1 := start rollsAnimationStartSpeed a) in *.
  assert (Hr1 : running U a1) by (apply running_start; [reflexivity | assumption]).
  pose proof (running_finish a1 Hr1) as Hr2.
  destruct Hs as [H1 H2 H3 H4 H5 H6 H7]. pose proof U_pos.
  destruct (finish_spec a1 H1 ltac:(lia) H3) as [_ [_ [Hone Hzero]]].
  rewrite (done_spec U _ (Z.le_refl U) Hr2).
  destruct (tick_position U _ (Z.le_refl U) Hr2) as [_ Hv]. rewrite Hv.
  change (direction (finish a1)) with (direction a1).
  change (speed (finish a1)) with rollsAnimationStartSpeed.
  destruct H3 as [E|E]; rewrite E.
  - rewrite (Hone E ltac:(lia)). apply orb_true_iff. left. apply orb_true_iff. right.
    vm_compute. reflexivity.
  - rewrite (Hzero E ltac:(lia)). apply orb_true_iff. left. apply orb_true_iff. left.
    vm_compute. reflexivity.
Qed.

Section Reachable.

Variable ui : Globals.

Lemma animationsInvariant_construct r1 r2 v1 v2 ms es sh showFull :
  animationsInvariant (construct r1 r2 v1 v2 ms es sh showFull).
Proof.
  unfold animationsInvariant, construct. intros id.
  destruct showFull; proxy_exec; destruct id; cbn [Timers_eqb];
    try apply running_resetToEnd; apply running_init.
Qed.

Lemma animationsInvariant_handle (p : RollsSwitchingProxy.t) (e : Event) :
  animationsInvariant p -> animationsInvariant (exec (handle ui e) p).
Proof.
  unfold animationsInvariant. intros H.
  destruct e as [b| | | |w h|id]; [| | | | |destruct id]; proxy_exec; intros id'; destruct id';
    cbn [Timers_eqb]; try apply H.
  all: repeat first
         [ apply running_finish_tick
         | apply running_tick; [|assumption]
         | apply running_finish
         | apply running_start; [reflexivity|]
         | apply H ].
Qed.

Lemma reachable_invariants (p : RollsSwitchingProxy.t) :
  reachable ui p -> rollsInvariant p /\ animationsInvariant p.
Proof.
  induction 1 as [r1 r2 v1 v2 ms es sh showFull | p e Hr [IH1 IH2] Hpos].
  - split; [apply rollsInvariant_construct | apply animationsInvariant_construct].
  - split; [apply rollsInvariant_handle; assumption | apply animationsInvariant_handle; assumption].
Qed.

End Reachable.

(** ** Auxiliary lemmas *)

Lemma neg_val (x : F32.float) :
  finite (F32.neg x) = finite x /\ val (F32.neg x) = - val x.
Proof. split; [apply fin_opp | apply B2Z_opp]. Qed.

Lemma neverStarted_inv (a : ToggleAnimation.t) :
  neverStarted a ->
  speed a = F32.zero /\ deceleration a = F32.one
  /\ ((position a = F32.zero /\ direction a = F32.minus_one)
      \/ (position a = F32.one /\ direction a = F32.one)).
Proof.
  induction 1 as [|a H [IHs [IHd _]]|a H [IHs [IHd _]]].
  - repeat split. left. split; reflexivity.
  - cbn [resetToStart speed deceleration position direction]. repeat split; try assumption.
    left. split; reflexivity.
  - cbn [resetToEnd speed deceleration position direction]. repeat split; try assumption.
    right. split; reflexivity.
Qed.

Lemma to_int_add_zero (v : F32.float) : F32.to_int (F32.add (F32.of_int 0) v) = F32.to_int v.
Proof. destruct v as [s|s| |s m e]; try destruct s; reflexivity. Qed.

Lemma wrap_id (n : Z) : F32.INT_MIN <= n <= F32.INT_MAX -> wrap n = n.
Proof.
  unfold wrap, F32.INT_MIN, F32.INT_MAX. intros H. rewrite Z.mod_small; lia.
Qed.

Lemma spanFits_spec (u v : Z) :
  spanFits u v = true ->
  F32.INT_MIN + 10 <= Z.min u v /\ Z.max u v <= F32.INT_MAX - 10
  /\ Z.abs (u - v) + 20 <= F32.INT_MAX.
Proof. unfold spanFits. rewrite !andb_true_iff, !Z.leb_le. lia. Qed.

(** One side of the rectangle [updateBounds] makes of two pixels. *)
Lemma expanded_span (u v : Z) :
  spanFits u v = true ->
  let w := wrap (u - v) in
  wrap (Z.min u v - 10) = Z.min u v - 10
  /\ Z.max 0 (wrap ((if w <? 0 then wrap (- w) else w) + wrap (10 * 2)))
     = Z.abs (u - v) + 20.
Proof.
  intros H. apply spanFits_spec in H. cbv zeta.
  unfold F32.INT_MIN, F32.INT_MAX in H.
  assert (W : forall n, - 2 ^ 31 <= n <= 2 ^ 31 - 1 -> wrap n = n)
    by (intros n Hn; apply wrap_id; unfold F32.INT_MIN, F32.INT_MAX; lia).
  split; [apply W; lia|].
  rewrite (W (u - v)) by lia. rewrite (W (10 * 2)) by lia.
  destruct (Z.ltb_spec (u - v) 0).
  - rewrite (W (- (u - v))) by lia. rewrite W by lia. lia.
  - rewrite W by lia. lia.
Qed.

Lemma expanded_corners (a b : Point Z) :
  boxFits a b = true ->
  expanded 10 (fromCorners a b)
  = mkRectangle (Z.min (px a) (px b) - 10) (Z.min (py a) (py b) - 10)
                (Z.abs (px a - px b) + 20) (Z.abs (py a - py b) + 20).
Proof.
  unfold boxFits. rewrite andb_true_iff. intros [Hx Hy].
  destruct (expanded_span _ _ Hx) as [X1 X2]. destruct (expanded_span _ _ Hy) as [Y1 Y2].
  cbv zeta in X2, Y2.
  unfold expanded, fromCorners. cbn [rx ry rw rh]. rewrite X1, Y1, X2, Y2. reflexivity.
Qed.

Lemma expanded_corners_edges (a b : Point Z) (c : Connector.MergingEventsConnector) :
  boxFits a b = true ->
  let r := Connector.connectorBounds (Connector.setBounds (expanded 10 (fromCorners a b)) c) in
  rx r = Z.min (px a) (px b) - 10
  /\ ry r = Z.min (py a) (py b) - 10
  /\ getRight r = Z.max (px a) (px b) + 10
  /\ getBottom r = Z.max (py a) (py b) + 10.
Proof.
  intros H. rewrite (expanded_corners a b H).
  unfold Connector.setBounds, getRight, getBottom.
  cbn [Connector.connectorBounds rx ry rw rh]. lia.
Qed.

Lemma toInt_getRelativePoint (w h : Z) (relative : Point F32.float) :
  toInt (getRelativePoint (Connector.parentLocalBounds w h) relative) = anchorPixel w h relative.
Proof.
  unfold toInt, getRelativePoint, Connector.parentLocalBounds, anchorPixel. cbn [px py rx ry rw rh].
  rewrite !to_int_add_zero. reflexivity.
Qed.

(** ** Lemmas for the further properties *)

(** ** Conversions between [int] and [float] *)

Lemma truncate_val (x : F32.float) :
  finite x = true -> F32.truncate x = Z.quot (val x) U.
Proof.
  destruct x as [s|s| |s m e]; try discriminate; intros Hf.
  - reflexivity.
  - pose proof (fin_emin F32.prec F32.emax s m e Hf) as He.
    change (SpecFloat.emin F32.prec F32.emax) with (-149) in He.
    unfold val. cbn [Rounding.B2Z F32.truncate].
    change (SpecFloat.emin F32.prec F32.emax) with (-149).
    assert (HU : 0 < U) by reflexivity.
    assert (Hq : Z.quot (Zpos m * 2 ^ (e - -149)) U
                 = match e with Zneg k => Z.shiftr (Zpos m) (Zpos k) | _ => Z.shiftl (Zpos m) e end).
    { rewrite Z.quot_div_nonneg by (try apply Z.mul_nonneg_nonneg; try apply Z.pow_nonneg; lia).
      destruct e as [|k|k].
      - change (2 ^ (0 - -149)) with U. rewrite Z.div_mul by lia. reflexivity.
      - replace (2 ^ (Zpos k - -149)) with (2 ^ Zpos k * U)
          by (unfold U; rewrite <- Z.pow_add_r by lia; f_equal; lia).
        rewrite Z.mul_assoc, Z.div_mul by lia. rewrite Z.shiftl_mul_pow2 by lia. reflexivity.
      - rewrite Z.shiftr_div_pow2 by lia.
        replace U with (2 ^ Zpos k * 2 ^ (Zneg k - -149))
          by (unfold U; rewrite <- Z.pow_add_r by lia; f_equal; lia).
        rewrite Z.div_mul_cancel_r; try (apply Z.pow_nonzero; lia). reflexivity. }
    destruct s; cbn [cond_Zopp].
    + rewrite Z.quot_opp_l by lia. rewrite Hq. reflexivity.
    + symmetry. exact Hq.
Qed.

Lemma to_int_val (x : F32.float) :
  finite x = true -> F32.INT_MIN <= Z.quot (val x) U <= F32.INT_MAX ->
  F32.to_int x = Z.quot (val x) U.
Proof.
  intros Hf Hr. rewrite <- (truncate_val x Hf) in *.
  unfold F32.to_int. destruct x; try discriminate.
  - reflexivity.
  - destruct (Z.leb_spec F32.INT_MIN (F32.truncate (S754_finite s m e))); [|lia].
    destruct (Z.leb_spec (F32.truncate (S754_finite s m e)) F32.INT_MAX); [|lia].
    reflexivity.
Qed.

Lemma rnd_exact_int (n : Z) : Z.abs n <= 2 ^ 24 -> rnd 0 (n * U) = n * U.
Proof.
  intros Hn.
  assert (Hpos : forall q, 0 < q <= 2 ^ 24 -> Rounding.RZ F32.prec 0 (q * U) = q * U).
  { intros q Hq. destruct (Z.eq_dec q (2 ^ 24)) as [->|Hne].
    - vm_compute. reflexivity.
    - unfold U. rewrite (RZ_exact_multiple F32.prec 0 q 149);
        [reflexivity | lia | lia | apply Zdigits2_lt_pow2; change F32.prec with 24; lia]. }
  unfold rnd, Rounding.rndZ.
  destruct (Z.lt_trichotomy n 0) as [H|[->|H]].
  - assert (0 < U) by reflexivity.
    rewrite Z.sgn_neg by nia. rewrite Z.abs_neq by nia.
    replace (- (n * U)) with ((- n) * U) by ring. rewrite Hpos by lia. ring.
  - reflexivity.
  - assert (0 < U) by reflexivity.
    rewrite Z.sgn_pos by nia. rewrite Z.abs_eq by nia. rewrite Hpos by lia. ring.
Qed.

Lemma of_int_val (n : Z) :
  Z.abs n <= 2 ^ 31 ->
  finite (F32.of_int n) = true /\ val (F32.of_int n) = rnd 0 (n * U).
Proof.
  intros Hn. unfold F32.of_int.
  rewrite <- (binary_normalize_shift F32.prec F32.emax prec32 n 0 149 false) by lia.
  change (0 - 149) with (SpecFloat.emin F32.prec F32.emax - 0).
  apply (binary_normalize_rndZ F32.prec F32.emax prec32 emax32); [lia|].
  pose proof (rndZ_abs_le F32.prec prec32 0 180 (n * 2 ^ 149)) as H.
  eapply Z.le_lt_trans; [apply H|]; try lia; try reflexivity.
Qed.

Lemma of_int_exact (n : Z) :
  Z.abs n <= 2 ^ 24 -> finite (F32.of_int n) = true /\ val (F32.of_int n) = n * U.
Proof.
  intros Hn. destruct (of_int_val n) as [Hf Hv]; [lia|].
  split; [assumption|]. rewrite Hv. apply rnd_exact_int. assumption.
Qed.

Lemma to_int_of_int (n : Z) : Z.abs n <= 2 ^ 24 -> F32.to_int (F32.of_int n) = n.
Proof.
  intros Hn. destruct (of_int_exact n Hn) as [Hf Hv].
  assert (0 < U) by reflexivity.
  rewrite to_int_val; rewrite ?Hv, ?Z.quot_mul by lia; try assumption; try reflexivity.
  unfold F32.INT_MIN, F32.INT_MAX. lia.
Qed.

(** ** What a member function leaves as it is *)

Section Preserves.

Variable R : RollsSwitchingProxy.t -> RollsSwitchingProxy.t -> Prop.

Hypothesis R_refl : forall p, R p p.

Hypothesis R_trans : forall p q r, R p q -> R q r -> R p r.

Lemma preserves_ret {A : Type} (a : A) : preserves R (ret a).
Proof. intros p. apply R_refl. Qed.

Lemma preserves_gets {A : Type} (f : RollsSwitchingProxy.t -> A) : preserves R (gets f).
Proof. intros p. apply R_refl. Qed.

Lemma preserves_bind {A B : Type} (m : M A) (k : A -> M B) :
  preserves R m -> (forall a, preserves R (k a)) -> preserves R (bind m k).
Proof.
  intros Hm Hk p. rewrite exec_bind. apply (R_trans _ (exec m p)); [apply Hm | apply Hk].
Qed.

Lemma preserves_if {A : Type} (b : bool) (m1 m2 : M A) :
  preserves R m1 -> preserves R m2 -> preserves R (if b then m1 else m2).
Proof. destruct b; intros; assumption. Qed.

Lemma preserves_when (b : bool) (m : M unit) : preserves R m -> preserves R (when b m).
Proof. intros H. unfold when. apply preserves_if; [assumption | apply preserves_ret]. Qed.

End Preserves.

Lemma sameMode_refl (p : RollsSwitchingProxy.t) : sameMode p p.
Proof. constructor; intros; reflexivity || assumption. Qed.

Lemma sameMode_trans (p q r : RollsSwitchingProxy.t) : sameMode p q -> sameMode q r -> sameMode p r.
Proof.
  intros [A1 A2 A3 A4 A5 A6 A7 A8 A9 A10] [B1 B2 B3 B4 B5 B6 B7 B8 B9 B10].
  constructor;
    [ intros c; rewrite B1; apply A1
    | intros c H; apply A2, B2; assumption
    | intros id; rewrite B3; apply A3
    | congruence .. ].
Qed.

Lemma sameButBounds_refl (p : RollsSwitchingProxy.t) : sameButBounds p p.
Proof. constructor; intros; try reflexivity. apply sameMode_refl. Qed.

Lemma sameButBounds_trans (p q r : RollsSwitchingProxy.t) :
  sameButBounds p q -> sameButBounds q r -> sameButBounds p r.
Proof.
  intros [A1 A2 A3 A4] [B1 B2 B3 B4].
  constructor; intros.
  - apply (sameMode_trans p q r); assumption.
  - rewrite B2. apply A2.
  - rewrite B3. apply A3.
  - rewrite B4. apply A4.
Qed.

(** The primitives. *)
Lemma sameButBounds_updateChild (c : Child) (f : Widget -> Widget) :
  (forall w, enabled (f w) = enabled w /\ visible (f w) = visible w) ->
  preserves sameButBounds (updateChild c f).
Proof.
  intros Hf p. unfold updateChild, exec, modify. cbn [snd].
  constructor; [constructor|..]; cbn [child animation timer mapsScrollerMode
    mapsScrollerAnimationsEnabled mapsScrollerRoll editorsScrollerRoll animationsTimerInterval
    width height]; try reflexivity; intros c'; destruct (Child_eqb c c');
    try reflexivity; try (intros H; exact H); try apply Hf.
  intros H. rewrite (proj2 (Hf _)) in H. exact H.
Qed.

Lemma sameButBounds_setBounds (c : Child) (r : Rectangle) :
  preserves sameButBounds (RollsSwitchingProxy.setBounds c r).
Proof. apply sameButBounds_updateChild. intros w. split; reflexivity. Qed.

Lemma sameButBounds_setTopLeftPosition (c : Child) (x y : Z) :
  preserves sameButBounds (setTopLeftPosition c x y).
Proof. apply sameButBounds_updateChild. intros w. split; reflexivity. Qed.

Lemma sameMode_of_sameButBounds {A : Type} (m : M A) :
  preserves sameButBounds m -> preserves sameMode m.
Proof. intros H p. apply H. Qed.

Lemma sameMode_hide (c : Child) : preserves sameMode (setVisible c false).
Proof.
  intros p. unfold setVisible, updateChild, exec, modify. cbn [snd].
  constructor; cbn [child animation timer mapsScrollerMode
    mapsScrollerAnimationsEnabled mapsScrollerRoll editorsScrollerRoll animationsTimerInterval
    width height]; try reflexivity; intros c'; destruct (Child_eqb c c');
    try reflexivity; try (intros H; exact H).
  cbn [setVisibleW visible]. intros; discriminate.
Qed.

Lemma sameMode_updateAnimation (id : Timers) (f : ToggleAnimation.t -> ToggleAnimation.t) :
  (forall a, direction (f a) = direction a) -> preserves sameMode (updateAnimation id f).
Proof.
  intros Hf p. unfold updateAnimation, exec, modify. cbn [snd].
  constructor; cbn [child animation timer mapsScrollerMode
    mapsScrollerAnimationsEnabled mapsScrollerRoll editorsScrollerRoll animationsTimerInterval
    width height]; try reflexivity; try (intros c H; exact H).
  intros id'. destruct (Timers_eqb id id'); [apply Hf | reflexivity].
Qed.

Lemma sameMode_setTimer (id : Timers) (v : option Z) : preserves sameMode (setTimer id v).
Proof.
  intros p. unfold setTimer, exec, modify. cbn [snd].
  constructor; cbn [child animation timer mapsScrollerMode
    mapsScrollerAnimationsEnabled mapsScrollerRoll editorsScrollerRoll animationsTimerInterval
    width height]; try reflexivity; intros c H; exact H.
Qed.

Ltac frame_bounds :=
  repeat first
    [ apply (preserves_bind sameButBounds sameButBounds_trans); [|intros ?]
    | apply (preserves_gets sameButBounds sameButBounds_refl)
    | apply (preserves_ret sameButBounds sameButBounds_refl)
    | apply sameButBounds_setBounds
    | apply sameButBounds_setTopLeftPosition ].

Section Frames.

Variable ui : Globals.

Lemma updateAnimatedRollsBounds_frame : preserves sameButBounds (updateAnimatedRollsBounds ui).
Proof. unfold updateAnimatedRollsBounds. frame_bounds. Qed.

Lemma updateAnimatedRollsPositions_frame : preserves sameButBounds (updateAnimatedRollsPositions ui).
Proof. unfold updateAnimatedRollsPositions. frame_bounds. Qed.

Lemma updateAnimatedMapsBounds_frame : preserves sameButBounds (updateAnimatedMapsBounds ui).
Proof. unfold updateAnimatedMapsBounds. frame_bounds. Qed.

Lemma updateAnimatedMapsPositions_frame : preserves sameButBounds (updateAnimatedMapsPositions ui).
Proof. unfold updateAnimatedMapsPositions. frame_bounds. Qed.

Lemma resized_frame : preserves sameButBounds (resized ui).
Proof.
  unfold resized. apply (preserves_bind sameButBounds sameButBounds_trans);
    [apply updateAnimatedRollsBounds_frame | intros _; apply updateAnimatedMapsBounds_frame].
Qed.

Ltac frame_mode :=
  repeat first
    [ apply sameMode_of_sameButBounds;
      first [ apply resized_frame | apply updateAnimatedRollsBounds_frame
            | apply updateAnimatedRollsPositions_frame | apply updateAnimatedMapsBounds_frame
            | apply updateAnimatedMapsPositions_frame ]
    | apply (preserves_bind sameMode sameMode_trans); [|intros ?]
    | apply (preserves_gets sameMode sameMode_refl)
    | apply (preserves_ret sameMode sameMode_refl)
    | apply (preserves_when sameMode sameMode_refl)
    | apply (preserves_if sameMode)
    | apply sameMode_hide
    | apply sameMode_setTimer
    | apply sameMode_updateAnimation; intros ?; reflexivity ].

Lemma timerCallback_frame (id : Timers) : preserves sameMode (timerCallback ui id).
Proof.
  destruct id; unfold timerCallback, tickAndCheckIfDone, stopTimer; frame_mode.
Qed.

End Frames.

(** The same for one reading of the state at a time. *)
Lemma keeps_refl {X : Type} (F : RollsSwitchingProxy.t -> X) (p : RollsSwitchingProxy.t) :
  keeps F p p.
Proof. reflexivity. Qed.

Lemma keeps_trans {X : Type} (F : RollsSwitchingProxy.t -> X) (p q r : RollsSwitchingProxy.t) :
  keeps F p q -> keeps F q r -> keeps F p r.
Proof. unfold keeps. intros H1 H2. rewrite H2. exact H1. Qed.

Lemma keeps_modify {X : Type} (F : RollsSwitchingProxy.t -> X)
  (f : RollsSwitchingProxy.t -> RollsSwitchingProxy.t) :
  (forall p, F (f p) = F p) -> preserves (keeps F) (modify f).
Proof. intros Hf p. apply Hf. Qed.

Ltac keeps_step :=
  lazymatch goal with
  | |- preserves (keeps ?F) (bind _ _) =>
      apply (preserves_bind (keeps F) (keeps_trans F)); [|intros ?]
  | |- preserves (keeps ?F) (gets _) => apply (preserves_gets (keeps F) (keeps_refl F))
  | |- preserves (keeps ?F) (ret _) => apply (preserves_ret (keeps F) (keeps_refl F))
  | |- preserves (keeps ?F) (when _ _) => apply (preserves_when (keeps F) (keeps_refl F))
  | |- preserves (keeps ?F) (if _ then _ else _) => apply (preserves_if (keeps F))
  | |- preserves (keeps ?F) (match ?id with rolls => _ | maps => _ | scrollerMode => _ end) =>
      destruct id
  | |- preserves (keeps ?F) (modify _) => apply (keeps_modify F); intros ?; reflexivity
  | |- preserves (keeps _) _ =>
      unfold setAnimationsEnabled, startRollSwitchAnimation, startMapSwitchAnimation,
        startScrollerModeSwitchAnimation, timerCallback, tickAndCheckIfDone, resized,
        updateAnimatedRollsBounds, updateAnimatedRollsPositions,
        updateAnimatedMapsBounds, updateAnimatedMapsPositions,
        setEnabled, setVisible, RollsSwitchingProxy.setBounds, setTopLeftPosition,
        updateChild, updateAnimation, setTimer, startTimer, stopTimer, setScrollerMode,
        setMapsScrollerAnimationsEnabled, switchToRoll, setAnimationsTimerInterval, setSize
  end.

Ltac keeps_all := repeat keeps_step.

Section Untouched.

Variable ui : Globals.

(** Nothing but [startRollSwitchAnimation] turns the rolls animation around. *)
Lemma rollsDirection_kept (e : Event) :
  match e with StartRollSwitchAnimation => False | _ => True end ->
  preserves (keeps rollsDirection) (handle ui e).
Proof.
  destruct e as [b| | | |w h|id]; intros He; try contradiction; unfold handle; keeps_all.
Qed.

End Untouched.

Section Readings.

Variable ui : Globals.

Lemma timerReading_kept (e : Event) (id : Timers) :
  owns e id = false -> preserves (keeps (timerReading id)) (handle ui e).
Proof.
  destruct e as [b| | | |w h|t]; [| | | | |destruct t]; destruct id; intros He;
    try discriminate; unfold handle; keeps_all.
Qed.

Lemma rollsReading_kept (e : Event) :
  match e with StartRollSwitchAnimation => False | _ => True end ->
  preserves (keeps rollsReading) (handle ui e).
Proof.
  destruct e as [b| | | |w h|id]; intros He; try contradiction; unfold handle; keeps_all.
Qed.

Lemma scrollerReading_kept (e : Event) :
  match e with StartScrollerModeSwitchAnimation => False | _ => True end ->
  preserves (keeps scrollerReading) (handle ui e).
Proof.
  destruct e as [b| | | |w h|id]; intros He; try contradiction; unfold handle; keeps_all.
Qed.

Lemma panelsReading_kept (e : Event) :
  match e with
  | StartMapSwitchAnimation | TimerCallback maps => False
  | _ => True
  end ->
  preserves (keeps panelsReading) (handle ui e).
Proof.
  destruct e as [b| | | |w h|id]; [| | | | |destruct id]; intros He; try contradiction;
    unfold handle; keeps_all.
Qed.

End Readings.

(** ** What an event does to the timer and the animation it owns *)

Lemma timerCallback_own (ui : Globals) (id : Timers) (p : RollsSwitchingProxy.t) :
  animation (exec (timerCallback ui id) p) id
  = (if done (animation p id) then finish (tick (animation p id)) else tick (animation p id))
  /\ timer (exec (timerCallback ui id) p) id
     = (if done (animation p id) then None else timer p id).
Proof. destruct id; proxy_exec; split; reflexivity. Qed.

Lemma timerCallback_others (ui : Globals) (id id' : Timers) (p : RollsSwitchingProxy.t) :
  Timers_eqb id id' = false ->
  animation (exec (timerCallback ui id) p) id' = animation p id'
  /\ timer (exec (timerCallback ui id) p) id' = timer p id'.
Proof.
  intros Hne. pose proof (timerReading_kept ui (TimerCallback id) id' Hne p) as H.
  unfold keeps, timerReading in H. cbn [handle] in H. injection H as H1 H2. split; assumption.
Qed.

Lemma timerCallback_maps_panels (ui : Globals) (p : RollsSwitchingProxy.t) :
  let a := animation p maps in
  let q := exec (timerCallback ui maps) p in
  visible (child q BottomMapsScroller)
  = (if done a && negb (isInDefaultState a) then false else visible (child p BottomMapsScroller))
  /\ visible (child q BottomEditorsScroller)
     = (if done a && isInDefaultState a then false else visible (child p BottomEditorsScroller)).
Proof.
  cbv zeta. proxy_exec;
    unfold isInDefaultState in *;
    change (direction (tick (animation p maps))) with (direction (animation p maps)) in *;
    destruct (F32.ltb (direction (animation p maps)) F32.zero); try discriminate;
    split; reflexivity.
Qed.

Lemma startRollSwitchAnimation_own (ui : Globals) (p : RollsSwitchingProxy.t) :
  let started := start rollsAnimationStartSpeed (animation p rolls) in
  let q := exec (startRollSwitchAnimation ui) p in
  animation q rolls
  = (if areAnimationsEnabled p then started
     else if done (finish started) then finish (tick (finish started))
          else tick (finish started))
  /\ timer q rolls
     = (if areAnimationsEnabled p then Some (animationsTimerInterval p)
        else if done (finish started) then None else timer p rolls).
Proof. cbv zeta. proxy_exec; split; reflexivity. Qed.

Lemma startRollSwitchAnimation_rolls (ui : Globals) (p : RollsSwitchingProxy.t) :
  let q := exec (startRollSwitchAnimation ui) p in
  let patternRollMode :=
    negb (isInDefaultState (start rollsAnimationStartSpeed (animation p rolls))) in
  mapsScrollerRoll q = (if patternRollMode then PatternRoll else PianoRoll)
  /\ editorsScrollerRoll q = (if patternRollMode then PatternRoll else PianoRoll)
  /\ enabled (child q PatternRoll) = patternRollMode
  /\ enabled (child q PianoRoll) = negb patternRollMode
  /\ direction (animation q rolls) = F32.mul (direction (animation p rolls)) F32.minus_one.
Proof. cbv zeta. proxy_exec; repeat split; reflexivity. Qed.

Lemma startMapSwitchAnimation_own (ui : Globals) (p : RollsSwitchingProxy.t) :
  let q := exec (startMapSwitchAnimation ui) p in
  animation q maps = start mapsAnimationStartSpeed (animation p maps)
  /\ timer q maps = Some (animationsTimerInterval p)
  /\ visible (child q BottomMapsScroller) = true
  /\ visible (child q BottomEditorsScroller) = true.
Proof. cbv zeta. proxy_exec; repeat split; reflexivity. Qed.

Lemma startScrollerModeSwitchAnimation_own (p : RollsSwitchingProxy.t) :
  let q := exec startScrollerModeSwitchAnimation p in
  animation q scrollerMode = start scrollerModeAnimationStartSpeed (animation p scrollerMode)
  /\ timer q scrollerMode = Some (animationsTimerInterval p)
  /\ isFullProjectMapMode q = negb (isFullProjectMapMode p).
Proof. cbv zeta. proxy_exec; repeat split; reflexivity. Qed.

(** ** Animations at rest *)

Lemma atRest_spec (a : ToggleAnimation.t) :
  finite (position a) = true -> unitDirection (direction a) ->
  atRest a = true <->
  (direction a = F32.minus_one /\ val (position a) = 0)
  \/ (direction a = F32.one /\ val (position a) = U).
Proof.
  intros Hf Hd. unfold atRest, isInDefaultState.
  destruct Hd as [E|E]; rewrite E.
  - change (F32.ltb F32.one F32.zero) with false. cbv iota.
    rewrite eqb_val by (assumption || reflexivity). rewrite val_one, Z.eqb_eq.
    split; [intros H; right; split; [reflexivity | assumption]|].
    intros [[H _]|[_ H]]; [discriminate | assumption].
  - change (F32.ltb F32.minus_one F32.zero) with true. cbv iota.
    rewrite eqb_val by (assumption || reflexivity). rewrite val_zero, Z.eqb_eq.
    split; [intros H; left; split; [reflexivity | assumption]|].
    intros [[_ H]|[H _]]; [assumption | discriminate].
Qed.

Lemma atRest_finish (a : ToggleAnimation.t) :
  running U a -> atRest (finish a) = true.
Proof.
  intros Hr. pose proof U_pos.
  pose proof (running_finish a Hr) as Hr'.
  destruct Hr as [H1 H2 H3 H4 H5 H6 H7].
  destruct (finish_spec a H1 ltac:(lia) H3) as [Hf [_ [Hone Hzero]]].
  apply atRest_spec; [assumption | exact H3|].
  change (direction (finish a)) with (direction a).
  destruct H3 as [E|E]; [right | left]; (split; [assumption|]); [apply Hone | apply Hzero];
    assumption || lia.
Qed.

Lemma atRest_finish_tick (a : ToggleAnimation.t) :
  running U a -> atRest (finish (tick a)) = true.
Proof.
  intros Hr. pose proof U_pos.
  pose proof (tick_position U a (Z.le_refl U) Hr) as [Hpf _].
  pose proof (tick_position_abs U a (Z.le_refl U) Hr) as Habs.
  pose proof (tick_position_bounds U a (Z.le_refl U) Hr) as [_ [Hup Hdown]].
  assert (Hd : unitDirection (direction (tick a))) by apply Hr.
  destruct (finish_spec (tick a) Hpf Habs Hd) as [Hf [_ [Hone Hzero]]].
  apply atRest_spec; [assumption | exact Hd|].
  change (direction (finish (tick a))) with (direction a).
  change (direction (tick a)) with (direction a) in *.
  destruct Hr as [H1 H2 H3 H4 H5 H6 H7].
  destruct Hd as [E|E]; [right | left]; (split; [assumption|]);
    [apply Hone | apply Hzero]; try assumption.
  - specialize (Hup E). lia.
  - specialize (Hdown E). lia.
Qed.

Lemma atRest_init : atRest init = true. Proof. reflexivity. Qed.

Lemma atRest_resetToEnd (a : ToggleAnimation.t) : atRest (resetToEnd a) = true.
Proof. reflexivity. Qed.

Lemma canRestart_atRest (a : ToggleAnimation.t) :
  finite (position a) = true -> unitDirection (direction a) ->
  atRest a = true -> canRestart a = true.
Proof.
  intros Hf Hd Hr. apply (atRest_spec a Hf Hd) in Hr. unfold canRestart.
  destruct Hr as [[E V]|[E V]]; rewrite E.
  - change (F32.ltb F32.zero F32.minus_one) with false.
    change (F32.ltb F32.minus_one F32.zero) with true.
    rewrite !ltb_val by (assumption || reflexivity). rewrite V. reflexivity.
  - change (F32.ltb F32.zero F32.one) with true.
    rewrite !ltb_val by (assumption || reflexivity). rewrite V. reflexivity.
Qed.

Section MoreInvariants.

Variable ui : Globals.

(** What the readings of the state that an event keeps give. *)
Lemma timerReading_same (e : Event) (id : Timers) (p : RollsSwitchingProxy.t) :
  owns e id = false ->
  timer (exec (handle ui e) p) id = timer p id
  /\ animation (exec (handle ui e) p) id = animation p id.
Proof.
  intros He. pose proof (timerReading_kept ui e id He p) as H.
  unfold keeps, timerReading in H. injection H as H1 H2. split; assumption.
Qed.

Lemma owns_cases (e : Event) (id : Timers) :
  owns e id = false
  \/ (e = StartRollSwitchAnimation /\ id = rolls)
  \/ (e = StartMapSwitchAnimation /\ id = maps)
  \/ (e = StartScrollerModeSwitchAnimation /\ id = scrollerMode)
  \/ e = TimerCallback id.
Proof.
  destruct e as [b| | | |w h|t]; [| | | | |destruct t]; destruct id; cbn [owns Timers_eqb];
    try (left; reflexivity); right; try (left; split; reflexivity);
    right; try (left; split; reflexivity); right; try (left; split; reflexivity);
    right; reflexivity.
Qed.

Lemma restInvariant_construct r1 r2 v1 v2 ms es sh showFull :
  restInvariant (construct r1 r2 v1 v2 ms es sh showFull).
Proof.
  unfold restInvariant, construct. intros id _.
  destruct showFull; proxy_exec; destruct id; reflexivity.
Qed.

Lemma restInvariant_handle (p : RollsSwitchingProxy.t) (e : Event) :
  animationsInvariant p -> restInvariant p -> possible e p = true ->
  restInvariant (exec (handle ui e) p).
Proof.
  unfold restInvariant. intros Ha H Hpos id.
  destruct (owns_cases e id) as [Hk|[[-> ->]|[[-> ->]|[[-> ->]| ->]]]].
  - destruct (timerReading_same e id p Hk) as [Et Ea].
    unfold isTimerRunning. rewrite Et, Ea. apply H.
  - cbn [handle]. destruct (startRollSwitchAnimation_own ui p) as [Ea Et]. cbv zeta in Ea, Et.
    unfold isTimerRunning. rewrite Ea, Et.
    rewrite (done_finish_start _ (Ha rolls)).
    destruct (areAnimationsEnabled p); [intros; discriminate|]. intros _.
    apply atRest_finish_tick, running_finish, running_start; [reflexivity | apply Ha].
  - cbn [handle]. destruct (startMapSwitchAnimation_own ui p) as [_ [Et _]]. cbv zeta in Et.
    unfold isTimerRunning. rewrite Et. intros; discriminate.
  - cbn [handle]. destruct (startScrollerModeSwitchAnimation_own p) as [_ [Et _]].
    cbv zeta in Et. unfold isTimerRunning. rewrite Et. intros; discriminate.
  - cbn [handle possible] in *. destruct (timerCallback_own ui id p) as [Ea Et].
    unfold isTimerRunning in *. rewrite Ea, Et.
    destruct (done (animation p id)).
    + intros _. apply atRest_finish_tick, Ha.
    + intros Hstop. rewrite Hstop in Hpos. discriminate.
Qed.

Lemma startedInvariant_construct r1 r2 v1 v2 ms es sh showFull :
  startedInvariant (construct r1 r2 v1 v2 ms es sh showFull).
Proof.
  unfold startedInvariant, construct. intros id.
  destruct showFull; proxy_exec; intros; discriminate.
Qed.

Lemma startedInvariant_handle (p : RollsSwitchingProxy.t) (e : Event) :
  startedInvariant p -> startedInvariant (exec (handle ui e) p).
Proof.
  unfold startedInvariant. intros H id.
  destruct (owns_cases e id) as [Hk|[[-> ->]|[[-> ->]|[[-> ->]| ->]]]].
  - destruct (timerReading_same e id p Hk) as [Et Ea].
    unfold isTimerRunning. rewrite Et, Ea. apply H.
  - cbn [handle]. destruct (startRollSwitchAnimation_own ui p) as [Ea Et]. cbv zeta in Ea, Et.
    unfold isTimerRunning. rewrite Ea, Et.
    destruct (areAnimationsEnabled p); [intros; reflexivity|].
    destruct (done _); [intros; discriminate | intros; reflexivity].
  - cbn [handle]. destruct (startMapSwitchAnimation_own ui p) as [Ea _]. cbv zeta in Ea.
    rewrite Ea. intros; reflexivity.
  - cbn [handle]. destruct (startScrollerModeSwitchAnimation_own p) as [Ea _]. cbv zeta in Ea.
    rewrite Ea. intros; reflexivity.
  - cbn [handle]. destruct (timerCallback_own ui id p) as [Ea Et].
    unfold isTimerRunning in *. rewrite Ea, Et.
    destruct (done (animation p id)); [intros; discriminate|].
    intros Hrun. apply (H id Hrun).
Qed.

Lemma modeInvariant_construct r1 r2 v1 v2 ms es sh showFull :
  modeInvariant (construct r1 r2 v1 v2 ms es sh showFull).
Proof.
  unfold modeInvariant, construct, currentRoll.
  destruct showFull; proxy_exec; repeat split.
Qed.

Lemma modeInvariant_handle (p : RollsSwitchingProxy.t) (e : Event) :
  animationsInvariant p -> modeInvariant p -> modeInvariant (exec (handle ui e) p).
Proof.
  intros Ha [H1 H2].
  assert (Hs : match e with StartScrollerModeSwitchAnimation => False | _ => True end ->
               isFullProjectMapMode (exec (handle ui e) p)
               = isInDefaultState (scrollerModeAnimation (exec (handle ui e) p))).
  { intros He. pose proof (scrollerReading_kept ui e He p) as K.
    unfold keeps, scrollerReading in K. injection K as K1 K2.
    unfold isFullProjectMapMode, isInDefaultState, scrollerModeAnimation in *.
    rewrite K1, K2. exact H1. }
  assert (Hr : match e with StartRollSwitchAnimation => False | _ => True end ->
               let q := exec (handle ui e) p in
               mapsScrollerRoll q = currentRoll q /\ editorsScrollerRoll q = currentRoll q
               /\ (enabled (child q PianoRoll) = true -> isPianoRollMode q = true)
               /\ enabled (child q PatternRoll) = isPatternRollMode q).
  { intros He. pose proof (rollsReading_kept ui e He p) as K.
    unfold keeps, rollsReading in K. injection K as K1 K2 K3 K4 K5.
    unfold currentRoll, isPatternRollMode, isPianoRollMode, isInDefaultState, rollsAnimation in *.
    cbv zeta. rewrite K1, K2, K3, K4, K5. exact H2. }
  destruct e as [b| | | |w h|id]; try (split; [apply Hs | apply Hr]; exact I).
  - split; [apply Hs; exact I|].
    cbn [handle]. destruct (startRollSwitchAnimation_rolls ui p) as [E1 [E2 [E3 [E4 E5]]]].
    cbv zeta in E1, E2, E3, E4.
    unfold currentRoll, isPatternRollMode, isPianoRollMode, isInDefaultState, rollsAnimation in *.
    rewrite E1, E2, E3, E4, E5. cbn [start direction].
    destruct (F32.ltb (F32.mul (direction (animation p rolls)) F32.minus_one) F32.zero);
      repeat split; intros; discriminate.
  - split; [|apply Hr; exact I].
    cbn [handle]. destruct (startScrollerModeSwitchAnimation_own p) as [Ea [_ Em]].
    cbv zeta in Ea, Em. rewrite Em, H1.
    unfold isInDefaultState, scrollerModeAnimation. rewrite Ea. cbn [start direction].
    symmetry. apply flip_direction. apply Ha.
Qed.

Lemma panelsInvariant_construct r1 r2 v1 v2 ms es sh showFull :
  panelsInvariant (construct r1 r2 v1 v2 ms es sh showFull).
Proof.
  unfold panelsInvariant, construct.
  destruct showFull; proxy_exec; split; try reflexivity; intros; discriminate.
Qed.

Lemma panelsInvariant_handle (p : RollsSwitchingProxy.t) (e : Event) :
  panelsInvariant p -> possible e p = true -> panelsInvariant (exec (handle ui e) p).
Proof.
  intros H Hpos.
  assert (Hk : match e with
               | StartMapSwitchAnimation | TimerCallback maps => False
               | _ => True
               end -> panelsInvariant (exec (handle ui e) p)).
  { intros He. pose proof (panelsReading_kept ui e He p) as K.
    unfold keeps, panelsReading in K. injection K as K1 K2 K3 K4.
    unfold panelsInvariant, isTimerRunning, isProjectMapVisible, isInDefaultState, mapsAnimation in *.
    rewrite K1, K2, K3, K4. exact H. }
  destruct e as [b| | | |w h|id]; [| | | | |destruct id]; try (apply Hk; exact I).
  - cbn [handle]. destruct (startMapSwitchAnimation_own ui p) as [_ [Et [V1 V2]]].
    cbv zeta in Et, V1, V2. unfold panelsInvariant, isTimerRunning. rewrite Et, V1, V2.
    split; [intros; split; reflexivity | intros; discriminate].
  - cbn [handle possible] in *. destruct (timerCallback_own ui maps p) as [Ea Et].
    destruct (timerCallback_maps_panels ui p) as [V1 V2]. cbv zeta in V1, V2.
    destruct H as [H1 _]. destruct (H1 Hpos) as [W1 W2]. clear H1.
    unfold panelsInvariant, isTimerRunning, isProjectMapVisible, isInDefaultState, mapsAnimation.
    unfold isInDefaultState in V1, V2. unfold isTimerRunning in Hpos.
    rewrite Ea, Et, V1, V2, W1, W2.
    destruct (done (animation p maps)); cbn [andb].
    + split; [intros; discriminate|]. intros _.
      change (direction (finish (tick (animation p maps)))) with (direction (animation p maps)).
      destruct (F32.ltb (direction (animation p maps)) F32.zero); reflexivity.
    + split; [intros; split; reflexivity|]. intros Hstop. rewrite Hstop in Hpos. discriminate.
Qed.

Lemma reachable_more (p : RollsSwitchingProxy.t) :
  reachable ui p ->
  restInvariant p /\ startedInvariant p /\ modeInvariant p /\ panelsInvariant p.
Proof.
  induction 1 as [r1 r2 v1 v2 ms es sh showFull | p e Hr [IH1 [IH2 [IH3 IH4]]] Hpos].
  - split; [apply restInvariant_construct|].
    split; [apply startedInvariant_construct|].
    split; [apply modeInvariant_construct | apply panelsInvariant_construct].
  - destruct (reachable_invariants ui p Hr) as [_ Ha].
    split; [apply restInvariant_handle; assumption|].
    split; [apply startedInvariant_handle; assumption|].
    split; [apply modeInvariant_handle; assumption | apply panelsInvariant_handle; assumption].
Qed.

End MoreInvariants.

Lemma startSpeed_decelerates (id : Timers) :
  val (F32.sub F32.one (startSpeed id)) <= val maxDeceleration.
Proof. destruct id; vm_compute; discriminate. Qed.

Lemma callbacks_run (ui : Globals) (id : Timers) (n : nat) :
  forall p : RollsSwitchingProxy.t,
    (forall k, (k < n)%nat -> done (ticks k (animation p id)) = false) ->
    animation (callbacks ui id n p) id = ticks n (animation p id)
    /\ timer (callbacks ui id n p) id = timer p id.
Proof.
  induction n as [|n IH]; intros p Hnd; [split; reflexivity|].
  cbn [callbacks ticks].
  destruct (timerCallback_own ui id p) as [Ea Et].
  pose proof (Hnd 0%nat ltac:(lia)) as H0. cbn [ticks] in H0. rewrite H0 in Ea, Et.
  destruct (IH (exec (timerCallback ui id) p)) as [IHa IHt].
  - intros k Hk. rewrite Ea. apply (Hnd (S k)). lia.
  - rewrite IHa, IHt, Ea, Et. split; reflexivity.
Qed.

Lemma callbacks_settle (ui : Globals) (id : Timers) (p : RollsSwitchingProxy.t) :
  running U (animation p id) ->
  val (deceleration (animation p id)) <= val maxDeceleration ->
  exists n : nat,
    (forall k, (k <= n)%nat -> timer (callbacks ui id k p) id = timer p id)
    /\ isTimerRunning id (callbacks ui id (S n) p) = false
    /\ atRest (animation (callbacks ui id (S n) p) id) = true.
Proof.
  intros Hr Hd.
  destruct (settles U (Z.le_refl U) (val (speed (animation p id))) ltac:(apply Hr)
              (animation p id) Hr eq_refl Hd) as [n [Hn1 [Hn2 Hn3]]].
  exists n. split; [|].
  - intros k Hk. apply callbacks_run. intros j Hj. apply Hn2. lia.
  - destruct (callbacks_run ui id n p Hn2) as [Ea Et].
    assert (Hs : callbacks ui id (S n) p = exec (timerCallback ui id) (callbacks ui id n p)).
    { clear. revert p. induction n as [|n IH]; intros p; [reflexivity|].
      cbn [callbacks] in *. rewrite IH. reflexivity. }
    rewrite Hs. destruct (timerCallback_own ui id (callbacks ui id n p)) as [Ea' Et'].
    rewrite Ea, Hn1 in Ea', Et'. unfold isTimerRunning. rewrite Ea', Et'.
    split; [reflexivity|]. apply atRest_finish_tick. assumption.
Qed.

(** ** A position of [0, 1] times a number of pixels *)

Lemma quot_bounds (v n : Z) : 0 <= v <= n * U -> 0 <= Z.quot v U <= n.
Proof.
  intros H. assert (0 < U) by reflexivity.
  rewrite Z.quot_div_nonneg by lia. split.
  - apply Z.div_pos; lia.
  - apply Z.div_le_upper_bound; lia.
Qed.

Lemma int_range (n : Z) : Z.abs n <= 2 ^ 24 -> F32.INT_MIN <= n <= F32.INT_MAX.
Proof. unfold F32.INT_MIN, F32.INT_MAX. lia. Qed.

Lemma scaled_val (n : Z) (x : F32.float) :
  0 <= n <= 2 ^ 24 -> finite x = true -> 0 <= val x <= U ->
  finite (F32.mul (F32.of_int n) x) = true
  /\ val (F32.mul (F32.of_int n) x) = rnd 149 (val x * (n * U))
  /\ finite (F32.mul x (F32.of_int n)) = true
  /\ val (F32.mul x (F32.of_int n)) = rnd 149 (val x * (n * U))
  /\ 0 <= rnd 149 (val x * (n * U)) <= n * U.
Proof.
  intros Hn Hx Bx. pose proof U_small. pose proof U_pos.
  destruct (of_int_exact n ltac:(lia)) as [Hf Hv].
  assert (Bn : Z.abs (val (F32.of_int n)) <= 2 ^ 200).
  { rewrite Hv. rewrite Z.abs_eq by nia.
    change (2 ^ 200) with (2 ^ 51 * U). apply Z.mul_le_mono_nonneg_r; lia. }
  destruct (mul_val (F32.of_int n) x) as [Hf1 Hv1]; try assumption; try lia.
  destruct (mul_val x (F32.of_int n)) as [Hf2 Hv2]; try assumption; try lia.
  rewrite Hv in *.
  split; [assumption|]. split; [rewrite Hv1; f_equal; ring|].
  split; [assumption|]. split; [assumption|].
  split.
  - apply Z.le_trans with (rnd 149 0); [rewrite rnd_0; lia|]. apply rnd_mono; [lia|]. nia.
  - rewrite <- Hv at 2. rewrite <- (rnd_val_U (F32.of_int n) Hf). rewrite Hv.
    apply rnd_mono; [lia|]. nia.
Qed.

Lemma scaled_zero (n : Z) : rnd 149 (0 * (n * U)) = 0.
Proof. reflexivity. Qed.

Lemma scaled_one (n : Z) : 0 <= n <= 2 ^ 24 -> rnd 149 (U * (n * U)) = n * U.
Proof.
  intros Hn. destruct (of_int_exact n ltac:(lia)) as [Hf Hv].
  rewrite <- Hv. rewrite Z.mul_comm. apply rnd_val_U. assumption.
Qed.

(** [int (float (n) * x)] and [int (x * float (n))] for [x] in [0, 1]. *)
Lemma scaled_to_int (n : Z) (x : F32.float) :
  0 <= n <= 2 ^ 24 -> finite x = true -> 0 <= val x <= U ->
  F32.to_int (F32.mul (F32.of_int n) x) = Z.quot (rnd 149 (val x * (n * U))) U
  /\ F32.to_int (F32.mul x (F32.of_int n)) = Z.quot (rnd 149 (val x * (n * U))) U
  /\ 0 <= Z.quot (rnd 149 (val x * (n * U))) U <= n.
Proof.
  intros Hn Hx Bx.
  destruct (scaled_val n x Hn Hx Bx) as [Hf1 [Hv1 [Hf2 [Hv2 Hb]]]].
  pose proof (quot_bounds _ n Hb) as Hq.
  pose proof (int_range n ltac:(lia)). pose proof (int_range 0 ltac:(lia)).
  split; [|split; [|assumption]].
  - rewrite to_int_val; rewrite ?Hv1; (assumption || lia).
  - rewrite to_int_val; rewrite ?Hv2; (assumption || lia).
Qed.

Lemma validHeights_spec (ui : Globals) :
  validHeights ui = true ->
  0 <= rollScrollerHeight ui <= projectMapHeight ui
  /\ projectMapHeight ui <= levelsMapHeight ui <= 2 ^ 24.
Proof.
  unfold validHeights. rewrite !andb_true_iff, !Z.leb_le. lia.
Qed.

(** The two offsets [int (- x * h)] and [int (- x * h + h)] of the roll
    viewports, for a position [x] of [0, 1] and [h = float (n)]. *)
Lemma viewport_offsets (x : F32.float) (n : Z) :
  0 <= n <= 2 ^ 24 -> finite x = true -> 0 <= val x <= U ->
  let h := F32.of_int n in
  let y1 := F32.to_int (F32.mul (F32.neg x) h) in
  let y2 := F32.to_int (F32.add (F32.mul (F32.neg x) h) h) in
  - n <= y1 <= 0
  /\ (y2 = y1 + n - 1 \/ y2 = y1 + n)
  /\ (val x = 0 -> y1 = 0 /\ y2 = n)
  /\ (val x = U -> y1 = - n /\ y2 = 0).
Proof.
  intros Hn Hx Bx h y1 y2. pose proof U_small. pose proof U_pos.
  destruct (of_int_exact n ltac:(lia)) as [Hhf Hhv]. fold h in Hhf, Hhv.
  destruct (neg_val x) as [Hnf Hnv]. rewrite Hx in Hnf.
  assert (Bh : Z.abs (val h) <= 2 ^ 200).
  { rewrite Hhv. rewrite Z.abs_eq by nia.
    change (2 ^ 200) with (2 ^ 51 * U). apply Z.mul_le_mono_nonneg_r; lia. }
  destruct (mul_val (F32.neg x) h) as [Haf Hav]; try assumption; try lia.
  destruct (scaled_val n x Hn Hx Bx) as [_ [_ [_ [_ HR]]]].
  set (R := rnd 149 (val x * (n * U))) in *.
  assert (HA : val (F32.mul (F32.neg x) h) = - R).
  { rewrite Hav, Hnv, Hhv. unfold R. rewrite <- rnd_opp. f_equal. ring. }
  set (a := F32.mul (F32.neg x) h) in *.
  destruct (add_val a h) as [Hbf Hbv]; try assumption; try (rewrite HA; nia).
  rewrite HA, Hhv in Hbv.
  set (k := R / U).
  assert (Hk : k * U <= R < (k + 1) * U).
  { unfold k. pose proof (Z.mul_div_le R U ltac:(lia)).
    pose proof (Z.mul_succ_div_gt R U ltac:(lia)). lia. }
  assert (Hk0 : 0 <= k <= n).
  { unfold k. split; [apply Z.div_pos; lia | apply Z.div_le_upper_bound; lia]. }
  assert (Hy1 : y1 = - k).
  { unfold y1. fold a. rewrite to_int_val; rewrite ?HA; try assumption.
    - rewrite Z.quot_opp_l by lia. rewrite Z.quot_div_nonneg by lia. reflexivity.
    - rewrite Z.quot_opp_l by lia. rewrite Z.quot_div_nonneg by lia. fold k.
      pose proof (int_range k ltac:(lia)). unfold F32.INT_MIN, F32.INT_MAX in *. lia. }
  assert (Hup : val (F32.add a h) <= (n - k) * U).
  { rewrite Hbv. rewrite <- (rnd_exact_int (n - k)) by lia. apply rnd_mono; lia. }
  assert (Hlo : (n - k) * U - U <= val (F32.add a h) /\ 0 <= val (F32.add a h)).
  { rewrite Hbv. split.
    - destruct (Z.eq_dec k n) as [E|E].
      + apply Z.le_trans with (rnd 0 0); [rewrite rnd_0; lia | apply rnd_mono; lia].
      + replace ((n - k) * U - U) with ((n - k - 1) * U) by ring.
        rewrite <- (rnd_exact_int (n - k - 1)) by lia. apply rnd_mono; lia.
    - apply Z.le_trans with (rnd 0 0); [rewrite rnd_0; lia | apply rnd_mono; lia]. }
  assert (Hy2 : y2 = val (F32.add a h) / U /\ n - k - 1 <= val (F32.add a h) / U <= n - k).
  { assert (Hd : n - k - 1 <= val (F32.add a h) / U <= n - k).
    { split; [apply Z.div_le_lower_bound; lia|].
      apply Z.div_le_upper_bound; lia. }
    split; [|assumption].
    unfold y2. fold a. rewrite to_int_val; try assumption.
    - apply Z.quot_div_nonneg; lia.
    - rewrite Z.quot_div_nonneg by lia.
      pose proof (int_range (n - k) ltac:(lia)). pose proof (int_range (n - k - 1) ltac:(lia)).
      lia. }
  destruct Hy2 as [Hy2 Hr2].
  split; [lia|]. split; [lia|]. split.
  - intros V. assert (HR0 : R = 0) by (unfold R; rewrite V; reflexivity).
    assert (k = 0) by (unfold k; rewrite HR0; reflexivity).
    split; [lia|]. rewrite Hy2, Hbv, HR0. replace (- 0 + n * U) with (n * U) by ring.
    rewrite rnd_exact_int by lia. apply Z.div_mul. lia.
  - intros V. assert (HR1 : R = n * U) by (unfold R; rewrite V; apply scaled_one; assumption).
    assert (k = n) by (unfold k; rewrite HR1; apply Z.div_mul; lia).
    split; [lia|]. rewrite Hy2, Hbv, HR1. replace (- (n * U) + n * U) with 0 by ring.
    reflexivity.
Qed.

Section Geometry.

Variable ui : Globals.

Hypothesis Hui : validHeights ui = true.

Lemma currentScrollerHeight_range (p : RollsSwitchingProxy.t) :
  running U (scrollerModeAnimation p) ->
  rollScrollerHeight ui <= currentScrollerHeight ui p <= projectMapHeight ui
  /\ (val (position (scrollerModeAnimation p)) = 0 ->
      currentScrollerHeight ui p = projectMapHeight ui)
  /\ (val (position (scrollerModeAnimation p)) = U ->
      currentScrollerHeight ui p = rollScrollerHeight ui).
Proof.
  intros Hr. destruct (validHeights_spec ui Hui) as [H1 H2].
  unfold currentScrollerHeight, getPosition.
  set (x := position (scrollerModeAnimation p)) in *.
  set (n := projectMapHeight ui - rollScrollerHeight ui).
  assert (Hn : 0 <= n <= 2 ^ 24) by (unfold n; lia).
  destruct (scaled_to_int n x Hn ltac:(apply Hr) ltac:(apply Hr)) as [E [_ B]].
  rewrite E. split; [unfold n in *; lia|]. split; intros V; rewrite V.
  - rewrite scaled_zero. rewrite Z.quot_0_l by (pose proof U_pos; lia). lia.
  - rewrite scaled_one by assumption. rewrite Z.quot_mul by (pose proof U_pos; lia). unfold n. lia.
Qed.

End Geometry.

Lemma updateAnimatedRollsBounds_spec (ui : Globals) (p : RollsSwitchingProxy.t) :
  let q := exec (updateAnimatedRollsBounds ui) p in
  let H := height p - currentScrollerHeight ui p in
  bounds (child q PianoViewport)
  = mkRectangle 0 (viewport1Pos ui (height p) p) (Z.max 0 (width p)) (Z.max 0 H)
  /\ bounds (child q PatternViewport)
     = mkRectangle 0 (viewport2Pos ui (height p) p) (Z.max 0 (width p)) (Z.max 0 H).
Proof.
  cbv zeta. split; proxy_exec; unfold withY, withBottom, getBottom, getLocalBounds;
    cbn [rx ry rw rh]; f_equal; lia.
Qed.

Lemma viewport_positions (ui : Globals) (p : RollsSwitchingProxy.t) :
  running U (rollsAnimation p) ->
  0 <= height p - currentScrollerHeight ui p + 1 <= 2 ^ 24 ->
  let H := height p - currentScrollerHeight ui p in
  let y1 := viewport1Pos ui (height p) p in
  let y2 := viewport2Pos ui (height p) p in
  - (H + 1) <= y1 <= 0
  /\ (y2 = y1 + H \/ y2 = y1 + H + 1)
  /\ (val (position (rollsAnimation p)) = 0 -> y1 = 0 /\ y2 = H + 1)
  /\ (val (position (rollsAnimation p)) = U -> y1 = - (H + 1) /\ y2 = 0).
Proof.
  intros Hr Hh. cbv zeta.
  pose proof (viewport_offsets (position (rollsAnimation p))
                (height p - currentScrollerHeight ui p + 1) Hh
                ltac:(apply Hr) ltac:(apply Hr)) as Hv.
  cbv zeta in Hv. unfold viewport1Pos, viewport2Pos, rollViewportHeight, getPosition.
  destruct Hv as [H1 [H2 [H3 H4]]].
  split; [lia|]. split; [lia|]. split; intros V; [destruct (H3 V) | destruct (H4 V)]; lia.
Qed.

Lemma updateAnimatedMapsBounds_spec (ui : Globals) (p : RollsSwitchingProxy.t) :
  let q := exec (updateAnimatedMapsBounds ui) p in
  let mapHeight := currentScrollerHeight ui p in
  let levelsY := height p - Z.min (levelsMapHeight ui) (height p)
                 + (levelsMapHeight ui - mapHeight - levelsMapPos ui p) in
  bounds (child q BottomMapsScroller)
  = mkRectangle 0 (height p - Z.min mapHeight (height p) + pianoMapPos ui p)
                (Z.max 0 (width p)) (Z.max 0 (Z.min mapHeight (height p)))
  /\ bounds (child q BottomEditorsScroller)
     = mkRectangle 0 levelsY (Z.max 0 (width p)) (Z.max 0 (Z.min (levelsMapHeight ui) (height p)))
  /\ bounds (child q ScrollerShadow)
     = mkRectangle 0 (levelsY - scrollerShadowSize) (Z.max 0 (width p)) scrollerShadowSize.
Proof.
  cbv zeta. repeat split; proxy_exec;
    unfold translated, removeFromBottom, getLocalBounds; cbn [rx ry rw rh]; f_equal; lia.
Qed.

Lemma maps_positions (ui : Globals) (p : RollsSwitchingProxy.t) :
  validHeights ui = true ->
  running U (mapsAnimation p) -> running U (scrollerModeAnimation p) ->
  let mapHeight := currentScrollerHeight ui p in
  0 <= pianoMapPos ui p <= mapHeight
  /\ 0 <= levelsMapPos ui p <= levelsMapHeight ui - mapHeight
  /\ (val (position (mapsAnimation p)) = 0 -> pianoMapPos ui p = 0 /\ levelsMapPos ui p = 0)
  /\ (val (position (mapsAnimation p)) = U ->
      pianoMapPos ui p = mapHeight /\ levelsMapPos ui p = levelsMapHeight ui - mapHeight).
Proof.
  intros Hui Hm Hs. cbv zeta. destruct (validHeights_spec ui Hui) as [H1 H2].
  destruct (currentScrollerHeight_range ui Hui p Hs) as [Hc _].
  set (mapHeight := currentScrollerHeight ui p) in *.
  unfold pianoMapPos, levelsMapPos, getPosition. fold mapHeight.
  set (x := position (mapsAnimation p)) in *.
  destruct (scaled_to_int mapHeight x ltac:(lia) ltac:(apply Hm) ltac:(apply Hm)) as [_ [E1 B1]].
  destruct (scaled_to_int (levelsMapHeight ui - mapHeight) x ltac:(lia)
              ltac:(apply Hm) ltac:(apply Hm)) as [_ [E2 B2]].
  rewrite E1, E2. pose proof U_pos.
  split; [assumption|]. split; [assumption|]. split; intros V; rewrite V.
  - rewrite !scaled_zero. rewrite Z.quot_0_l by lia. split; reflexivity.
  - rewrite !scaled_one by lia. rewrite !Z.quot_mul by lia. split; reflexivity.
Qed.

Lemma keepsShadow_refl (p : RollsSwitchingProxy.t) : keepsShadow p p.
Proof. intros H. exact H. Qed.

Lemma keepsShadow_trans (p q r : RollsSwitchingProxy.t) :
  keepsShadow p q -> keepsShadow q r -> keepsShadow p r.
Proof. intros H1 H2 H. apply H2, H1, H. Qed.

Lemma keepsShadow_modify (f : RollsSwitchingProxy.t -> RollsSwitchingProxy.t) :
  (forall p, child (f p) = child p) -> preserves keepsShadow (modify f).
Proof.
  intros Hf p H. unfold exec, modify. cbn [snd]. unfold shadowAboveEditors in *.
  rewrite Hf. exact H.
Qed.

Lemma keepsShadow_updateChild (c : Child) (f : Widget -> Widget) :
  Child_eqb c ScrollerShadow || Child_eqb c BottomEditorsScroller = false
  \/ (forall w, bounds (f w) = bounds w) ->
  preserves keepsShadow (updateChild c f).
Proof.
  intros Hc p H. unfold shadowAboveEditors, exec, updateChild, modify in *. cbn [snd child].
  destruct Hc as [Hc|Hf].
  - apply orb_false_iff in Hc. destruct Hc as [-> ->]. exact H.
  - destruct (Child_eqb c ScrollerShadow), (Child_eqb c BottomEditorsScroller);
      rewrite ?Hf; exact H.
Qed.

Lemma updateAnimatedMapsBounds_shadow (ui : Globals) (p : RollsSwitchingProxy.t) :
  shadowAboveEditors (exec (updateAnimatedMapsBounds ui) p).
Proof.
  unfold shadowAboveEditors, getBottom.
  destruct (updateAnimatedMapsBounds_spec ui p) as [_ [E2 E3]]. cbv zeta in E2, E3.
  rewrite E2, E3. cbn [rx ry rw rh]. split; [reflexivity | lia].
Qed.

Lemma updateAnimatedMapsPositions_shadow (ui : Globals) :
  preserves keepsShadow (updateAnimatedMapsPositions ui).
Proof.
  intros p [H1 H2]. unfold shadowAboveEditors, getBottom in *. proxy_exec.
  cbn [rx ry rw rh]. split; [assumption | lia].
Qed.

Ltac keeps_shadow_step :=
  lazymatch goal with
  | |- preserves keepsShadow (updateAnimatedMapsBounds _) =>
      intros ? ?; apply updateAnimatedMapsBounds_shadow
  | |- preserves keepsShadow (updateAnimatedMapsPositions _) =>
      apply updateAnimatedMapsPositions_shadow
  | |- preserves keepsShadow (bind _ _) =>
      apply (preserves_bind keepsShadow keepsShadow_trans); [|intros ?]
  | |- preserves keepsShadow (gets _) => apply (preserves_gets keepsShadow keepsShadow_refl)
  | |- preserves keepsShadow (ret _) => apply (preserves_ret keepsShadow keepsShadow_refl)
  | |- preserves keepsShadow (when _ _) => apply (preserves_when keepsShadow keepsShadow_refl)
  | |- preserves keepsShadow (if _ then _ else _) => apply (preserves_if keepsShadow)
  | |- preserves keepsShadow (updateChild _ _) =>
      apply keepsShadow_updateChild;
      first [left; reflexivity | right; intros ?; reflexivity]
  | |- preserves keepsShadow (modify _) => apply keepsShadow_modify; intros ?; reflexivity
  | |- preserves keepsShadow _ =>
      unfold setEnabled, setVisible, RollsSwitchingProxy.setBounds, setTopLeftPosition,
        updateAnimation, setTimer, startTimer, stopTimer, setScrollerMode,
        setMapsScrollerAnimationsEnabled, switchToRoll, setAnimationsTimerInterval, setSize
  end.

Ltac keeps_shadow := repeat keeps_shadow_step.

Lemma handle_keepsShadow (ui : Globals) (e : Event) : preserves keepsShadow (handle ui e).
Proof.
  destruct e as [b| | | |w h|id]; [| | | | |destruct id];
    unfold handle, setAnimationsEnabled, startRollSwitchAnimation, startMapSwitchAnimation,
      startScrollerModeSwitchAnimation, timerCallback, tickAndCheckIfDone, resized,
      updateAnimatedRollsBounds, updateAnimatedRollsPositions;
    keeps_shadow.
Qed.

(** ** The layout and its container *)

Lemma start_rolls_direction (ui : Globals) (p : RollsSwitchingProxy.t) :
  direction (animation (exec (startRollSwitchAnimation ui) p) rolls)
  = F32.mul (direction (animation p rolls)) F32.minus_one.
Proof. apply (startRollSwitchAnimation_rolls ui p). Qed.

Lemma start_rolls_toggles (ui : Globals) (p : RollsSwitchingProxy.t) :
  animationsInvariant p ->
  isPianoRollMode (exec (startRollSwitchAnimation ui) p) = negb (isPianoRollMode p).
Proof.
  intros Ha. unfold isPianoRollMode, isInDefaultState, rollsAnimation.
  rewrite start_rolls_direction. apply flip_direction. apply Ha.
Qed.

Lemma start_maps_toggles (ui : Globals) (p : RollsSwitchingProxy.t) :
  animationsInvariant p ->
  isProjectMapVisible (exec (startMapSwitchAnimation ui) p) = negb (isProjectMapVisible p).
Proof.
  intros Ha. unfold isProjectMapVisible, isInDefaultState, mapsAnimation.
  destruct (startMapSwitchAnimation_own ui p) as [Ea _]. cbv zeta in Ea. rewrite Ea.
  cbn [start direction]. apply flip_direction. apply Ha.
Qed.

Lemma start_scrollerMode_toggles (p : RollsSwitchingProxy.t) :
  isFullProjectMapMode (exec startScrollerModeSwitchAnimation p)
  = negb (isFullProjectMapMode p).
Proof. apply (startScrollerModeSwitchAnimation_own p). Qed.

Lemma exec_gets_bind {A B : Type} (f : RollsSwitchingProxy.t -> A) (k : A -> M B)
  (p : RollsSwitchingProxy.t) :
  exec (bind (gets f) k) p = exec (k (f p)) p.
Proof. reflexivity. Qed.

Lemma exec_when (b : bool) (m : M unit) (p : RollsSwitchingProxy.t) :
  exec (when b m) p = if b then exec m p else p.
Proof. destruct b; reflexivity. Qed.

Lemma handle_events (ui : Globals) :
  startRollSwitchAnimation ui = handle ui StartRollSwitchAnimation
  /\ startMapSwitchAnimation ui = handle ui StartMapSwitchAnimation
  /\ startScrollerModeSwitchAnimation = handle ui StartScrollerModeSwitchAnimation
  /\ (forall b, setAnimationsEnabled b = handle ui (SetAnimationsEnabled b))
  /\ (forall w h, (setSize w h ;; resized ui) = handle ui (SetBounds w h))
  /\ (forall id, timerCallback ui id = handle ui (TimerCallback id)).
Proof. cbn [handle]. repeat split. Qed.

Lemma container_reachable (ui : Globals) (l : SequencerLayout.t) :
  SequencerLayout.reachable ui l ->
  RollsSwitchingProxy.reachable ui (SequencerLayout.rollContainer l).
Proof.
  destruct (handle_events ui) as [E1 [E2 [E3 [E4 [E5 E6]]]]].
  induction 1 as [r1 r2 v1 v2 ms es sh showFull hasAnimations | l e Hr IH Hpos].
  - cbn [SequencerLayout.construct SequencerLayout.rollContainer]. rewrite E4.
    apply RollsSwitchingProxy.reachable_handle; [|reflexivity].
    apply RollsSwitchingProxy.reachable_construct.
  - destruct e as [| |b|b|b|w h|id]; cbn [SequencerLayout.handle].
    + unfold SequencerLayout.showPatternEditor. cbn [SequencerLayout.rollContainer].
      rewrite exec_gets_bind, exec_when.
      destruct (isPatternRollMode (SequencerLayout.rollContainer l)); cbn [negb]; [exact IH|].
      rewrite E1. apply RollsSwitchingProxy.reachable_handle; [exact IH | reflexivity].
    + unfold SequencerLayout.showLinearEditor. cbn [SequencerLayout.rollContainer].
      rewrite exec_gets_bind, exec_when.
      destruct (isPatternRollMode (SequencerLayout.rollContainer l)); [|exact IH].
      rewrite E1. apply RollsSwitchingProxy.reachable_handle; [exact IH | reflexivity].
    + unfold SequencerLayout.onEditorPanelVisibilityFlagChanged.
      destruct (_ || _); [exact IH|]. cbn [SequencerLayout.rollContainer].
      rewrite E2. apply RollsSwitchingProxy.reachable_handle; [exact IH | reflexivity].
    + unfold SequencerLayout.onProjectMapLargeModeFlagChanged.
      destruct (_ || _); [exact IH|]. cbn [SequencerLayout.rollContainer].
      rewrite E3. apply RollsSwitchingProxy.reachable_handle; [exact IH | reflexivity].
    + unfold SequencerLayout.onUiAnimationsFlagChanged. cbn [SequencerLayout.rollContainer].
      rewrite E4. apply RollsSwitchingProxy.reachable_handle; [exact IH | reflexivity].
    + unfold SequencerLayout.onContainer. cbn [SequencerLayout.rollContainer].
      rewrite E5. apply RollsSwitchingProxy.reachable_handle; [exact IH | reflexivity].
    + unfold SequencerLayout.onContainer. cbn [SequencerLayout.rollContainer].
      rewrite E6. apply RollsSwitchingProxy.reachable_handle; [exact IH | exact Hpos].
Qed.

Lemma mode_kept (ui : Globals) (e : Event) (p : RollsSwitchingProxy.t) :
  match e with StartRollSwitchAnimation => False | _ => True end ->
  isPianoRollMode (exec (handle ui e) p) = isPianoRollMode p.
Proof.
  intros He. unfold isPianoRollMode, isInDefaultState, rollsAnimation.
  pose proof (rollsDirection_kept ui e He p) as H. unfold keeps, rollsDirection in H.
  rewrite H. reflexivity.
Qed.

Lemma showPatternEditor_container (ui : Globals) (l : SequencerLayout.t) :
  SequencerLayout.rollContainer (SequencerLayout.showPatternEditor ui l)
  = if isPatternRollMode (SequencerLayout.rollContainer l) then SequencerLayout.rollContainer l
    else exec (handle ui StartRollSwitchAnimation) (SequencerLayout.rollContainer l).
Proof.
  unfold SequencerLayout.showPatternEditor. cbn [SequencerLayout.rollContainer handle].
  rewrite exec_gets_bind, exec_when.
  destruct (isPatternRollMode (SequencerLayout.rollContainer l)); reflexivity.
Qed.

Lemma showLinearEditor_container (ui : Globals) (l : SequencerLayout.t) :
  SequencerLayout.rollContainer (SequencerLayout.showLinearEditor ui l)
  = if isPatternRollMode (SequencerLayout.rollContainer l)
    then exec (handle ui StartRollSwitchAnimation) (SequencerLayout.rollContainer l)
    else SequencerLayout.rollContainer l.
Proof.
  unfold SequencerLayout.showLinearEditor. cbn [SequencerLayout.rollContainer handle].
  rewrite exec_gets_bind, exec_when.
  destruct (isPatternRollMode (SequencerLayout.rollContainer l)); reflexivity.
Qed.

Lemma show_editor_mode (ui : Globals) (l : SequencerLayout.t) :
  SequencerLayout.reachable ui l ->
  isPatternRollMode (SequencerLayout.rollContainer (SequencerLayout.showPatternEditor ui l)) = true
  /\ isPianoRollMode (SequencerLayout.rollContainer (SequencerLayout.showLinearEditor ui l)) = true.
Proof.
  intros Hr. pose proof (container_reachable ui l Hr) as Hc.
  destruct (reachable_invariants ui _ Hc) as [_ Ha].
  pose proof (start_rolls_toggles ui _ Ha) as Ht.
  split.
  - rewrite showPatternEditor_container.
    destruct (isPatternRollMode (SequencerLayout.rollContainer l)) eqn:E; [exact E|].
    unfold isPatternRollMode in *. cbn [handle]. rewrite Ht.
    destruct (isPianoRollMode (SequencerLayout.rollContainer l)); [reflexivity | discriminate].
  - rewrite showLinearEditor_container.
    destruct (isPatternRollMode (SequencerLayout.rollContainer l)) eqn:E.
    + unfold isPatternRollMode in *. cbn [handle]. rewrite Ht.
      destruct (isPianoRollMode (SequencerLayout.rollContainer l)); [discriminate | reflexivity].
    + unfold isPatternRollMode in E. destruct (isPianoRollMode (SequencerLayout.rollContainer l));
        [reflexivity | discriminate].
Qed.

Lemma canRestart_start (a : ToggleAnimation.t) (startSpeed : F32.float) :
  canRestart a = true -> canRestart (start startSpeed a) = false.
Proof.
  unfold canRestart. cbn [start position direction].
  rewrite orb_true_iff, !andb_true_iff. intros [[Hd Hp]|[Hd Hp]].
  - rewrite (positive_times_minus_one _ Hd), (above_0_85_not_below_0_15 _ Hp).
    rewrite andb_false_r. reflexivity.
  - rewrite (negative_times_minus_one _ Hd).
    destruct (F32.ltb c0_85 (position a)) eqn:E.
    + rewrite (above_0_85_not_below_0_15 _ E) in Hp. discriminate.
    + rewrite andb_false_r. reflexivity.
Qed.

Lemma start_rolls_animated (ui : Globals) (p : RollsSwitchingProxy.t) :
  areAnimationsEnabled p = true ->
  animation (exec (startRollSwitchAnimation ui) p) rolls
  = start rollsAnimationStartSpeed (animation p rolls)
  /\ timer (exec (startRollSwitchAnimation ui) p) rolls = Some (animationsTimerInterval p).
Proof.
  intros H. destruct (startRollSwitchAnimation_own ui p) as [Ea Et]. cbv zeta in Ea, Et.
  rewrite Ea, Et, H. split; reflexivity.
Qed.

Lemma start_rolls_not_animated (ui : Globals) (p : RollsSwitchingProxy.t) :
  animationsInvariant p -> areAnimationsEnabled p = false ->
  animation (exec (startRollSwitchAnimation ui) p) rolls
  = finish (tick (finish (start rollsAnimationStartSpeed (animation p rolls))))
  /\ timer (exec (startRollSwitchAnimation ui) p) rolls = None.
Proof.
  intros Ha H. destruct (startRollSwitchAnimation_own ui p) as [Ea Et]. cbv zeta in Ea, Et.
  rewrite Ea, Et, H, (done_finish_start _ (Ha rolls)). split; reflexivity.
Qed.

Lemma exampleLayout_reachable : SequencerLayout.reachable exampleGlobals exampleLayout.
Proof. apply SequencerLayout.reachable_construct. Defined.

(** ** The line of a connector *)

Lemma pixelCoordinate_spec (v : F32.float) :
  pixelCoordinate v = true -> finite v = true /\ Z.abs (val v) <= 2 ^ 22 * U.
Proof.
  unfold pixelCoordinate. rewrite !andb_true_iff. intros [[Hv H0] H1].
  assert (Hf : finite v = true).
  { destruct v as [s|s| |s m e]; try reflexivity; try discriminate; try exact Hv.
    destruct s; discriminate. }
  split; [assumption|].
  destruct (of_int_exact (- 2 ^ 22) ltac:(lia)) as [Hf0 Hv0].
  destruct (of_int_exact (2 ^ 22) ltac:(lia)) as [Hf1 Hv1].
  rewrite leb_val in H0, H1 by assumption.
  rewrite Hv0 in H0. rewrite Hv1 in H1.
  apply Z.leb_le in H0. apply Z.leb_le in H1. lia.
Qed.

Lemma quot_near (v : Z) : Z.quot v U * U - U < v < Z.quot v U * U + U.
Proof.
  assert (HU : 0 < U) by reflexivity.
  pose proof (Z.quot_rem' v U) as E.
  pose proof (Z.rem_bound_abs v U ltac:(lia)) as B.
  rewrite (Z.abs_eq U) in B by lia.
  assert (Z.abs (Z.rem v U) < U) by lia. lia.
Qed.

Lemma quot_small (v : Z) (n : Z) : 0 <= n -> Z.abs v <= n * U -> Z.abs (Z.quot v U) <= n.
Proof.
  intros Hn Hv. assert (HU : 0 < U) by reflexivity.
  pose proof (quot_near v) as Hq.
  assert (Z.quot v U * U < (n + 1) * U) by lia.
  assert ((- n - 1) * U < Z.quot v U * U) by lia.
  assert (Z.quot v U < n + 1) by nia.
  assert (- n - 1 < Z.quot v U) by nia.
  lia.
Qed.

(** One coordinate: [s] and [e] are the two ends in the parent, [x0] and [w]
    the position and the size [updateBounds] gives to the connector. *)
Lemma local_coordinate (s e : F32.float) :
  pixelCoordinate s = true -> pixelCoordinate e = true ->
  let x0 := Z.min (F32.to_int s) (F32.to_int e) - 10 in
  let w := Z.abs (F32.to_int s - F32.to_int e) + 20 in
  let d := F32.sub s (F32.of_int x0) in
  F32.leb (F32.of_int 9) d = true /\ F32.leb d (F32.of_int (w - 9)) = true.
Proof.
  intros Hs He x0 w d. assert (HU : 0 < U) by reflexivity. pose proof U_small.
  apply pixelCoordinate_spec in Hs, He. destruct Hs as [Hsf Hsv]. destruct He as [Hef Hev].
  pose proof (quot_small _ (2 ^ 22) ltac:(lia) Hsv) as Bs.
  pose proof (quot_small _ (2 ^ 22) ltac:(lia) Hev) as Be.
  pose proof (quot_near (val s)) as Ns.
  assert (Is : F32.to_int s = Z.quot (val s) U).
  { apply to_int_val; [assumption|]. unfold F32.INT_MIN, F32.INT_MAX. lia. }
  assert (Ie : F32.to_int e = Z.quot (val e) U).
  { apply to_int_val; [assumption|]. unfold F32.INT_MIN, F32.INT_MAX. lia. }
  set (i := F32.to_int s) in *. set (j := F32.to_int e) in *.
  rewrite <- Is in *. rewrite <- Ie in *.
  assert (Hx0 : Z.abs x0 <= 2 ^ 24) by (unfold x0; lia).
  assert (Hw : 20 <= w <= 2 ^ 23 + 20) by (unfold w; lia).
  destruct (of_int_exact x0 Hx0) as [Hxf Hxv].
  destruct (of_int_exact 9 ltac:(lia)) as [H9f H9v].
  destruct (of_int_exact (w - 9) ltac:(lia)) as [Hwf Hwv].
  destruct (sub_val s (F32.of_int x0)) as [Hdf Hdv]; try assumption.
  { change (2 ^ 200) with (2 ^ 51 * U). nia. }
  { rewrite Hxv. change (2 ^ 200) with (2 ^ 51 * U). nia. }
  fold d in Hdf, Hdv. rewrite Hxv in Hdv.
  rewrite !leb_val by assumption. rewrite H9v, Hwv, Hdv. split; apply Z.leb_le.
  - rewrite <- (rnd_exact_int 9) by lia. apply rnd_mono; [lia|]. unfold x0. nia.
  - rewrite <- (rnd_exact_int (w - 9)) by lia. apply rnd_mono; [lia|]. unfold x0, w. nia.
Qed.

Lemma updateBounds_spec (parentWidth parentHeight : Z) (c : Connector.MergingEventsConnector) :
  let a := toInt (Connector.getStartPosition parentWidth parentHeight c) in
  let b := toInt (Connector.getEndPosition parentWidth parentHeight c) in
  boxFits a b = true ->
  Connector.connectorBounds (Connector.updateBounds parentWidth parentHeight c)
  = mkRectangle (Z.min (px a) (px b) - 10) (Z.min (py a) (py b) - 10)
                (Z.abs (px a - px b) + 20) (Z.abs (py a - py b) + 20).
Proof.
  cbv zeta. intros H. unfold Connector.updateBounds. rewrite (expanded_corners _ _ H).
  unfold Connector.setBounds. cbn [Connector.connectorBounds rx ry rw rh].
  f_equal; lia.
Qed.

Lemma pixelCoordinate_int (v : F32.float) :
  pixelCoordinate v = true -> Z.abs (F32.to_int v) <= 2 ^ 22.
Proof.
  intros H. apply pixelCoordinate_spec in H. destruct H as [Hf Hv].
  pose proof (quot_small _ (2 ^ 22) ltac:(lia) Hv) as B.
  rewrite to_int_val; [assumption | assumption|].
  unfold F32.INT_MIN, F32.INT_MAX. lia.
Qed.

Lemma pixelPoint_boxFits (s e : Point F32.float) :
  pixelPoint s = true -> pixelPoint e = true -> boxFits (toInt s) (toInt e) = true.
Proof.
  unfold pixelPoint. rewrite !andb_true_iff. intros [Hsx Hsy] [Hex Hey].
  apply pixelCoordinate_int in Hsx, Hsy, Hex, Hey.
  unfold boxFits, spanFits, toInt, F32.INT_MIN, F32.INT_MAX. cbn [px py].
  rewrite !andb_true_iff, !Z.leb_le. lia.
Qed.

Lemma updateBounds_anchors (parentWidth parentHeight : Z) (c : Connector.MergingEventsConnector) :
  Connector.getStartPosition parentWidth parentHeight
    (Connector.updateBounds parentWidth parentHeight c)
  = Connector.getStartPosition parentWidth parentHeight c
  /\ Connector.getEndPosition parentWidth parentHeight
       (Connector.updateBounds parentWidth parentHeight c)
     = Connector.getEndPosition parentWidth parentHeight c.
Proof. split; reflexivity. Qed.

Lemma connector_line_spec (parentWidth parentHeight : Z) (c : Connector.MergingEventsConnector) :
  pixelPoint (Connector.getStartPosition parentWidth parentHeight c) = true ->
  pixelPoint (Connector.getEndPosition parentWidth parentHeight c) = true ->
  let c' := Connector.updateBounds parentWidth parentHeight c in
  wellInside (Connector.connectorBounds c')
             (ConnectorPaint.localStart parentWidth parentHeight c') = true
  /\ wellInside (Connector.connectorBounds c')
                (ConnectorPaint.localEnd parentWidth parentHeight c') = true.
Proof.
  intros Hs He c'.
  unfold ConnectorPaint.localStart, ConnectorPaint.localEnd, JuceGraphics.pointSub,
    JuceGraphics.toFloat, JuceGraphics.getTopLeft, wellInside. cbn [px py].
  destruct (updateBounds_anchors parentWidth parentHeight c) as [Ea Eb]. fold c' in Ea, Eb.
  rewrite Ea, Eb. unfold c'. rewrite updateBounds_spec by (apply pixelPoint_boxFits; assumption).
  unfold pixelPoint in Hs, He.
  apply andb_true_iff in Hs, He. destruct Hs as [Hsx Hsy]. destruct He as [Hex Hey].
  cbn [rx ry rw rh]. unfold toInt. cbn [px py].
  set (S := Connector.getStartPosition parentWidth parentHeight c) in *.
  set (E := Connector.getEndPosition parentWidth parentHeight c) in *.
  destruct (local_coordinate (px S) (px E) Hsx Hex) as [X1 X2].
  destruct (local_coordinate (py S) (py E) Hsy Hey) as [Y1 Y2].
  destruct (local_coordinate (px E) (px S) Hex Hsx) as [X3 X4].
  destruct (local_coordinate (py E) (py S) Hey Hsy) as [Y3 Y4].
  cbv zeta in *.
  rewrite (Z.min_comm (F32.to_int (px E))) in X3, X4.
  rewrite (Z.min_comm (F32.to_int (py E))) in Y3, Y4.
  rewrite <- (Z.abs_opp (F32.to_int (px E) - F32.to_int (px S))) in X4.
  rewrite <- (Z.abs_opp (F32.to_int (py E) - F32.to_int (py S))) in Y4.
  replace (- (F32.to_int (px E) - F32.to_int (px S)))
    with (F32.to_int (px S) - F32.to_int (px E)) in X4 by ring.
  replace (- (F32.to_int (py E) - F32.to_int (py S)))
    with (F32.to_int (py S) - F32.to_int (py E)) in Y4 by ring.
  rewrite X1, X2, Y1, Y2, X3, X4, Y3, Y4. split; reflexivity.
Qed.

Lemma ticks_direction (n : nat) (a : ToggleAnimation.t) :
  direction (ticks n a) = direction a /\ deceleration (ticks n a) = deceleration a.
Proof.
  revert a. induction n as [|n IH]; intros a; [split; reflexivity|].
  cbn [ticks]. destruct (IH (tick a)) as [H1 H2]. rewrite H1, H2. split; reflexivity.
Qed.

(** ** Runs of events *)

Section Runs.

Variable ui : Globals.



Lemma pianoRollFollowsMode_handle (e : Event) (p : RollsSwitchingProxy.t) :
  pianoRollFollowsMode p \/ isRollSwitch e = true ->
  pianoRollFollowsMode (exec (handle ui e) p).
Proof.
  intros H. unfold pianoRollFollowsMode in *.
  assert (Hk : match e with StartRollSwitchAnimation => False | _ => True end ->
               enabled (child p PianoRoll) = isPianoRollMode p ->
               enabled (child (exec (handle ui e) p) PianoRoll)
               = isPianoRollMode (exec (handle ui e) p)).
  { intros He Hp. pose proof (rollsReading_kept ui e He p) as K.
    unfold keeps, rollsReading in K. injection K as K1 K2 K3 K4 K5.
    unfold isPianoRollMode, isInDefaultState, rollsAnimation in *.
    rewrite K3, K5. exact Hp. }
  destruct e as [b| | | |w h|id];
    try (destruct H as [H|H]; [apply Hk; [exact I | exact H] | discriminate]).
  cbn [handle]. destruct (startRollSwitchAnimation_rolls ui p) as [_ [_ [_ [E4 E5]]]].
  cbv zeta in E4. rewrite E4.
  unfold isPianoRollMode, isInDefaultState, rollsAnimation. rewrite E5.
  cbn [start direction]. apply negb_involutive.
Qed.



(** An event of the layout is no event of its container, or one. *)
Lemma container_step (l : SequencerLayout.t) (e : SequencerLayout.Event) :
  SequencerLayout.possible e l = true ->
  SequencerLayout.rollContainer (SequencerLayout.handle ui e l) = SequencerLayout.rollContainer l
  \/ exists e' : Event,
       possible e' (SequencerLayout.rollContainer l) = true
       /\ SequencerLayout.rollContainer (SequencerLayout.handle ui e l)
          = exec (handle ui e') (SequencerLayout.rollContainer l).
Proof.
  intros Hpos. destruct (handle_events ui) as [E1 [E2 [E3 [E4 [E5 E6]]]]].
  destruct e as [| |b|b|b|w h|id]; cbn [SequencerLayout.handle].
  - unfold SequencerLayout.showPatternEditor. cbn [SequencerLayout.rollContainer].
    rewrite exec_gets_bind, exec_when.
    destruct (isPatternRollMode (SequencerLayout.rollContainer l)); cbn [negb];
      [left; reflexivity|].
    right. exists StartRollSwitchAnimation. rewrite E1. split; reflexivity.
  - unfold SequencerLayout.showLinearEditor. cbn [SequencerLayout.rollContainer].
    rewrite exec_gets_bind, exec_when.
    destruct (isPatternRollMode (SequencerLayout.rollContainer l)); [|left; reflexivity].
    right. exists StartRollSwitchAnimation. rewrite E1. split; reflexivity.
  - unfold SequencerLayout.onEditorPanelVisibilityFlagChanged.
    destruct (_ || _); [left; reflexivity|]. cbn [SequencerLayout.rollContainer].
    right. exists StartMapSwitchAnimation. rewrite E2. split; reflexivity.
  - unfold SequencerLayout.onProjectMapLargeModeFlagChanged.
    destruct (_ || _); [left; reflexivity|]. cbn [SequencerLayout.rollContainer].
    right. exists StartScrollerModeSwitchAnimation. rewrite E3. split; reflexivity.
  - unfold SequencerLayout.onUiAnimationsFlagChanged. cbn [SequencerLayout.rollContainer].
    right. exists (SetAnimationsEnabled b). rewrite E4. split; reflexivity.
  - unfold SequencerLayout.onContainer. cbn [SequencerLayout.rollContainer].
    right. exists (SetBounds w h). rewrite E5. split; reflexivity.
  - unfold SequencerLayout.onContainer. cbn [SequencerLayout.rollContainer].
    right. exists (TimerCallback id). rewrite E6. split; [exact Hpos | reflexivity].
Qed.

Lemma layout_run_reachable (events : list SequencerLayout.Event) (l m : SequencerLayout.t) :
  SequencerLayout.reachable ui l -> SequencerLayout.run ui events l = Some m ->
  SequencerLayout.reachable ui m.
Proof.
  revert l. induction events as [|e rest IH]; intros l Hr H; cbn [SequencerLayout.run] in H.
  - injection H as <-. exact Hr.
  - destruct (SequencerLayout.possible e l) eqn:Hpos; [|discriminate].
    apply (IH (SequencerLayout.handle ui e l)); [|exact H].
    apply SequencerLayout.reachable_handle; assumption.
Qed.

Lemma layout_run_pianoRollFollowsMode
  (events : list SequencerLayout.Event) (l m : SequencerLayout.t) :
  SequencerLayout.run ui events l = Some m ->
  pianoRollFollowsMode (SequencerLayout.rollContainer l) ->
  pianoRollFollowsMode (SequencerLayout.rollContainer m).
Proof.
  revert l. induction events as [|e rest IH]; intros l H Hp; cbn [SequencerLayout.run] in H.
  - injection H as <-. exact Hp.
  - destruct (SequencerLayout.possible e l) eqn:Hpos; [|discriminate].
    apply (IH _ H).
    destruct (container_step l e Hpos) as [E|[e' [_ E]]]; rewrite E.
    + exact Hp.
    + apply pianoRollFollowsMode_handle. left. exact Hp.
Qed.

End Runs.

(** A run of given events, one step at a time. *)
Ltac run_events :=
  cbn [run SequencerLayout.run possible SequencerLayout.possible];
  repeat match goal with
         | |- context [if ?b then _ else _] =>
             let E := fresh "E" in
             assert (E : b = true) by (vm_compute; reflexivity); rewrite E; clear E
         end;
  try unfold exampleProxy; reflexivity.

(** ** The offsets of the roll viewports and the exact product *)




(** * Properties *)

(** ** [ToggleAnimation] *)

(** C1.  For every initial speed of the open interval (0, 1), started on any
    animation whose position is in [0, 1] and whose direction is 1 or -1 (as
    the class leaves it between two runs), the calls of
    [tickAndCheckIfDone] that follow [start (initialSpeed)] return [false]
    a finite number [n] of times and then [true]; [finish], called after
    that call, leaves the position equal to 0 or equal to 1. *)
Theorem toggle_settles_and_finishes (a : ToggleAnimation.t) (initialSpeed : F32.float) :
  inUnitRange (position a) = true ->
  unitDirection (direction a) ->
  validSpeed initialSpeed = true ->
  exists n : nat,
    done (ticks n (start initialSpeed a)) = true
    /\ (forall k, (k < n)%nat -> done (ticks k (start initialSpeed a)) = false)
    /\ (let p := position (finish (tick (ticks n (start initialSpeed a)))) in
        F32.eqb p F32.zero = true \/ F32.eqb p F32.one = true).
Proof.
  intros Hp Hd Hs.
  destruct (start_running initialSpeed a Hp Hd Hs) as [Hr [HU Hdec]].
  set (a1 := start initialSpeed a) in *.
  assert (Hex : exists n, done (ticks n a1) = true
                          /\ (forall k, (k < n)%nat -> done (ticks k a1) = false)
                          /\ running (val initialSpeed) (ticks n a1)).
  { destruct (Z.lt_ge_cases (val initialSpeed) (val c0_001)) as [Hlt|Hge].
    - exists 0%nat. split; [|split; [intros k Hk; lia | exact Hr]].
      change (ticks 0 a1) with a1. rewrite (done_spec _ a1 HU Hr).
      pose proof (tick_speed _ a1 HU Hr) as [_ [_ Hsb]].
      change (speed a1) with initialSpeed in Hsb.
      apply orb_true_iff. right. apply Z.ltb_lt. lia.
    - apply (settles (val initialSpeed) HU (val (speed a1))); try reflexivity.
      + apply Hr.
      + exact Hr.
      + apply Hdec. exact Hge. }
  destruct Hex as [n [Hn1 [Hn2 Hn3]]].
  exists n. split; [assumption|]. split; [assumption|].
  apply (finish_tick_exact (val initialSpeed)); assumption.
Qed.

Lemma toggle_settles_and_finishes_witness :
  inUnitRange (position init) = true
  /\ unitDirection (direction init)
  /\ validSpeed rollsAnimationStartSpeed = true
  /\ exists n : nat,
      done (ticks n (start rollsAnimationStartSpeed init)) = true
      /\ (forall k, (k < n)%nat -> done (ticks k (start rollsAnimationStartSpeed init)) = false)
      /\ (let p := position (finish (tick (ticks n (start rollsAnimationStartSpeed init)))) in
          F32.eqb p F32.zero = true \/ F32.eqb p F32.one = true).
Proof.
  split; [reflexivity|]. split; [right; reflexivity|]. split; [reflexivity|].
  apply (toggle_settles_and_finishes init rollsAnimationStartSpeed);
    [reflexivity | right; reflexivity | reflexivity].
Defined.

(** C2.  [canRestart] is false right after a [start] that was made while it
    was true; it is true exactly when the direction is positive and the
    position above 0.85, or the direction negative and the position below
    0.15.  At position 0.9 with direction 1 it is true, at position 0.5 it
    is false whatever the direction. *)
Theorem canRestart_after_start_and_thresholds :
  (forall (a : ToggleAnimation.t) (startSpeed : F32.float),
      canRestart a = true -> canRestart (start startSpeed a) = false)
  /\ (forall a : ToggleAnimation.t,
         canRestart a = true <->
         (F32.ltb F32.zero (direction a) = true /\ F32.ltb c0_85 (position a) = true)
         \/ (F32.ltb (direction a) F32.zero = true /\ F32.ltb (position a) c0_15 = true))
  /\ (forall sp dec : F32.float,
         canRestart (ToggleAnimation.mk (F32.literal 9 10) F32.one sp dec) = true)
  /\ (forall d sp dec : F32.float,
         canRestart (ToggleAnimation.mk (F32.literal 5 10) d sp dec) = false).
Proof.
  assert (Hiff : forall a : ToggleAnimation.t,
             canRestart a = true <->
             (F32.ltb F32.zero (direction a) = true /\ F32.ltb c0_85 (position a) = true)
             \/ (F32.ltb (direction a) F32.zero = true /\ F32.ltb (position a) c0_15 = true)).
  { intros a. unfold canRestart. rewrite orb_true_iff, !andb_true_iff. reflexivity. }
  split; [|split; [exact Hiff|split]].
  - intros a startSpeed H. apply Hiff in H.
    unfold canRestart. cbn [start position direction].
    destruct H as [[Hd Hp]|[Hd Hp]].
    + rewrite (positive_times_minus_one _ Hd), (above_0_85_not_below_0_15 _ Hp).
      rewrite andb_false_r. reflexivity.
    + rewrite (negative_times_minus_one _ Hd).
      destruct (F32.ltb c0_85 (position a)) eqn:E.
      * rewrite (above_0_85_not_below_0_15 _ E) in Hp. discriminate.
      * rewrite andb_false_r. reflexivity.
  - intros sp dec. reflexivity.
  - intros d sp dec. unfold canRestart. cbn [position direction].
    replace (F32.ltb c0_85 (F32.literal 5 10)) with false by (vm_compute; reflexivity).
    replace (F32.ltb (F32.literal 5 10) c0_15) with false by (vm_compute; reflexivity).
    rewrite !andb_false_r. reflexivity.
Qed.

Lemma canRestart_after_start_and_thresholds_witness :
  canRestart init = true
  /\ canRestart (start rollsAnimationStartSpeed init) = false.
Proof.
  split; [reflexivity|].
  apply (proj1 canRestart_after_start_and_thresholds init rollsAnimationStartSpeed).
  reflexivity.
Defined.

(** C7, as the specification words it, fails on the bound: started at 0.5
    from the position 0.499 (the float 0.999f - 0.5f), direction -1, the
    first tick lands on 0.999f itself, which is outside of the open interval
    (0.001, 0.999), and returns [false]: the comparisons of the code are
    strict. *)
Lemma position_on_the_bound_does_not_settle :
  let a := ToggleAnimation.mk (S754_finite false 16743662 (-25)) F32.minus_one F32.zero F32.one in
  let initialSpeed := F32.literal 5 10 in
  inUnitRange (position a) = true
  /\ unitDirection (direction a)
  /\ validSpeed initialSpeed = true
  /\ position (tick (start initialSpeed a)) = c0_999
  /\ F32.leb c0_999 (position (tick (start initialSpeed a))) = true
  /\ done (start initialSpeed a) = false.
Proof. repeat split. right. reflexivity. Qed.

(** C7, as amended.  Of a run started by [start (initialSpeed)], with
    [initialSpeed] in (0, 1), from a position in [0, 1]: every position a
    tick produces, up to and including the first one that returns [true],
    is between [- initialSpeed] and [1 + initialSpeed]; a tick whose position
    is below 0.001 or above 0.999 returns [true]; and [finish] brings the
    position back into [0, 1]. *)
Theorem position_excursion_and_settling (a : ToggleAnimation.t) (initialSpeed : F32.float) :
  inUnitRange (position a) = true ->
  unitDirection (direction a) ->
  validSpeed initialSpeed = true ->
  forall n : nat,
    (forall k, (k < n)%nat -> done (ticks k (start initialSpeed a)) = false) ->
    let b := ticks n (start initialSpeed a) in
    let p := position (tick b) in
    (F32.leb (F32.neg initialSpeed) p = true /\ F32.leb p (F32.add F32.one initialSpeed) = true)
    /\ (F32.ltb p c0_001 = true \/ F32.ltb c0_999 p = true -> done b = true)
    /\ inUnitRange (position (finish (tick b))) = true.
Proof.
  intros Hp Hd Hs n Hn b p.
  destruct (start_running initialSpeed a Hp Hd Hs) as [Hr [HU _]].
  pose proof (ticks_running (val initialSpeed) n HU _ Hr Hn) as Hb. fold b in Hb.
  apply validSpeed_spec in Hs. destruct Hs as [Hsf Hsv].
  pose proof U_small. pose proof U_pos.
  pose proof (tick_position _ b HU Hb) as [Hpf _]. fold p in Hpf.
  pose proof (tick_position_bounds _ b HU Hb) as [[Hlo Hhi] _]. fold p in Hlo, Hhi.
  destruct (add_val F32.one initialSpeed) as [Haf Hav];
    try (reflexivity || assumption || (rewrite ?val_one; lia)).
  rewrite val_one in Hav.
  destruct (neg_val initialSpeed) as [Hnf Hnv].
  split; [split|split].
  - rewrite leb_val by (assumption || (rewrite Hnf; assumption)).
    rewrite Hnv. apply Z.leb_le. assumption.
  - rewrite leb_val by assumption. rewrite Hav. apply Z.leb_le. assumption.
  - intros Hout.
    change (done b) with (F32.ltb p c0_001 || F32.ltb c0_999 p
                          || F32.ltb (speed (tick b)) c0_001).
    destruct Hout as [-> | ->]; [reflexivity | rewrite orb_true_r; reflexivity].
  - apply inUnitRange_spec.
    pose proof (tick_position_abs _ b HU Hb) as Habs.
    destruct (finish_spec (tick b) Hpf Habs ltac:(apply Hb)) as [Hf [Hv _]].
    split; assumption.
Qed.

Lemma position_excursion_and_settling_witness :
  let a := ToggleAnimation.mk (F32.literal 9 10) F32.minus_one F32.zero F32.one in
  let b := ticks 0 (start rollsAnimationStartSpeed a) in
  let p := position (tick b) in
  inUnitRange (position a) = true
  /\ unitDirection (direction a)
  /\ validSpeed rollsAnimationStartSpeed = true
  /\ F32.ltb F32.one p = true
  /\ (F32.leb (F32.neg rollsAnimationStartSpeed) p = true
      /\ F32.leb p (F32.add F32.one rollsAnimationStartSpeed) = true)
  /\ (F32.ltb p c0_001 = true \/ F32.ltb c0_999 p = true -> done b = true)
  /\ inUnitRange (position (finish (tick b))) = true.
Proof.
  cbv zeta.
  split; [reflexivity|]. split; [right; reflexivity|]. split; [reflexivity|].
  split; [reflexivity|].
  apply (position_excursion_and_settling
           (ToggleAnimation.mk (F32.literal 9 10) F32.minus_one F32.zero F32.one)
           rollsAnimationStartSpeed);
    [reflexivity | right; reflexivity | reflexivity | intros k Hk; lia].
Defined.

(** C10.  An animation that has not been started since it was made (the
    default one, reset or not) has speed 0: its first tick returns [true]
    and leaves the position as it is, the increment [direction * speed]
    being zero and the speed below 0.001. *)
Theorem neverStarted_first_tick_settles (a : ToggleAnimation.t) :
  neverStarted a ->
  snd (ToggleAnimation.tickAndCheckIfDone a) = true
  /\ position (fst (ToggleAnimation.tickAndCheckIfDone a)) = position a
  /\ speed a = F32.zero
  /\ F32.eqb (F32.mul (direction a) (speed a)) F32.zero = true
  /\ F32.ltb (speed a) c0_001 = true.
Proof.
  intros H. destruct (neverStarted_inv a H) as [Hs [Hd Hp]].
  destruct a as [p d s dec]. cbn [position direction speed deceleration] in *. subst s dec.
  destruct Hp as [[-> ->]|[-> ->]]; repeat split.
Qed.

Lemma neverStarted_first_tick_settles_witness :
  neverStarted (resetToEnd init)
  /\ snd (ToggleAnimation.tickAndCheckIfDone (resetToEnd init)) = true
  /\ position (fst (ToggleAnimation.tickAndCheckIfDone (resetToEnd init))) = position (resetToEnd init).
Proof.
  split; [apply ns_resetToEnd; apply ns_init|].
  destruct (neverStarted_first_tick_settles (resetToEnd init) (ns_resetToEnd _ ns_init))
    as [H1 [H2 _]].
  split; assumption.
Defined.

(** ** [RollsSwitchingProxy] *)

(** C3 fails for two of the three operations.  With the animations disabled,
    [startMapSwitchAnimation] and [startScrollerModeSwitchAnimation] do what
    they do with the animations enabled: they start their timer, with the
    interval 0, and leave the animation where [start] put it, one full travel
    away from the position [finish] would give; the map switch leaves both
    bottom panels visible.  Only [startRollSwitchAnimation] tests
    [areAnimationsEnabled]. *)
Theorem map_and_scroller_mode_switch_ignore_disabled_animations :
  let p := exec (setAnimationsEnabled false) exampleProxy in
  let p1 := exec (startMapSwitchAnimation exampleGlobals) p in
  let p2 := exec startScrollerModeSwitchAnimation p in
  areAnimationsEnabled p = false
  /\ (timer p1 maps = Some 0
      /\ ToggleAnimation.position (mapsAnimation p1) = F32.zero
      /\ ToggleAnimation.position (ToggleAnimation.finish (mapsAnimation p1)) = F32.one
      /\ visible (child p1 BottomMapsScroller) = true
      /\ visible (child p1 BottomEditorsScroller) = true)
  /\ (timer p2 scrollerMode = Some 0
      /\ ToggleAnimation.position (scrollerModeAnimation p2) = F32.one
      /\ ToggleAnimation.position (ToggleAnimation.finish (scrollerModeAnimation p2)) = F32.zero).
Proof. vm_compute. repeat split. Qed.



Section ProxyClaims.

Variable ui : Globals.



(** C9.  With the animations disabled, [startRollSwitchAnimation], called in
    any settled reachable state, leaves the proxy in the other roll mode
    and no timer running for the rolls. *)
Theorem roll_switch_without_animations (p : RollsSwitchingProxy.t) :
  reachable ui p -> settled p = true -> areAnimationsEnabled p = false ->
  let p' := exec (startRollSwitchAnimation ui) p in
  isPianoRollMode p' = negb (isPianoRollMode p)
  /\ isPatternRollMode p' = negb (isPatternRollMode p)
  /\ isTimerRunning rolls p' = false
  /\ settled p' = true.
Proof.
  intros Hr _ Hoff. destruct (reachable_invariants ui p Hr) as [_ Ha].
  specialize (Ha rolls).
  pose proof (done_finish_start _ Ha) as Hdone.
  pose proof (flip_direction _ ltac:(apply Ha)) as [_ Hflip].
  unfold settled. cbv zeta. proxy_exec; try congruence.
  all: unfold ToggleAnimation.isInDefaultState;
    cbn [ToggleAnimation.finish ToggleAnimation.tick ToggleAnimation.tickAndCheckIfDone
         ToggleAnimation.start ToggleAnimation.direction fst];
    rewrite Hflip; repeat split; try reflexivity.
Qed.

End ProxyClaims.

Lemma exampleProxy_reachable : reachable exampleGlobals exampleProxy.
Proof.
  unfold exampleProxy. apply reachable_handle; [|reflexivity].
  apply reachable_construct.
Defined.



Lemma roll_switch_without_animations_witness :
  let p := exec (handle exampleGlobals (SetAnimationsEnabled false)) exampleProxy in
  let p' := exec (startRollSwitchAnimation exampleGlobals) p in
  reachable exampleGlobals p
  /\ settled p = true
  /\ areAnimationsEnabled p = false
  /\ isPianoRollMode p' = negb (isPianoRollMode p)
  /\ isPatternRollMode p' = negb (isPatternRollMode p)
  /\ isTimerRunning rolls p' = false
  /\ settled p' = true.
Proof.
  cbv zeta.
  assert (Hr : reachable exampleGlobals
                 (exec (handle exampleGlobals (SetAnimationsEnabled false)) exampleProxy))
    by (apply reachable_handle; [exact exampleProxy_reachable | reflexivity]).
  split; [exact Hr|]. split; [reflexivity|]. split; [reflexivity|].
  apply (roll_switch_without_animations exampleGlobals _ Hr); reflexivity.
Defined.

(** ** Merge connectors *)

(** C5, as the specification words it, fails for a parent so wide that a
    pixel does not fit in an [int].  In a parent 2147483647 wide and 600
    high, the anchors (0, 0.5) and (1, 0.25) fall on the pixels (0, 300)
    and ([INT_MIN], 150): [float (2147483647)] is [2^31], which the
    conversion to [int] cannot hold.  The bounds [updateBounds] sets are 0
    wide and begin at 2147483638, to the right of both pixels. *)
Lemma wide_parent_overflows_the_bounds :
  let parentWidth := 2147483647 in
  let parentHeight := 600 in
  let startPosition := mkPoint F32.zero (F32.literal 1 2) in
  let endPosition := mkPoint F32.one (F32.literal 1 4) in
  let c := Connector.setEndPosition parentWidth parentHeight endPosition
             (Connector.construct None startPosition) in
  let a := anchorPixel parentWidth parentHeight (Connector.startPositionAbs c) in
  let b := anchorPixel parentWidth parentHeight (Connector.endPositionAbs c) in
  (1 <= parentWidth /\ 1 <= parentHeight)
  /\ (inUnitRange (px startPosition) = true /\ inUnitRange (py startPosition) = true
      /\ inUnitRange (px endPosition) = true /\ inUnitRange (py endPosition) = true)
  /\ F32.of_int parentWidth = F32.of_int (2 ^ 31)
  /\ a = mkPoint 0 300
  /\ b = mkPoint F32.INT_MIN 150
  /\ Connector.connectorBounds c = mkRectangle 2147483638 140 0 170
  /\ rx (Connector.connectorBounds c) <> Z.min (px a) (px b) - 10
  /\ getRight (Connector.connectorBounds c) <> Z.max (px a) (px b) + 10
  /\ boxFits a b = false.
Proof. vm_compute. repeat split; discriminate. Qed.

(** C5, as amended.  Whatever the size of the parent and the two relative
    anchors, as long as the two anchor pixels (the relative anchor times the
    size of the parent, as an [int]) span a box that fits in an [int] with
    10 more on each side: the bounds [updateBounds] sets are the bounding
    box of the two anchor pixels with 10 more on each side; the relative
    anchors are left as they are, so that after the parent changes size the
    anchor pixels and the bounds are those of the new size. *)
Theorem connector_bounds_follow_the_parent
  (parentWidth parentHeight : Z) (c : Connector.MergingEventsConnector) :
  let a := anchorPixel parentWidth parentHeight (Connector.startPositionAbs c) in
  let b := anchorPixel parentWidth parentHeight (Connector.endPositionAbs c) in
  let c' := Connector.updateBounds parentWidth parentHeight c in
  boxFits a b = true ->
  (toInt (Connector.getStartPosition parentWidth parentHeight c) = a
   /\ toInt (Connector.getEndPosition parentWidth parentHeight c) = b)
  /\ (rx (Connector.connectorBounds c') = Z.min (px a) (px b) - 10
      /\ ry (Connector.connectorBounds c') = Z.min (py a) (py b) - 10
      /\ getRight (Connector.connectorBounds c') = Z.max (px a) (px b) + 10
      /\ getBottom (Connector.connectorBounds c') = Z.max (py a) (py b) + 10)
  /\ (Connector.startPositionAbs c' = Connector.startPositionAbs c
      /\ Connector.endPositionAbs c' = Connector.endPositionAbs c)
  /\ (forall newWidth newHeight : Z,
         let a' := anchorPixel newWidth newHeight (Connector.startPositionAbs c) in
         let b' := anchorPixel newWidth newHeight (Connector.endPositionAbs c) in
         let c'' := Connector.parentSizeChanged newWidth newHeight c' in
         toInt (Connector.getStartPosition newWidth newHeight c'') = a'
         /\ toInt (Connector.getEndPosition newWidth newHeight c'') = b'
         /\ Connector.connectorBounds c''
            = Connector.connectorBounds (Connector.updateBounds newWidth newHeight c)
         /\ (boxFits a' b' = true ->
             rx (Connector.connectorBounds c'') = Z.min (px a') (px b') - 10
             /\ ry (Connector.connectorBounds c'') = Z.min (py a') (py b') - 10
             /\ getRight (Connector.connectorBounds c'') = Z.max (px a') (px b') + 10
             /\ getBottom (Connector.connectorBounds c'') = Z.max (py a') (py b') + 10)).
Proof.
  cbv zeta. intros Hfit. unfold Connector.getStartPosition, Connector.getEndPosition.
  split; [split; apply toInt_getRelativePoint|].
  split.
  - unfold Connector.updateBounds, Connector.getStartPosition, Connector.getEndPosition.
    rewrite !toInt_getRelativePoint. apply expanded_corners_edges. exact Hfit.
  - split; [split; reflexivity|].
    intros newWidth newHeight.
    split; [apply toInt_getRelativePoint|]. split; [apply toInt_getRelativePoint|].
    split; [reflexivity|]. intros Hfit'.
    unfold Connector.parentSizeChanged, Connector.repaint, Connector.updateBounds,
      Connector.getStartPosition, Connector.getEndPosition.
    cbn [Connector.connectorBounds Connector.startPositionAbs Connector.endPositionAbs
         Connector.setBounds].
    rewrite !toInt_getRelativePoint.
    apply (expanded_corners_edges _ _ c Hfit').
Qed.

Lemma connector_bounds_follow_the_parent_witness :
  let a := anchorPixel 800 600 (Connector.startPositionAbs exampleConnector) in
  let b := anchorPixel 800 600 (Connector.endPositionAbs exampleConnector) in
  let c' := Connector.updateBounds 800 600 exampleConnector in
  boxFits a b = true
  /\ a = mkPoint 200 300 /\ b = mkPoint 600 150
  /\ rx (Connector.connectorBounds c') = Z.min (px a) (px b) - 10
  /\ ry (Connector.connectorBounds c') = Z.min (py a) (py b) - 10
  /\ getRight (Connector.connectorBounds c') = Z.max (px a) (px b) + 10
  /\ getBottom (Connector.connectorBounds c') = Z.max (py a) (py b) + 10.
Proof.
  cbv zeta. split; [vm_compute; reflexivity|].
  split; [vm_compute; reflexivity|]. split; [vm_compute; reflexivity|].
  assert (Hfit : boxFits (anchorPixel 800 600 (Connector.startPositionAbs exampleConnector))
                         (anchorPixel 800 600 (Connector.endPositionAbs exampleConnector)) = true)
    by (vm_compute; reflexivity).
  exact (proj1 (proj2 (connector_bounds_follow_the_parent 800 600 exampleConnector Hfit))).
Defined.

(** C8.  [setTargetComponent] of the clips connector sets the end colour to
    the track colour of the candidate when the candidate is a clip
    component, and to the start colour otherwise (another component, or
    none); either way it records the candidate and asks for a repaint. *)
Theorem clips_connector_target_colour
  (candidate : option Connector.Component) (c : Connector.MergingClipsConnector) :
  let c' := Connector.setTargetComponentClips candidate c in
  Connector.endColour c' = match candidate with
                           | Some (Connector.ClipComponent trackColour) => trackColour
                           | _ => Connector.startColour c
                           end
  /\ Connector.startColour c' = Connector.startColour c
  /\ Connector.targetComponent (Connector.base c') = candidate
  /\ Connector.repaints (Connector.base c') = S (Connector.repaints (Connector.base c)).
Proof. destruct candidate as [[trackColour|]|]; repeat split. Qed.

(** * Further properties *)

(** X1.  Along a run started by [start (initialSpeed)], with [initialSpeed]
    in (0, 1), from a position in [0, 1]: as long as no tick has returned
    [true], the direction and the deceleration stay what [start] made them,
    the speed stays between 0 and [initialSpeed] and never grows, it gets
    strictly smaller at each tick while it is at least 0.001 (the initial
    speed being at least 0.001), and the position never moves against the
    direction. *)
Theorem run_is_monotone (a : ToggleAnimation.t) (initialSpeed : F32.float) (n : nat) :
  inUnitRange (position a) = true ->
  unitDirection (direction a) ->
  validSpeed initialSpeed = true ->
  (forall k, (k < n)%nat -> done (ticks k (start initialSpeed a)) = false) ->
  let b := ticks n (start initialSpeed a) in
  direction (tick b) = F32.mul (direction a) F32.minus_one
  /\ deceleration (tick b) = F32.sub F32.one initialSpeed
  /\ F32.leb F32.zero (speed (tick b)) = true
  /\ F32.leb (speed (tick b)) (speed b) = true
  /\ F32.leb (speed b) initialSpeed = true
  /\ (F32.leb c0_001 initialSpeed = true -> F32.leb c0_001 (speed b) = true ->
      F32.ltb (speed (tick b)) (speed b) = true)
  /\ (if isInDefaultState b
      then F32.leb (position (tick b)) (position b) = true
      else F32.leb (position b) (position (tick b)) = true).
Proof.
  intros Hp Hd Hs Hn b.
  destruct (start_running initialSpeed a Hp Hd Hs) as [Hr [HU Hdec]].
  pose proof (ticks_running (val initialSpeed) n HU _ Hr Hn) as Hb. fold b in Hb.
  destruct (ticks_direction n (start initialSpeed a)) as [Ed Ec]. fold b in Ed, Ec.
  pose proof (tick_speed _ b HU Hb) as [Hsf [Hsv Hsb]].
  pose proof (tick_position _ b HU Hb) as [Hpf _].
  pose proof (tick_position_bounds _ b HU Hb) as [_ [Hup Hdown]].
  apply validSpeed_spec in Hs. destruct Hs as [Hif Hiv].
  destruct Hb as [B1 B2 B3 B4 B5 B6 B7].
  split; [exact Ed|]. split; [exact Ec|].
  split; [rewrite leb_val by (assumption || reflexivity); apply Z.leb_le; rewrite val_zero; lia|].
  split; [rewrite leb_val by assumption; apply Z.leb_le; lia|].
  split; [rewrite leb_val by assumption; apply Z.leb_le; lia|].
  split.
  - intros H1 H2. rewrite leb_val in H1, H2 by (assumption || reflexivity).
    apply Z.leb_le in H1, H2.
    rewrite ltb_val by assumption. apply Z.ltb_lt. rewrite Hsv.
    apply speed_decreases; [assumption | assumption|].
    split; [lia|]. rewrite Ec. apply Hdec. assumption.
  - unfold isInDefaultState. destruct B3 as [E|E]; rewrite E.
    + change (F32.ltb F32.one F32.zero) with false. cbv iota.
      rewrite leb_val by assumption. apply Z.leb_le. apply Hup. assumption.
    + change (F32.ltb F32.minus_one F32.zero) with true. cbv iota.
      rewrite leb_val by assumption. apply Z.leb_le. apply Hdown. assumption.
Qed.

Lemma run_is_monotone_witness :
  inUnitRange (position init) = true
  /\ unitDirection (direction init)
  /\ validSpeed rollsAnimationStartSpeed = true
  /\ F32.leb c0_001 rollsAnimationStartSpeed = true
  /\ F32.leb c0_001 (speed (ticks 0 (start rollsAnimationStartSpeed init))) = true
  /\ F32.ltb (speed (tick (ticks 0 (start rollsAnimationStartSpeed init))))
             (speed (ticks 0 (start rollsAnimationStartSpeed init))) = true.
Proof.
  split; [reflexivity|]. split; [right; reflexivity|]. split; [reflexivity|].
  split; [reflexivity|]. split; [reflexivity|].
  assert (Hn : forall k, (k < 0)%nat -> done (ticks k (start rollsAnimationStartSpeed init)) = false)
    by (intros k Hk; lia).
  destruct (run_is_monotone init rollsAnimationStartSpeed 0
              eq_refl (or_intror eq_refl) eq_refl Hn) as [_ [_ [_ [_ [_ [H _]]]]]].
  exact (H eq_refl eq_refl).
Defined.

(** X2.  Called on an animation whose position is in [0, 1] and whose
    direction is 1 or -1, [finish] puts the position on the end the
    animation is heading to (1 for the direction 1, 0 for -1), so that
    [canRestart] is true; it changes nothing else, and a second [finish]
    changes nothing at all. *)
Theorem finish_brings_to_rest (a : ToggleAnimation.t) :
  inUnitRange (position a) = true ->
  unitDirection (direction a) ->
  atRest (finish a) = true
  /\ canRestart (finish a) = true
  /\ F32.eqb (position (finish (finish a))) (position (finish a)) = true
  /\ isInDefaultState (finish a) = isInDefaultState a
  /\ speed (finish a) = speed a
  /\ deceleration (finish a) = deceleration a.
Proof.
  intros Hp Hd. apply inUnitRange_spec in Hp. destruct Hp as [Hpf Hpv]. pose proof U_pos.
  destruct (finish_spec a Hpf ltac:(lia) Hd) as [Hf [Hv [Hone Hzero]]].
  assert (Hd' : unitDirection (direction (finish a))) by exact Hd.
  destruct (finish_spec (finish a) Hf ltac:(lia) Hd') as [Hf2 [Hv2 [Hone2 Hzero2]]].
  assert (Hat : atRest (finish a) = true).
  { apply atRest_spec; [assumption | assumption|].
    change (direction (finish a)) with (direction a).
    destruct Hd as [E|E]; [right | left]; (split; [assumption|]);
      [apply Hone | apply Hzero]; assumption || lia. }
  split; [exact Hat|].
  split; [apply canRestart_atRest; assumption|].
  split; [|repeat split].
  rewrite eqb_val by assumption. apply Z.eqb_eq.
  change (direction (finish a)) with (direction a) in *.
  destruct Hd as [E|E].
  - rewrite (Hone2 E ltac:(lia)), (Hone E ltac:(lia)). reflexivity.
  - rewrite (Hzero2 E ltac:(lia)), (Hzero E ltac:(lia)). reflexivity.
Qed.

Lemma finish_brings_to_rest_witness :
  let a := ToggleAnimation.mk (F32.literal 9 10) F32.one F32.zero F32.one in
  inUnitRange (position a) = true /\ unitDirection (direction a)
  /\ atRest (finish a) = true /\ canRestart (finish a) = true.
Proof.
  cbv zeta. split; [reflexivity|]. split; [left; reflexivity|].
  destruct (finish_brings_to_rest (ToggleAnimation.mk (F32.literal 9 10) F32.one F32.zero F32.one)
              eq_refl (or_introl eq_refl)) as [H1 [H2 _]].
  split; assumption.
Defined.

(** X3.  In every reachable state of the proxy, an animation whose timer does
    not run is at rest: at 0 in its default state, at 1 otherwise; and
    [canAnimate] is true for it. *)
Theorem stopped_timer_animation_at_rest (ui : Globals) (p : RollsSwitchingProxy.t) (id : Timers) :
  reachable ui p -> isTimerRunning id p = false ->
  atRest (animation p id) = true /\ canAnimate id p = true.
Proof.
  intros Hr Hstop.
  destruct (reachable_more ui p Hr) as [Hrest _].
  destruct (reachable_invariants ui p Hr) as [_ Ha].
  pose proof (Hrest id Hstop) as H. split; [assumption|].
  assert (Hc : canRestart (animation p id) = true)
    by (apply canRestart_atRest; [apply Ha | apply Ha | assumption]).
  destruct id; exact Hc.
Qed.

Lemma stopped_timer_animation_at_rest_witness :
  reachable exampleGlobals exampleProxy
  /\ isTimerRunning rolls exampleProxy = false
  /\ atRest (animation exampleProxy rolls) = true
  /\ canAnimate rolls exampleProxy = true.
Proof.
  split; [exact exampleProxy_reachable|]. split; [reflexivity|].
  apply (stopped_timer_animation_at_rest exampleGlobals exampleProxy rolls);
    [exact exampleProxy_reachable | reflexivity].
Defined.

(** X4.  In every reachable state of the proxy, a timer that runs stops by
    itself: there is a number [n] such that the timer still runs after each
    of the first [n] callbacks and is stopped by the next one, which leaves
    the animation at rest.  This holds with the animations disabled as well. *)
Theorem running_timer_stops (ui : Globals) (p : RollsSwitchingProxy.t) (id : Timers) :
  reachable ui p -> isTimerRunning id p = true ->
  exists n : nat,
    (forall k, (k <= n)%nat -> isTimerRunning id (callbacks ui id k p) = true)
    /\ isTimerRunning id (callbacks ui id (S n) p) = false
    /\ atRest (animation (callbacks ui id (S n) p) id) = true.
Proof.
  intros Hr Hrun.
  destruct (reachable_more ui p Hr) as [_ [Hstarted _]].
  destruct (reachable_invariants ui p Hr) as [_ Ha].
  destruct (callbacks_settle ui id p (Ha id)) as [n [H1 [H2 H3]]].
  - rewrite (Hstarted id Hrun). apply startSpeed_decelerates.
  - exists n. split; [|split; assumption].
    intros k Hk. unfold isTimerRunning. rewrite (H1 k Hk). exact Hrun.
Qed.

Lemma running_timer_stops_witness :
  let p := exec (handle exampleGlobals StartMapSwitchAnimation) exampleProxy in
  reachable exampleGlobals p
  /\ isTimerRunning maps p = true
  /\ exists n : nat,
      (forall k, (k <= n)%nat -> isTimerRunning maps (callbacks exampleGlobals maps k p) = true)
      /\ isTimerRunning maps (callbacks exampleGlobals maps (S n) p) = false
      /\ atRest (animation (callbacks exampleGlobals maps (S n) p) maps) = true.
Proof.
  cbv zeta.
  assert (Hr : reachable exampleGlobals
                 (exec (handle exampleGlobals StartMapSwitchAnimation) exampleProxy))
    by (apply reachable_handle; [exact exampleProxy_reachable | reflexivity]).
  split; [exact Hr|]. split; [reflexivity|].
  apply (running_timer_stops exampleGlobals _ maps Hr). reflexivity.
Defined.

(** X5.  A callback of one timer leaves the two other timers and their
    animations as they are; it stops its own timer or leaves it as it is;
    and it changes no mode: the directions of the three animations, the
    enabled flags, the state of the two scrollers, the interval and the size
    are the same, and no hidden component is made visible. *)
Theorem timerCallback_touches_only_its_own (ui : Globals) (id : Timers)
  (p : RollsSwitchingProxy.t) :
  let q := exec (timerCallback ui id) p in
  sameMode p q
  /\ (forall id', Timers_eqb id id' = false ->
                  animation q id' = animation p id' /\ timer q id' = timer p id')
  /\ (timer q id = timer p id \/ timer q id = None).
Proof.
  cbv zeta. split; [apply timerCallback_frame|].
  split; [intros id' Hne; apply timerCallback_others; assumption|].
  destruct (timerCallback_own ui id p) as [_ Et].
  rewrite Et; destruct (done (animation p id)); [right | left]; reflexivity.
Qed.

(** X6.  After [setAnimationsEnabled (b)], [areAnimationsEnabled] returns [b]
    and the maps scroller has been told [b]; the timers that run keep
    running, the animations, the components and the size are untouched; and
    an earlier call leaves no trace. *)
Theorem setAnimationsEnabled_sets_the_interval_only
  (animationsEnabled previously : bool) (p : RollsSwitchingProxy.t) :
  let q := exec (setAnimationsEnabled animationsEnabled) p in
  areAnimationsEnabled q = animationsEnabled
  /\ mapsScrollerAnimationsEnabled q = animationsEnabled
  /\ animationsTimerInterval q = (if animationsEnabled then 16 else 0)
  /\ (forall id, timer q id = timer p id /\ animation q id = animation p id)
  /\ (forall c, child q c = child p c)
  /\ mapsScrollerMode q = mapsScrollerMode p
  /\ width q = width p /\ height q = height p
  /\ exec (setAnimationsEnabled animationsEnabled) (exec (setAnimationsEnabled previously) p) = q.
Proof. cbv zeta. destruct animationsEnabled; repeat split. Qed.

(** X7.  For heights ordered as the panels need them, the scroller height the
    four [updateAnimated...] functions compute is between
    [rollScrollerHeight] and [projectMapHeight] in every reachable state;
    once the timer of the scroller mode has stopped it is [projectMapHeight]
    in the full map mode and [rollScrollerHeight] otherwise. *)
Theorem scroller_height_follows_the_mode (ui : Globals) (p : RollsSwitchingProxy.t) :
  validHeights ui = true -> reachable ui p ->
  rollScrollerHeight ui <= currentScrollerHeight ui p <= projectMapHeight ui
  /\ (isTimerRunning scrollerMode p = false ->
      currentScrollerHeight ui p
      = if isFullProjectMapMode p then projectMapHeight ui else rollScrollerHeight ui).
Proof.
  intros Hui Hr.
  destruct (reachable_more ui p Hr) as [Hrest [_ [[Hmode _] _]]].
  destruct (reachable_invariants ui p Hr) as [_ Ha].
  destruct (currentScrollerHeight_range ui Hui p (Ha scrollerMode)) as [Hrange [H0 H1]].
  split; [assumption|]. intros Hstop.
  pose proof (Hrest scrollerMode Hstop) as Hat.
  apply atRest_spec in Hat; try apply Ha.
  rewrite Hmode. unfold scrollerModeAnimation in *. unfold isInDefaultState.
  destruct Hat as [[E V]|[E V]]; rewrite E.
  - apply H0. assumption.
  - apply H1. assumption.
Qed.

Lemma scroller_height_follows_the_mode_witness :
  validHeights exampleGlobals = true
  /\ reachable exampleGlobals exampleProxy
  /\ isTimerRunning scrollerMode exampleProxy = false
  /\ isFullProjectMapMode exampleProxy = false
  /\ currentScrollerHeight exampleGlobals exampleProxy = rollScrollerHeight exampleGlobals.
Proof.
  split; [reflexivity|]. split; [exact exampleProxy_reachable|]. split; [reflexivity|].
  split; [reflexivity|].
  apply (proj2 (scroller_height_follows_the_mode exampleGlobals exampleProxy eq_refl
                  exampleProxy_reachable)).
  reflexivity.
Defined.

(** X8.  In every reachable state, [updateAnimatedRollsBounds] gives the two
    roll viewports the height [H] left above the scroller, puts the first
    one between [-(H + 1)] and 0, and the second one right below the first:
    at the bottom of the first, or one pixel lower.  The two never overlap. *)
Theorem roll_viewports_are_stacked (ui : Globals) (p : RollsSwitchingProxy.t) :
  reachable ui p ->
  0 <= height p - currentScrollerHeight ui p + 1 <= 2 ^ 24 ->
  let H := height p - currentScrollerHeight ui p in
  let q := exec (updateAnimatedRollsBounds ui) p in
  let first := bounds (child q PianoViewport) in
  let second := bounds (child q PatternViewport) in
  rh first = Z.max 0 H /\ rh second = Z.max 0 H
  /\ - (H + 1) <= ry first <= 0
  /\ (ry second = ry first + H \/ ry second = ry first + H + 1).
Proof.
  intros Hr Hh. cbv zeta.
  destruct (reachable_invariants ui p Hr) as [_ Ha].
  destruct (updateAnimatedRollsBounds_spec ui p) as [E1 E2]. cbv zeta in E1, E2.
  rewrite E1, E2. cbn [rx ry rw rh].
  destruct (viewport_positions ui p (Ha rolls) Hh) as [H1 [H2 _]].
  split; [reflexivity|]. split; [reflexivity|]. split; assumption.
Qed.

Lemma roll_viewports_are_stacked_witness :
  let p := exec (handle exampleGlobals StartRollSwitchAnimation) exampleProxy in
  let q := exec (updateAnimatedRollsBounds exampleGlobals) p in
  reachable exampleGlobals p
  /\ height p - currentScrollerHeight exampleGlobals p = 574
  /\ - 575 <= ry (bounds (child q PianoViewport)) <= 0
  /\ (ry (bounds (child q PatternViewport)) = ry (bounds (child q PianoViewport)) + 574
      \/ ry (bounds (child q PatternViewport)) = ry (bounds (child q PianoViewport)) + 574 + 1).
Proof.
  cbv zeta.
  assert (Hr : reachable exampleGlobals
                 (exec (handle exampleGlobals StartRollSwitchAnimation) exampleProxy))
    by (apply reachable_handle; [exact exampleProxy_reachable | reflexivity]).
  split; [exact Hr|]. split; [reflexivity|].
  apply (roll_viewports_are_stacked exampleGlobals _ Hr). vm_compute. split; discriminate.
Defined.

(** X9.  In every reachable state where the timer of the rolls does not run,
    [resized] puts the viewport of the current roll at the top left corner,
    as wide as the proxy and as high as what is left above the scroller; the
    other viewport is entirely above it (pattern mode) or below it (piano
    mode). *)
Theorem settled_roll_viewport_fills_the_top (ui : Globals) (p : RollsSwitchingProxy.t) :
  reachable ui p -> isTimerRunning rolls p = false ->
  0 <= height p - currentScrollerHeight ui p + 1 <= 2 ^ 24 ->
  let H := height p - currentScrollerHeight ui p in
  let q := exec (resized ui) p in
  let shown := mkRectangle 0 0 (Z.max 0 (width p)) (Z.max 0 H) in
  if isPianoRollMode p
  then bounds (child q PianoViewport) = shown
       /\ ry (bounds (child q PatternViewport)) = H + 1
  else bounds (child q PatternViewport) = shown
       /\ ry (bounds (child q PianoViewport)) = - (H + 1).
Proof.
  intros Hr Hstop Hh. cbv zeta.
  destruct (reachable_invariants ui p Hr) as [_ Ha].
  destruct (reachable_more ui p Hr) as [Hrest _].
  pose proof (Hrest rolls Hstop) as Hat.
  apply atRest_spec in Hat; try apply Ha.
  destruct (viewport_positions ui p (Ha rolls) Hh) as [_ [_ [H0 H1]]].
  assert (Eq : forall c, Child_eqb c PianoViewport || Child_eqb c PatternViewport = true ->
                         bounds (child (exec (resized ui) p) c)
                         = bounds (child (exec (updateAnimatedRollsBounds ui) p) c)).
  { intros c Hc. destruct c; try discriminate; proxy_exec; reflexivity. }
  rewrite !Eq by reflexivity.
  destruct (updateAnimatedRollsBounds_spec ui p) as [E1 E2]. cbv zeta in E1, E2.
  rewrite E1, E2. cbn [ry].
  unfold isPianoRollMode, isInDefaultState, rollsAnimation in *.
  destruct Hat as [[E V]|[E V]]; rewrite E.
  - change (F32.ltb F32.minus_one F32.zero) with true. cbv iota.
    destruct (H0 V) as [-> ->]. split; reflexivity.
  - change (F32.ltb F32.one F32.zero) with false. cbv iota.
    destruct (H1 V) as [-> ->]. split; reflexivity.
Qed.

Lemma settled_roll_viewport_fills_the_top_witness :
  let q := exec (resized exampleGlobals) exampleProxy in
  reachable exampleGlobals exampleProxy
  /\ isTimerRunning rolls exampleProxy = false
  /\ isPianoRollMode exampleProxy = true
  /\ bounds (child q PianoViewport) = mkRectangle 0 0 800 574
  /\ ry (bounds (child q PatternViewport)) = 575.
Proof.
  cbv zeta. split; [exact exampleProxy_reachable|]. split; [reflexivity|]. split; [reflexivity|].
  apply (settled_roll_viewport_fills_the_top exampleGlobals exampleProxy
           exampleProxy_reachable eq_refl).
  vm_compute. split; discriminate.
Defined.

(** X10.  For heights ordered as the panels need them and a proxy at least as
    high as the editors scroller, in every reachable state
    [updateAnimatedMapsBounds] keeps the maps scroller between its place at
    the bottom and the lower edge of the proxy, and the editors scroller
    between its own place at the bottom and the top of the maps scroller's
    place.  Once the timer of the maps has stopped, the editors scroller is
    level with the maps scroller when the project map is shown, and the maps
    scroller is below the lower edge when the editors are shown. *)
Theorem bottom_panels_slide_between_their_ends (ui : Globals) (p : RollsSwitchingProxy.t) :
  validHeights ui = true -> reachable ui p -> levelsMapHeight ui <= height p ->
  let q := exec (updateAnimatedMapsBounds ui) p in
  let mapHeight := currentScrollerHeight ui p in
  let mapsScroller := bounds (child q BottomMapsScroller) in
  let editorsScroller := bounds (child q BottomEditorsScroller) in
  rh mapsScroller = mapHeight /\ rh editorsScroller = levelsMapHeight ui
  /\ height p - mapHeight <= ry mapsScroller <= height p
  /\ height p - levelsMapHeight ui <= ry editorsScroller <= height p - mapHeight
  /\ (isTimerRunning maps p = false ->
      if isProjectMapVisible p
      then ry mapsScroller = height p - mapHeight /\ ry editorsScroller = height p - mapHeight
      else ry mapsScroller = height p /\ ry editorsScroller = height p - levelsMapHeight ui).
Proof.
  intros Hui Hr Hh. cbv zeta.
  destruct (validHeights_spec ui Hui) as [H1 H2].
  destruct (reachable_invariants ui p Hr) as [_ Ha].
  destruct (reachable_more ui p Hr) as [Hrest _].
  destruct (currentScrollerHeight_range ui Hui p (Ha scrollerMode)) as [Hc _].
  destruct (maps_positions ui p Hui (Ha maps) (Ha scrollerMode)) as [B1 [B2 [P0 P1]]].
  destruct (updateAnimatedMapsBounds_spec ui p) as [E1 [E2 _]]. cbv zeta in E1, E2.
  rewrite E1, E2. cbn [rx ry rw rh].
  rewrite !Z.min_l by lia.
  split; [lia|]. split; [lia|]. split; [lia|]. split; [lia|].
  intros Hstop. pose proof (Hrest maps Hstop) as Hat.
  apply atRest_spec in Hat; try apply Ha.
  unfold isProjectMapVisible, isInDefaultState, mapsAnimation in *.
  destruct Hat as [[E V]|[E V]]; rewrite E.
  - change (F32.ltb F32.minus_one F32.zero) with true. cbv iota.
    destruct (P0 V) as [-> ->]. lia.
  - change (F32.ltb F32.one F32.zero) with false. cbv iota.
    destruct (P1 V) as [-> ->]. lia.
Qed.

Lemma bottom_panels_slide_between_their_ends_witness :
  let q := exec (updateAnimatedMapsBounds exampleGlobals) exampleProxy in
  validHeights exampleGlobals = true
  /\ reachable exampleGlobals exampleProxy
  /\ levelsMapHeight exampleGlobals <= height exampleProxy
  /\ isTimerRunning maps exampleProxy = false
  /\ isProjectMapVisible exampleProxy = true
  /\ ry (bounds (child q BottomMapsScroller)) = 574
  /\ ry (bounds (child q BottomEditorsScroller)) = 574.
Proof.
  cbv zeta. split; [reflexivity|]. split; [exact exampleProxy_reachable|].
  split; [vm_compute; discriminate|]. split; [reflexivity|]. split; [reflexivity|].
  assert (Hh : levelsMapHeight exampleGlobals <= height exampleProxy)
    by (vm_compute; discriminate).
  destruct (bottom_panels_slide_between_their_ends exampleGlobals exampleProxy eq_refl
              exampleProxy_reachable Hh) as [_ [_ [_ [_ H]]]].
  exact (H eq_refl).
Defined.

(** X11.  In every reachable state, while the timer of the maps runs both
    bottom panels are visible; when it does not run, the maps scroller is
    visible exactly when the project map is the panel shown. *)
Theorem bottom_panels_visibility (ui : Globals) (p : RollsSwitchingProxy.t) :
  reachable ui p ->
  (isTimerRunning maps p = true ->
   visible (child p BottomMapsScroller) = true
   /\ visible (child p BottomEditorsScroller) = true)
  /\ (isTimerRunning maps p = false ->
      visible (child p BottomMapsScroller) = isProjectMapVisible p).
Proof. intros Hr. apply (reachable_more ui p Hr). Qed.

Lemma bottom_panels_visibility_witness :
  let p := exec (handle exampleGlobals StartMapSwitchAnimation) exampleProxy in
  reachable exampleGlobals p
  /\ isTimerRunning maps p = true
  /\ visible (child p BottomMapsScroller) = true
  /\ visible (child p BottomEditorsScroller) = true.
Proof.
  cbv zeta.
  assert (Hr : reachable exampleGlobals
                 (exec (handle exampleGlobals StartMapSwitchAnimation) exampleProxy))
    by (apply reachable_handle; [exact exampleProxy_reachable | reflexivity]).
  split; [exact Hr|]. split; [reflexivity|].
  apply (proj1 (bottom_panels_visibility exampleGlobals _ Hr)). reflexivity.
Defined.

(** X12.  The two functions that only move the children agree with the two
    that lay them out: right after [updateAnimatedRollsBounds],
    [updateAnimatedRollsPositions] changes no component; and right after
    [updateAnimatedMapsBounds], [updateAnimatedMapsPositions] changes no
    component either, provided the proxy is at least as high as the scroller
    and as the editors scroller. *)
Theorem positions_agree_with_bounds (ui : Globals) (p : RollsSwitchingProxy.t) :
  (forall c, child (exec (updateAnimatedRollsPositions ui) (exec (updateAnimatedRollsBounds ui) p)) c
             = child (exec (updateAnimatedRollsBounds ui) p) c)
  /\ (currentScrollerHeight ui p <= height p -> levelsMapHeight ui <= height p ->
      forall c, child (exec (updateAnimatedMapsPositions ui) (exec (updateAnimatedMapsBounds ui) p)) c
                = child (exec (updateAnimatedMapsBounds ui) p) c).
Proof.
  split.
  - intros c. destruct c; proxy_exec; try reflexivity.
  - intros H1 H2 c.
    destruct c; proxy_exec; try reflexivity;
      unfold setBoundsW, setTopLeftPositionW, translated, removeFromBottom, getLocalBounds,
        pianoMapPos, levelsMapPos, currentScrollerHeight in *;
      proxy_prim; cbn [rx ry rw rh] in *; f_equal; f_equal; lia.
Qed.

Lemma positions_agree_with_bounds_witness :
  let q := exec (updateAnimatedMapsBounds exampleGlobals) exampleProxy in
  currentScrollerHeight exampleGlobals exampleProxy <= height exampleProxy
  /\ levelsMapHeight exampleGlobals <= height exampleProxy
  /\ child (exec (updateAnimatedMapsPositions exampleGlobals) q) BottomEditorsScroller
     = child q BottomEditorsScroller.
Proof.
  cbv zeta.
  assert (H1 : currentScrollerHeight exampleGlobals exampleProxy <= height exampleProxy)
    by (vm_compute; discriminate).
  assert (H2 : levelsMapHeight exampleGlobals <= height exampleProxy)
    by (vm_compute; discriminate).
  split; [exact H1|]. split; [exact H2|].
  apply (proj2 (positions_agree_with_bounds exampleGlobals exampleProxy) H1 H2).
Defined.

(** X13.  Giving the proxy a size puts the shadow right above the editors
    scroller, 16 high; and once it is there, no call of a member function
    and no timer callback takes it away. *)
Theorem shadow_stays_above_the_editors_scroller (ui : Globals) (p : RollsSwitchingProxy.t) :
  (forall w h, shadowAboveEditors (exec (handle ui (SetBounds w h)) p))
  /\ (forall e, shadowAboveEditors p -> shadowAboveEditors (exec (handle ui e) p)).
Proof.
  split.
  - intros w h. cbn [handle]. unfold resized. rewrite !exec_bind.
    apply updateAnimatedMapsBounds_shadow.
  - intros e. apply handle_keepsShadow.
Qed.

Lemma shadow_stays_above_the_editors_scroller_witness :
  shadowAboveEditors exampleProxy
  /\ shadowAboveEditors (exec (handle exampleGlobals (TimerCallback maps))
                              (exec (handle exampleGlobals StartMapSwitchAnimation) exampleProxy)).
Proof.
  assert (H0 : shadowAboveEditors exampleProxy).
  { apply (proj1 (shadow_stays_above_the_editors_scroller exampleGlobals
                    (construct newWidget newWidget newWidget newWidget
                               newWidget newWidget newWidget false)) 800 600). }
  split; [exact H0|].
  apply (proj2 (shadow_stays_above_the_editors_scroller exampleGlobals _)).
  apply (proj2 (shadow_stays_above_the_editors_scroller exampleGlobals _)).
  exact H0.
Defined.

(** X14.  [resized], [updateAnimatedRollsPositions] and
    [updateAnimatedMapsPositions] change nothing but the bounds of the
    children: the animations, the timers, the flags of the components, the
    state of the scrollers and the size of the proxy are the same after. *)
Theorem layout_moves_the_children_only (ui : Globals) (p : RollsSwitchingProxy.t) :
  sameButBounds p (exec (resized ui) p)
  /\ sameButBounds p (exec (updateAnimatedRollsPositions ui) p)
  /\ sameButBounds p (exec (updateAnimatedMapsPositions ui) p).
Proof.
  split; [apply resized_frame|]. split; [apply updateAnimatedRollsPositions_frame|].
  apply updateAnimatedMapsPositions_frame.
Qed.

(** X15.  A layout fresh from its constructor shows the piano roll and the
    project map, the latter in full mode exactly when the configuration says
    so; its animations are enabled exactly when the configuration says so;
    no timer runs and every animation is at rest and may be started; the
    pattern roll is disabled; the piano viewport, the maps scroller and the
    shadow are visible, the pattern viewport and the editors scroller are as
    visible as they came. *)
Theorem fresh_layout
  (pianoRoll patternRoll pianoViewport patternViewport
   bottomMapsScroller bottomEditorsScroller scrollerShadow : Widget)
  (showFullMiniMap hasAnimations : bool) :
  let l := SequencerLayout.construct pianoRoll patternRoll pianoViewport patternViewport
             bottomMapsScroller bottomEditorsScroller scrollerShadow
             showFullMiniMap hasAnimations in
  let container := SequencerLayout.rollContainer l in
  SequencerLayout.getRoll l = PianoRoll
  /\ isProjectMapVisible container = true
  /\ isFullProjectMapMode container = showFullMiniMap
  /\ areAnimationsEnabled container = hasAnimations
  /\ (forall id, isTimerRunning id container = false /\ canAnimate id container = true
                 /\ atRest (animation container id) = true)
  /\ enabled (child container PatternRoll) = false
  /\ visible (child container PianoViewport) = true
  /\ visible (child container BottomMapsScroller) = true
  /\ visible (child container ScrollerShadow) = true
  /\ visible (child container PatternViewport) = visible patternViewport
  /\ visible (child container BottomEditorsScroller) = visible bottomEditorsScroller.
Proof.
  cbv zeta. unfold SequencerLayout.getRoll, SequencerLayout.construct, construct.
  cbn [SequencerLayout.rollContainer].
  destruct showFullMiniMap, hasAnimations; proxy_exec;
    repeat split; try (destruct id); reflexivity.
Qed.

(** X16.  In every reachable state of the layout, [showPatternEditor] leaves
    the container in pattern mode and both sidebars in pattern mode; it does
    not touch a container that is in pattern mode already, and calling it
    twice is the same as calling it once.  The same holds of
    [showLinearEditor] and the piano mode. *)
Theorem show_editor_reaches_the_mode (ui : Globals) (l : SequencerLayout.t) :
  SequencerLayout.reachable ui l ->
  (isPatternRollMode
     (SequencerLayout.rollContainer (SequencerLayout.showPatternEditor ui l)) = true
   /\ SequencerLayout.rollToolsSidebar (SequencerLayout.showPatternEditor ui l)
      = Some SequencerLayout.PatternMode
   /\ SequencerLayout.rollNavSidebar (SequencerLayout.showPatternEditor ui l)
      = Some SequencerLayout.PatternMode
   /\ (isPatternRollMode (SequencerLayout.rollContainer l) = true ->
       SequencerLayout.rollContainer (SequencerLayout.showPatternEditor ui l)
       = SequencerLayout.rollContainer l)
   /\ SequencerLayout.showPatternEditor ui (SequencerLayout.showPatternEditor ui l)
      = SequencerLayout.showPatternEditor ui l)
  /\ (isPianoRollMode
        (SequencerLayout.rollContainer (SequencerLayout.showLinearEditor ui l)) = true
      /\ SequencerLayout.rollToolsSidebar (SequencerLayout.showLinearEditor ui l)
         = Some SequencerLayout.LinearMode
      /\ SequencerLayout.rollNavSidebar (SequencerLayout.showLinearEditor ui l)
         = Some SequencerLayout.LinearMode
      /\ (isPianoRollMode (SequencerLayout.rollContainer l) = true ->
          SequencerLayout.rollContainer (SequencerLayout.showLinearEditor ui l)
          = SequencerLayout.rollContainer l)
      /\ SequencerLayout.showLinearEditor ui (SequencerLayout.showLinearEditor ui l)
         = SequencerLayout.showLinearEditor ui l).
Proof.
  intros Hr. destruct (show_editor_mode ui l Hr) as [P1 P2].
  split.
  - split; [exact P1|]. split; [reflexivity|]. split; [reflexivity|]. split.
    + intros E. rewrite showPatternEditor_container, E. reflexivity.
    + assert (E : SequencerLayout.rollContainer
                    (SequencerLayout.showPatternEditor ui (SequencerLayout.showPatternEditor ui l))
                  = SequencerLayout.rollContainer (SequencerLayout.showPatternEditor ui l))
        by (rewrite (showPatternEditor_container ui (SequencerLayout.showPatternEditor ui l)), P1;
            reflexivity).
      unfold SequencerLayout.showPatternEditor at 1. unfold SequencerLayout.showPatternEditor at 2.
      unfold SequencerLayout.showPatternEditor at 1 in E.
      cbn [SequencerLayout.rollContainer] in E. rewrite E. reflexivity.
  - split; [exact P2|]. split; [reflexivity|]. split; [reflexivity|]. split.
    + intros E. rewrite showLinearEditor_container. unfold isPatternRollMode. rewrite E. reflexivity.
    + assert (E : SequencerLayout.rollContainer
                    (SequencerLayout.showLinearEditor ui (SequencerLayout.showLinearEditor ui l))
                  = SequencerLayout.rollContainer (SequencerLayout.showLinearEditor ui l)).
      { rewrite (showLinearEditor_container ui (SequencerLayout.showLinearEditor ui l)).
        unfold isPatternRollMode. rewrite P2. reflexivity. }
      unfold SequencerLayout.showLinearEditor at 1. unfold SequencerLayout.showLinearEditor at 2.
      unfold SequencerLayout.showLinearEditor at 1 in E.
      cbn [SequencerLayout.rollContainer] in E. rewrite E. reflexivity.
Qed.

Lemma show_editor_reaches_the_mode_witness :
  SequencerLayout.reachable exampleGlobals exampleLayout
  /\ isPatternRollMode (SequencerLayout.rollContainer exampleLayout) = false
  /\ isPatternRollMode (SequencerLayout.rollContainer
                          (SequencerLayout.showPatternEditor exampleGlobals exampleLayout)) = true.
Proof.
  split; [exact exampleLayout_reachable|]. split; [reflexivity|].
  exact (proj1 (proj1 (show_editor_reaches_the_mode exampleGlobals exampleLayout
                         exampleLayout_reachable))).
Defined.

(** X17.  In every reachable state of the layout, the two sidebars have been
    told the same mode, and once they have been told one, it is the mode of
    the container: the flags of the configuration, the layout of the
    container and its timers never make them disagree. *)
Theorem sidebars_follow_the_roll (ui : Globals) (l : SequencerLayout.t) :
  SequencerLayout.reachable ui l ->
  SequencerLayout.sidebarAgrees l (SequencerLayout.rollToolsSidebar l)
  /\ SequencerLayout.rollNavSidebar l = SequencerLayout.rollToolsSidebar l.
Proof.
  induction 1 as [r1 r2 v1 v2 ms es sh showFull hasAnimations | l e Hr [IH1 IH2] Hpos].
  - split; [exact I | reflexivity].
  - assert (Hkeep : forall (m : M unit) (e' : Event),
               m = handle ui e' ->
               match e' with StartRollSwitchAnimation => False | _ => True end ->
               SequencerLayout.sidebarAgrees (SequencerLayout.onContainer m l)
                 (SequencerLayout.rollToolsSidebar l)
               /\ SequencerLayout.rollNavSidebar l = SequencerLayout.rollToolsSidebar l).
    { intros m e' -> He'. unfold SequencerLayout.sidebarAgrees in *.
      cbn [SequencerLayout.onContainer SequencerLayout.rollContainer].
      unfold isPatternRollMode in *. rewrite (mode_kept ui e' _ He'). split; assumption. }
    destruct (handle_events ui) as [E1 [E2 [E3 [E4 [E5 E6]]]]].
    destruct (show_editor_mode ui l Hr) as [P1 P2].
    destruct e as [| |b|b|b|w h|id]; cbn [SequencerLayout.handle].
    + split; [exact P1 | reflexivity].
    + split; [exact P2 | reflexivity].
    + unfold SequencerLayout.onEditorPanelVisibilityFlagChanged.
      destruct (_ || _); [split; assumption|].
      apply (Hkeep _ StartMapSwitchAnimation E2 I).
    + unfold SequencerLayout.onProjectMapLargeModeFlagChanged.
      destruct (_ || _); [split; assumption|].
      apply (Hkeep _ StartScrollerModeSwitchAnimation E3 I).
    + apply (Hkeep _ (SetAnimationsEnabled b) (E4 b) I).
    + apply (Hkeep _ (SetBounds w h) (E5 w h) I).
    + apply (Hkeep _ (TimerCallback id) (E6 id) I).
Qed.

Lemma sidebars_follow_the_roll_witness :
  let l := SequencerLayout.handle exampleGlobals SequencerLayout.ShowPatternEditor exampleLayout in
  SequencerLayout.reachable exampleGlobals l
  /\ SequencerLayout.rollToolsSidebar l = Some SequencerLayout.PatternMode
  /\ SequencerLayout.sidebarAgrees l (SequencerLayout.rollToolsSidebar l)
  /\ SequencerLayout.rollNavSidebar l = SequencerLayout.rollToolsSidebar l.
Proof.
  cbv zeta.
  assert (Hr : SequencerLayout.reachable exampleGlobals
                 (SequencerLayout.handle exampleGlobals SequencerLayout.ShowPatternEditor
                    exampleLayout))
    by (apply SequencerLayout.reachable_handle; [exact exampleLayout_reachable | reflexivity]).
  split; [exact Hr|]. split; [reflexivity|].
  apply (sidebars_follow_the_roll exampleGlobals _ Hr).
Defined.

(** X18.  Of a layout left by its constructor and by the events that
    followed: the roll [getRoll] does not return is disabled, and both
    bottom scrollers are switched to the roll [getRoll] returns; that roll is
    enabled when it is the pattern roll, and when it is the piano roll
    provided the piano roll came enabled from its own constructor (the layout
    and the container leave it as it comes). *)
Theorem current_roll_takes_the_input (ui : Globals)
  (pianoRoll patternRoll pianoViewport patternViewport
   bottomMapsScroller bottomEditorsScroller scrollerShadow : Widget)
  (showFullMiniMap hasAnimations : bool)
  (events : list SequencerLayout.Event) (l : SequencerLayout.t) :
  SequencerLayout.run ui events
    (SequencerLayout.construct pianoRoll patternRoll pianoViewport patternViewport
       bottomMapsScroller bottomEditorsScroller scrollerShadow showFullMiniMap hasAnimations)
  = Some l ->
  let container := SequencerLayout.rollContainer l in
  let roll := SequencerLayout.getRoll l in
  let otherRoll := if isPatternRollMode container then PianoRoll else PatternRoll in
  (enabled pianoRoll = true \/ isPatternRollMode container = true ->
   enabled (child container roll) = true)
  /\ enabled (child container otherRoll) = false
  /\ mapsScrollerRoll container = roll
  /\ editorsScrollerRoll container = roll.
Proof.
  intros Hrun. cbv zeta.
  assert (Hr : SequencerLayout.reachable ui l)
    by (apply (layout_run_reachable ui events _ l
                 (SequencerLayout.reachable_construct ui _ _ _ _ _ _ _ _ _) Hrun)).
  pose proof (container_reachable ui l Hr) as Hc.
  destruct (reachable_more ui _ Hc) as [_ [_ [[_ [H2 [H3 [H4 H5]]]] _]]].
  unfold SequencerLayout.getRoll, currentRoll in *. rewrite H2, H3.
  split; [|split; [|split; reflexivity]].
  - intros Hen. destruct (isPatternRollMode (SequencerLayout.rollContainer l)) eqn:Ep.
    + exact H5.
    + destruct Hen as [Hen|Hen]; [|discriminate].
      assert (Hp : pianoRollFollowsMode (SequencerLayout.rollContainer l)).
      { apply (layout_run_pianoRollFollowsMode ui events _ l Hrun).
        unfold SequencerLayout.construct. cbn [SequencerLayout.rollContainer].
        unfold pianoRollFollowsMode, construct.
        destruct showFullMiniMap, hasAnimations; proxy_exec; exact Hen. }
      unfold pianoRollFollowsMode in Hp. rewrite Hp.
      unfold isPatternRollMode in Ep. apply negb_false_iff in Ep. exact Ep.
  - destruct (isPatternRollMode (SequencerLayout.rollContainer l)) eqn:Ep.
    + destruct (enabled (child (SequencerLayout.rollContainer l) PianoRoll)) eqn:E;
        [|reflexivity].
      unfold isPatternRollMode in Ep. rewrite (H4 eq_refl) in Ep. discriminate.
    + exact H5.
Qed.

Lemma current_roll_takes_the_input_witness :
  let l := SequencerLayout.handle exampleGlobals (SequencerLayout.ContainerTimerCallback rolls)
             (SequencerLayout.handle exampleGlobals SequencerLayout.ShowPatternEditor
                exampleLayout) in
  let l' := SequencerLayout.handle exampleGlobals SequencerLayout.ShowLinearEditor l in
  (SequencerLayout.run exampleGlobals
     [SequencerLayout.ShowPatternEditor; SequencerLayout.ContainerTimerCallback rolls]
     exampleLayout = Some l
   /\ isPatternRollMode (SequencerLayout.rollContainer l) = true
   /\ SequencerLayout.getRoll l = PatternRoll
   /\ enabled (child (SequencerLayout.rollContainer l) (SequencerLayout.getRoll l)) = true)
  /\ (SequencerLayout.run exampleGlobals
        [SequencerLayout.ShowPatternEditor; SequencerLayout.ContainerTimerCallback rolls;
         SequencerLayout.ShowLinearEditor]
        exampleLayout = Some l'
      /\ enabled newWidget = true
      /\ SequencerLayout.getRoll l' = PianoRoll
      /\ enabled (child (SequencerLayout.rollContainer l') (SequencerLayout.getRoll l')) = true).
Proof.
  cbv zeta.
  assert (R1 : SequencerLayout.run exampleGlobals
                 [SequencerLayout.ShowPatternEditor; SequencerLayout.ContainerTimerCallback rolls]
                 exampleLayout
               = Some (SequencerLayout.handle exampleGlobals
                         (SequencerLayout.ContainerTimerCallback rolls)
                         (SequencerLayout.handle exampleGlobals SequencerLayout.ShowPatternEditor
                            exampleLayout))) by run_events.
  assert (M1 : isPatternRollMode
                 (SequencerLayout.rollContainer
                    (SequencerLayout.handle exampleGlobals
                       (SequencerLayout.ContainerTimerCallback rolls)
                       (SequencerLayout.handle exampleGlobals SequencerLayout.ShowPatternEditor
                          exampleLayout))) = true) by (vm_compute; reflexivity).
  assert (R2 : SequencerLayout.run exampleGlobals
                 [SequencerLayout.ShowPatternEditor; SequencerLayout.ContainerTimerCallback rolls;
                  SequencerLayout.ShowLinearEditor]
                 exampleLayout
               = Some (SequencerLayout.handle exampleGlobals SequencerLayout.ShowLinearEditor
                         (SequencerLayout.handle exampleGlobals
                            (SequencerLayout.ContainerTimerCallback rolls)
                            (SequencerLayout.handle exampleGlobals
                               SequencerLayout.ShowPatternEditor exampleLayout))))
    by run_events.
  split.
  - split; [exact R1|]. split; [exact M1|]. split; [vm_compute; reflexivity|].
    exact (proj1 (current_roll_takes_the_input exampleGlobals
                    newWidget newWidget newWidget newWidget newWidget newWidget newWidget
                    false true _ _ R1) (or_intror M1)).
  - split; [exact R2|]. split; [reflexivity|]. split; [vm_compute; reflexivity|].
    exact (proj1 (current_roll_takes_the_input exampleGlobals
                    newWidget newWidget newWidget newWidget newWidget newWidget newWidget
                    false true _ _ R2) (or_introl eq_refl)).
Defined.

(** X19.  In every reachable state of the layout,
    [onEditorPanelVisibilityFlagChanged (b)] leaves the editors panel shown
    exactly when [b] is true and [onProjectMapLargeModeFlagChanged (b)] leaves
    the project map in full mode exactly when [b] is true, neither doing
    anything when this is the case already; and after
    [onUiAnimationsFlagChanged (b)] the animations are enabled exactly when
    [b] is true. *)
Theorem flag_listeners_reach_the_requested_state
  (ui : Globals) (l : SequencerLayout.t) (b : bool) :
  SequencerLayout.reachable ui l ->
  (isEditorPanelVisible
     (SequencerLayout.rollContainer (SequencerLayout.onEditorPanelVisibilityFlagChanged ui b l)) = b
   /\ (isEditorPanelVisible (SequencerLayout.rollContainer l) = b ->
       SequencerLayout.onEditorPanelVisibilityFlagChanged ui b l = l))
  /\ (isFullProjectMapMode
        (SequencerLayout.rollContainer (SequencerLayout.onProjectMapLargeModeFlagChanged b l)) = b
      /\ (isFullProjectMapMode (SequencerLayout.rollContainer l) = b ->
          SequencerLayout.onProjectMapLargeModeFlagChanged b l = l))
  /\ areAnimationsEnabled
       (SequencerLayout.rollContainer (SequencerLayout.onUiAnimationsFlagChanged b l)) = b.
Proof.
  intros Hr. pose proof (container_reachable ui l Hr) as Hc.
  destruct (reachable_invariants ui _ Hc) as [_ Ha].
  pose proof (start_maps_toggles ui _ Ha) as Hm.
  pose proof (start_scrollerMode_toggles (SequencerLayout.rollContainer l)) as Hs.
  split; [|split].
  - unfold SequencerLayout.onEditorPanelVisibilityFlagChanged.
    unfold isEditorPanelVisible in *.
    destruct (isProjectMapVisible (SequencerLayout.rollContainer l)) eqn:E, b;
      cbn [negb andb orb SequencerLayout.rollContainer]; rewrite ?Hm, ?E;
      split; try reflexivity; intros; discriminate.
  - unfold SequencerLayout.onProjectMapLargeModeFlagChanged.
    destruct (isFullProjectMapMode (SequencerLayout.rollContainer l)) eqn:E, b;
      cbn [negb andb orb SequencerLayout.rollContainer]; rewrite ?Hs, ?E;
      split; try reflexivity; intros; discriminate.
  - destruct b; reflexivity.
Qed.

Lemma flag_listeners_reach_the_requested_state_witness :
  SequencerLayout.reachable exampleGlobals exampleLayout
  /\ isEditorPanelVisible (SequencerLayout.rollContainer exampleLayout) = false
  /\ isEditorPanelVisible
       (SequencerLayout.rollContainer
          (SequencerLayout.onEditorPanelVisibilityFlagChanged exampleGlobals true exampleLayout))
     = true.
Proof.
  split; [exact exampleLayout_reachable|]. split; [reflexivity|].
  exact (proj1 (proj1 (flag_listeners_reach_the_requested_state exampleGlobals exampleLayout true
                         exampleLayout_reachable))).
Defined.

(** X20.  In every reachable state of the layout: while the timer of the rolls
    does not run, the command [SwitchBetweenRolls] is honoured and asks for
    the editor of the other mode; right after an editor has been shown by a
    switch that was allowed, the command is ignored if the animations are
    enabled, and honoured at once, heading back, if they are disabled. *)
Theorem switch_between_rolls_command
  (ui : Globals) (l : SequencerLayout.t) (hasLastShownTrack : bool) :
  SequencerLayout.reachable ui l ->
  let container := SequencerLayout.rollContainer l in
  let command := SequencerLayout.handleCommandMessage SequencerLayout.SwitchBetweenRolls
                   hasLastShownTrack in
  (isTimerRunning rolls container = false ->
   command l = if isPatternRollMode container
               then (if hasLastShownTrack then SequencerLayout.SelectLastShownTrack
                     else SequencerLayout.SelectFirstPianoTrack)
               else SequencerLayout.SelectPatternEditor)
  /\ (isPianoRollMode container = true -> canAnimate rolls container = true ->
      command (SequencerLayout.showPatternEditor ui l)
      = if areAnimationsEnabled container then SequencerLayout.NoRequest
        else if hasLastShownTrack then SequencerLayout.SelectLastShownTrack
             else SequencerLayout.SelectFirstPianoTrack)
  /\ (isPatternRollMode container = true -> canAnimate rolls container = true ->
      command (SequencerLayout.showLinearEditor ui l)
      = if areAnimationsEnabled container then SequencerLayout.NoRequest
        else SequencerLayout.SelectPatternEditor).
Proof.
  intros Hr. cbv zeta. pose proof (container_reachable ui l Hr) as Hc.
  destruct (reachable_invariants ui _ Hc) as [_ Ha].
  destruct (reachable_more ui _ Hc) as [Hrest _].
  destruct (show_editor_mode ui l Hr) as [P1 P2].
  unfold SequencerLayout.handleCommandMessage.
  assert (Hnot : areAnimationsEnabled (SequencerLayout.rollContainer l) = false ->
                 canRestart (animation (exec (handle ui StartRollSwitchAnimation)
                                          (SequencerLayout.rollContainer l)) rolls) = true).
  { intros Hoff. cbn [handle].
    rewrite (proj1 (start_rolls_not_animated ui _ Ha Hoff)).
    assert (Hr2 : running U (finish (start rollsAnimationStartSpeed
                                       (animation (SequencerLayout.rollContainer l) rolls))))
      by (apply running_finish, running_start; [reflexivity | apply Ha]).
    pose proof (running_finish_tick _ Hr2) as Hr3.
    apply canRestart_atRest; [apply Hr3 | apply Hr3 | apply atRest_finish_tick; assumption]. }
  assert (Hon : areAnimationsEnabled (SequencerLayout.rollContainer l) = true ->
                canAnimate rolls (SequencerLayout.rollContainer l) = true ->
                canRestart (animation (exec (handle ui StartRollSwitchAnimation)
                                         (SequencerLayout.rollContainer l)) rolls) = false).
  { intros Hen Hcan. cbn [handle].
    rewrite (proj1 (start_rolls_animated ui _ Hen)). apply canRestart_start. exact Hcan. }
  split; [|split].
  - intros Hstop.
    assert (Hcan : canAnimate rolls (SequencerLayout.rollContainer l) = true).
    { cbn [canAnimate]. apply canRestart_atRest; [apply Ha | apply Ha | apply Hrest; assumption]. }
    rewrite Hcan. reflexivity.
  - intros Hpiano Hcan. rewrite P1. cbn [canAnimate]. unfold rollsAnimation.
    rewrite showPatternEditor_container. unfold isPatternRollMode. rewrite Hpiano. cbn [negb].
    destruct (areAnimationsEnabled (SequencerLayout.rollContainer l)) eqn:E.
    + rewrite (Hon eq_refl Hcan). reflexivity.
    + rewrite (Hnot eq_refl). reflexivity.
  - intros Hpattern Hcan.
    assert (Hp : isPatternRollMode
                   (SequencerLayout.rollContainer (SequencerLayout.showLinearEditor ui l)) = false)
      by (unfold isPatternRollMode; rewrite P2; reflexivity).
    rewrite Hp. cbn [canAnimate]. unfold rollsAnimation.
    rewrite showLinearEditor_container. rewrite Hpattern.
    destruct (areAnimationsEnabled (SequencerLayout.rollContainer l)) eqn:E.
    + rewrite (Hon eq_refl Hcan). reflexivity.
    + rewrite (Hnot eq_refl). reflexivity.
Qed.

Lemma switch_between_rolls_command_witness :
  SequencerLayout.reachable exampleGlobals exampleLayout
  /\ isTimerRunning rolls (SequencerLayout.rollContainer exampleLayout) = false
  /\ isPianoRollMode (SequencerLayout.rollContainer exampleLayout) = true
  /\ canAnimate rolls (SequencerLayout.rollContainer exampleLayout) = true
  /\ SequencerLayout.handleCommandMessage SequencerLayout.SwitchBetweenRolls true
       (SequencerLayout.showPatternEditor exampleGlobals exampleLayout)
     = (if areAnimationsEnabled (SequencerLayout.rollContainer exampleLayout)
        then SequencerLayout.NoRequest
        else if true then SequencerLayout.SelectLastShownTrack
             else SequencerLayout.SelectFirstPianoTrack).
Proof.
  split; [exact exampleLayout_reachable|]. split; [reflexivity|].
  split; [reflexivity|]. split; [reflexivity|].
  exact (proj1 (proj2 (switch_between_rolls_command exampleGlobals exampleLayout true
                         exampleLayout_reachable)) eq_refl eq_refl).
Defined.





(** X23.  When the two ends of a connector are pixel coordinates (well formed,
    at most [2^22] away from 0), the line both [paint] functions draw, from
    the start to the end in the coordinates of the connector, stays inside
    the bounds [updateBounds] has set, 9 or more away from every edge. *)
Theorem connector_line_is_well_inside
  (parentWidth parentHeight : Z) (c : Connector.MergingEventsConnector) :
  pixelPoint (Connector.getStartPosition parentWidth parentHeight c) = true ->
  pixelPoint (Connector.getEndPosition parentWidth parentHeight c) = true ->
  let c' := Connector.updateBounds parentWidth parentHeight c in
  let lineStart := ConnectorPaint.localStart parentWidth parentHeight c' in
  let lineEnd := ConnectorPaint.localEnd parentWidth parentHeight c' in
  wellInside (Connector.connectorBounds c') lineStart = true
  /\ wellInside (Connector.connectorBounds c') lineEnd = true
  /\ ConnectorPaint.paintNotes parentWidth parentHeight c'
     = [ JuceGraphics.SetColour JuceGraphics.aliceblue;
         JuceGraphics.DrawLine (px lineStart) (py lineStart) (px lineEnd) (py lineEnd)
                               (F32.of_int 1) ]
  /\ (forall startColour endColour,
        exists arrowheadWidth arrowheadLength fill1 fill2,
          ConnectorPaint.paintClips parentWidth parentHeight
            (Connector.mkClips c' startColour endColour)
          = [ JuceGraphics.SetGradientFill startColour lineStart endColour lineEnd false;
              JuceGraphics.DrawArrow lineStart lineEnd (F32.literal 1 1)
                                     arrowheadWidth arrowheadLength;
              fill1; fill2 ]).
Proof.
  intros Hs He. cbv zeta.
  destruct (connector_line_spec parentWidth parentHeight c Hs He) as [H1 H2].
  split; [exact H1|]. split; [exact H2|]. split; [reflexivity|].
  intros startColour endColour. unfold ConnectorPaint.paintClips. cbn [Connector.base].
  eexists. eexists. eexists. eexists. reflexivity.
Qed.

Lemma connector_line_is_well_inside_witness :
  pixelPoint (Connector.getStartPosition 800 600 exampleConnector) = true
  /\ pixelPoint (Connector.getEndPosition 800 600 exampleConnector) = true
  /\ (let c' := Connector.updateBounds 800 600 exampleConnector in
      wellInside (Connector.connectorBounds c') (ConnectorPaint.localStart 800 600 c') = true).
Proof.
  assert (Hs : pixelPoint (Connector.getStartPosition 800 600 exampleConnector) = true)
    by (vm_compute; reflexivity).
  assert (He : pixelPoint (Connector.getEndPosition 800 600 exampleConnector) = true)
    by (vm_compute; reflexivity).
  split; [exact Hs|]. split; [exact He|].
  exact (proj1 (connector_line_is_well_inside 800 600 exampleConnector Hs He)).
Defined.

(** X24.  One call of [setTargetComponent] of the clips connector changes
    neither the start colour nor the bounds, the anchors or the source; the
    end colour it leaves is the start colour for a candidate that is no clip
    component (none, or another component), and does not depend on the
    candidates of earlier calls; for a connector made of a clip component,
    start and end colour are the track colour of that clip, and a candidate
    that is no clip component gives that colour back, whatever the calls
    before. *)
Theorem clips_connector_colours
  (c : Connector.MergingClipsConnector) (candidate : option Connector.Component) :
  let c' := Connector.setTargetComponentClips candidate c in
  (Connector.startColour c' = Connector.startColour c
   /\ Connector.connectorBounds (Connector.base c') = Connector.connectorBounds (Connector.base c)
   /\ Connector.startPositionAbs (Connector.base c') = Connector.startPositionAbs (Connector.base c)
   /\ Connector.endPositionAbs (Connector.base c') = Connector.endPositionAbs (Connector.base c)
   /\ Connector.sourceComponent (Connector.base c') = Connector.sourceComponent (Connector.base c))
  /\ (Connector.endColour (Connector.setTargetComponentClips None c) = Connector.startColour c
      /\ Connector.endColour (Connector.setTargetComponentClips (Some Connector.OtherComponent) c)
         = Connector.startColour c)
  /\ (forall earlier : option Connector.Component,
        Connector.endColour
          (Connector.setTargetComponentClips candidate
             (Connector.setTargetComponentClips earlier c))
        = Connector.endColour c')
  /\ (forall (trackColour : Connector.Colour) (startPosition : Point F32.float)
             (earlier : option Connector.Component),
        let fresh := Connector.constructClips (Some (Connector.ClipComponent trackColour))
                       startPosition in
        Connector.startColour fresh = trackColour
        /\ Connector.endColour fresh = trackColour
        /\ Connector.endColour
             (Connector.setTargetComponentClips None
                (Connector.setTargetComponentClips earlier fresh)) = trackColour
        /\ Connector.endColour
             (Connector.setTargetComponentClips (Some Connector.OtherComponent)
                (Connector.setTargetComponentClips earlier fresh)) = trackColour).
Proof.
  cbv zeta. split; [repeat split|]. split; [split; reflexivity|].
  split.
  - intros earlier. destruct candidate as [[k|]|]; reflexivity.
  - intros trackColour startPosition earlier. repeat split.
Qed.
